(** * hera_cal: calibration utilities, checked against their description

    A shallow embedding of the parts of the repository that its description
    makes checkable statements about:

    - [hera_cal/utils.py]: [split_pol], [conj_pol], [synthesize_ant_flags], [chisq];
    - [hera_cal/io.py]: [HERAData._get_slice];
    - [heracal/firstcal.py]: [FirstCalRedundantInfo.init_from_reds];
    - [hera_cal/abscal.py]: [AbsCal.make_gains].

    Conventions of the embedding.

    - A Python exception is a value of [exn]; a function that may raise
      returns a [result].  [try ... except E] is a match on the raised [exn].
    - A dictionary is a [gmap]; a dictionary that the code iterates over is the
      list of its items in iteration order (keys without duplicates).
    - A 2D numpy array (a waterfall, time by frequency) is a list of rows.
      Element-wise numpy operations are [zip_with]; numpy raises on operands
      whose shapes do not broadcast, so the embedding speaks about operands of
      one common shape, and statements that need it say so.
    - numpy floats are idealised: exact rationals [Q] where the code only
      counts, compares and divides ([synthesize_ant_flags]), real numbers [R]
      where it takes moduli and exponentials ([chisq], [make_gains]).
      What depends on the rounding of float64 is said so where it is
      stated; [chisq] is also given with its arithmetic left open and run on
      binary64 floats ([Generic], [Float64]).
    - Functions of pyuvdata, omnical and numpy that the code calls are not
      part of the repository.  pyuvdata's and omnical's are Section variables
      (with one concrete table as an instance for examples); numpy's are
      written out from their documentation. *)

From Stdlib Require Import ZArith QArith Qabs Reals Psatz String Ascii List.
From Stdlib Require PrimFloat.
From stdpp Require Import gmap strings list fin_maps.

Open Scope Z_scope.

(** ** Exceptions and results *)

Inductive exn : Type :=
| ValueError (msg : string)
| KeyError
| IndexError
| AttributeError
| AssertionError
| TypeError.

Inductive result (A : Type) : Type :=
| OK (a : A)
| Raise (e : exn).
Arguments OK {A} a.
Arguments Raise {A} e.

#[global] Instance result_ret : MRet result := fun A a => OK a.
#[global] Instance result_bind : MBind result := fun A B f r =>
  match r with
  | OK a => f a
  | Raise e => Raise e
  end.

(** [d[k]] on a dictionary: [KeyError] when the key is absent. *)
Definition getitem `{Countable K} {V} (d : gmap K V) (k : K) : result V :=
  match d !! k with
  | Some v => OK v
  | None => Raise KeyError
  end.

(** [d.has_key(k)] *)
Definition has_key `{Countable K} {V} (d : gmap K V) (k : K) : bool :=
  bool_decide (is_Some (d !! k)).

(** [l[0]] on a list: [IndexError] when the list is empty. *)
Definition first {A} (l : list A) : result A :=
  match l with
  | x :: _ => OK x
  | [] => Raise IndexError
  end.

(** Adding one element to a set: [{[x]} ∪ X], without rebuilding [X]. *)
Definition set_add `{Countable K} (x : K) (X : gset K) : gset K :=
  mapset.Mapset (<[x := ()]> (mapset.mapset_car X)).

Lemma set_add_union `{Countable K} (x : K) (X : gset K) : set_add x X = {[x]} ∪ X.
Proof.
  destruct X as [m]. unfold set_add. simpl.
  change ({[x]} ∪ mapset.Mapset m : gset K)
    with (mapset.Mapset ({[x := ()]} ∪ m) : gset K).
  f_equal. apply insert_union_singleton_l.
Qed.

(** Monadic left fold: the body of a [for] loop that may raise. *)
Fixpoint foldM {A B} (f : A → B → result A) (a : A) (l : list B) : result A :=
  match l with
  | [] => OK a
  | x :: l' => a' ← f a x; foldM f a' l'
  end.

Lemma foldM_cons {A B} (f : A → B → result A) (a : A) (x : B) (l : list B) :
  foldM f a (x :: l) = f a x ≫= fun a' => foldM f a' l.
Proof. reflexivity. Qed.

Lemma bind_OK {A B} (r : result A) (f : A → result B) (b : B) :
  r ≫= f = OK b ↔ ∃ a, r = OK a ∧ f a = OK b.
Proof.
  destruct r as [a|e]; simpl.
  - split; [eauto | intros (a' & [= <-] & H); exact H].
  - split; [discriminate | intros (a' & [=] & _)].
Qed.

Lemma foldM_app {A B} (f : A → B → result A) (a : A) (l1 l2 : list B) :
  foldM f a (l1 ++ l2) = foldM f a l1 ≫= fun a' => foldM f a' l2.
Proof.
  revert a. induction l1 as [|x l1 IH]; intros a; simpl; [done|].
  destruct (f a x) as [a'|e]; simpl; [apply IH | done].
Qed.

(** ** Waterfalls: 2D arrays, time by frequency *)

Abbreviation waterfall A := (list (list A)).

Definition wf_map {A B} (f : A → B) (w : waterfall A) : waterfall B :=
  fmap (M:=list) (fmap (M:=list) f) w.

Definition wf_zip {A B C} (f : A → B → C) (a : waterfall A) (b : waterfall B)
  : waterfall C :=
  zip_with (zip_with f) a b.

(** [w[t, f]] *)
Definition wf_get {A} (w : waterfall A) (t f : nat) : option A :=
  w !! t ≫= fun row => row !! f.

(** [np.all(w)] *)
Definition wf_all (w : waterfall bool) : bool := forallb (forallb (fun b => b)) w.

(** [w.shape], as the list of row lengths (a numpy array has rows of one length). *)
Definition wf_shape {A} (w : waterfall A) : list nat := fmap length w.

(** An array of the shape of [w] filled with [c]: [np.zeros(w.shape)], [np.ones(w.shape)]. *)
Definition wf_full {A B} (c : B) (w : waterfall A) : waterfall B :=
  wf_map (fun _ => c) w.

Lemma wf_get_map {A B} (f : A → B) (w : waterfall A) t k :
  wf_get (wf_map f w) t k = f <$> wf_get w t k.
Proof.
  unfold wf_get, wf_map. rewrite list_lookup_fmap.
  destruct (w !! t) as [row|]; simpl; [|done].
  by rewrite list_lookup_fmap.
Qed.

Lemma wf_get_zip {A B C} (f : A → B → C) (a : waterfall A) (b : waterfall B) t k :
  wf_get (wf_zip f a b) t k =
    x ← wf_get a t k; y ← wf_get b t k; Some (f x y).
Proof.
  unfold wf_get, wf_zip. rewrite lookup_zip_with.
  destruct (a !! t) as [ra|]; simpl; [|done].
  destruct (b !! t) as [rb|]; simpl.
  - rewrite lookup_zip_with. done.
  - by destruct (ra !! k).
Qed.

Lemma wf_shape_map {A B} (f : A → B) (w : waterfall A) :
  wf_shape (wf_map f w) = wf_shape w.
Proof.
  unfold wf_shape, wf_map. rewrite <- list_fmap_compose.
  apply list_fmap_ext. intros _ row _. simpl. apply length_fmap.
Qed.

Lemma wf_zip_assoc {A} (f : A → A → A) (Hf : ∀ x y z, f (f x y) z = f x (f y z))
    (a b c : waterfall A) :
  wf_zip f (wf_zip f a b) c = wf_zip f a (wf_zip f b c).
Proof.
  unfold wf_zip. revert b c.
  induction a as [|ra a IH]; intros [|rb b] [|rc c]; simpl; try done.
  f_equal; [|apply IH].
  clear IH. revert rb rc.
  induction ra as [|x ra IH]; intros [|y rb] [|z rc]; simpl; try done.
  by rewrite Hf, IH.
Qed.

Lemma wf_zip_comm {A} (f : A → A → A) (Hf : ∀ x y, f x y = f y x)
    (a b : waterfall A) :
  wf_zip f a b = wf_zip f b a.
Proof.
  unfold wf_zip. revert b.
  induction a as [|ra a IH]; intros [|rb b]; simpl; try done.
  f_equal; [|apply IH].
  clear IH. revert rb.
  induction ra as [|x ra IH]; intros [|y rb]; simpl; try done.
  by rewrite Hf, IH.
Qed.

(** Adding to an array of the same shape filled with a left unit. *)
Lemma wf_zip_full_l {A B} (f : B → B → B) (z : B) (Hz : ∀ y, f z y = y)
    (a : waterfall A) (b : waterfall B) :
  wf_shape a = wf_shape b → wf_zip f (wf_full z a) b = b.
Proof.
  unfold wf_zip, wf_full, wf_map, wf_shape. revert b.
  induction a as [|ra a IH]; intros [|rb b]; simpl; try done.
  intros [= Hlen Hsh]. f_equal; [|by apply IH].
  clear IH Hsh. revert rb Hlen.
  induction ra as [|x ra IH]; intros [|y rb]; simpl; try done.
  intros [= Hlen]. by rewrite Hz, IH.
Qed.

(** ** Polarization strings: [split_pol], [conj_pol] *)

Lemma string_rev_app_twice (s a b : string) :
  String.rev_app (String.rev_app s a) b = String.rev_app a (String.app s b).
Proof.
  revert a b. induction s as [|c s IH]; intros a b; simpl; [done|].
  by rewrite IH.
Qed.

Lemma string_rev_involutive (s : string) : String.rev (String.rev s) = s.
Proof.
  unfold String.rev. rewrite string_rev_app_twice. simpl.
  induction s as [|c s IH]; [done|].
  change (String c (String.app s EmptyString) = String c s). by rewrite IH.
Qed.

(** [pol[i]] on a string: the one-character string, [IndexError] out of range. *)
Definition str_index (s : string) (i : nat) : result string :=
  match String.get i s with
  | Some c => OK (String c EmptyString)
  | None => Raise IndexError
  end.

Section Pol.
  (** pyuvdata.utils: polarization string to polarization number, antenna
      (Jones) polarization string to number and back.  They raise on a string
      or number that is not in their tables. *)
Variable polstr2num : string → result Z.
Variable jstr2num : string → result Z.
Variable jnum2str : Z → result string.

  (** utils.py, [split_pol] *)
Definition split_pol (pol : string) : result (string * string) :=
    n ← polstr2num pol;
    if bool_decide (n > 0) then
      Raise (ValueError "Unable to split Stokes or pseudo-Stokes polarization")
    else
      c0 ← str_index pol 0;
      j0 ← jstr2num c0;
      a0 ← jnum2str j0;
      c1 ← str_index pol 1;
      j1 ← jstr2num c1;
      a1 ← jnum2str j1;
      OK (a0, a1).

  (** utils.py, [conj_pol] *)
Definition conj_pol (pol : string) : result string :=
    n ← polstr2num pol;
    if bool_decide (n > 0) then OK pol else OK (String.rev pol).
End Pol.

(** The tables of pyuvdata.utils as an instance (lookups ignore case).  The
    linear entries agree with [str2pol] of abscal.py,
    [{"xx": -5, "yy": -6, "xy": -7, "yx": -8}]. *)
Module Pyuvdata.
Definition lower_ascii (c : ascii) : ascii :=
    let n := nat_of_ascii c in
    if bool_decide (65 ≤ n ≤ 90)%nat then ascii_of_nat (n + 32) else c.

Fixpoint lower (s : string) : string :=
    match s with
    | EmptyString => EmptyString
    | String c s' => String (lower_ascii c) (lower s')
    end.

Fixpoint assoc {V} (tbl : list (string * V)) (k : string) : result V :=
    match tbl with
    | [] => Raise KeyError
    | (k', v) :: tbl' => if String.eqb k k' then OK v else assoc tbl' k
    end.

Definition POL_STR2NUM : list (string * Z) :=
    [("pi", 1); ("pq", 2); ("pu", 3); ("pv", 4);
     ("i", 1); ("q", 2); ("u", 3); ("v", 4);
     ("rr", -1); ("ll", -2); ("rl", -3); ("lr", -4);
     ("xx", -5); ("yy", -6); ("xy", -7); ("yx", -8)]%string.

Definition JONES_STR2NUM : list (string * Z) :=
    [("x", -5); ("y", -6); ("r", -1); ("l", -2)]%string.

Definition polstr2num (pol : string) : result Z := assoc POL_STR2NUM (lower pol).
Definition jstr2num (s : string) : result Z := assoc JONES_STR2NUM (lower s).
Definition jnum2str (n : Z) : result string :=
    if bool_decide (n = -5) then OK "x"%string
    else if bool_decide (n = -6) then OK "y"%string
    else if bool_decide (n = -1) then OK "r"%string
    else if bool_decide (n = -2) then OK "l"%string
    else Raise KeyError.

Lemma lower_rev_app (s a : string) :
    lower (String.rev_app s a) = String.rev_app (lower s) (lower a).
  Proof. revert a. induction s as [|c s IH]; intros a; simpl; [done | by rewrite IH]. Qed.

Lemma lower_rev (s : string) : lower (String.rev s) = String.rev (lower s).
  Proof. apply lower_rev_app. Qed.

  (** The table is closed under reversal on its entries that are not Stokes
      (the linear and circular ones, of negative number). *)
Lemma polstr2num_rev (s : string) (n : Z) :
    polstr2num s = OK n → n ≤ 0 → ∃ m, polstr2num (String.rev s) = OK m ∧ m ≤ 0.
  Proof.
    unfold polstr2num. rewrite lower_rev. generalize (lower s). clear s.
    intros s Hs Hn. unfold POL_STR2NUM in *. simpl in Hs.
    repeat match type of Hs with
    | (if String.eqb ?a ?b then _ else _) = _ =>
        destruct (String.eqb_spec a b) as [E|_];
          [subst s; injection Hs as <-;
           first [lia | eexists; split; [reflexivity | lia]] |]
    end.
    discriminate.
  Qed.
End Pyuvdata.

(** C9.  [conj_pol] is an involution on visibility polarization strings.  For
    a string with a negative polarization number (a linear polarization) it
    returns the reversed string, which for a two-character string swaps the
    two characters, and applying it twice gives the string back; for a string
    with a positive polarization number (Stokes or pseudo-Stokes) it returns
    the string unchanged.  The polarization table is pyuvdata's and is taken
    as given, with the one property of it that the involution uses: the
    reversal of a string that is not Stokes is not Stokes either. *)
Theorem conj_pol_involution (polstr2num : string → result Z)
    (Hrev : ∀ s n, polstr2num s = OK n → n ≤ 0 →
            ∃ m, polstr2num (String.rev s) = OK m ∧ m ≤ 0)
    (pol : string) (n : Z) :
  polstr2num pol = OK n →
  (n < 0 →
     conj_pol polstr2num pol = OK (String.rev pol)
     ∧ (∀ a b, pol = String a (String b EmptyString) →
          conj_pol polstr2num pol = OK (String b (String a EmptyString)))
     ∧ (conj_pol polstr2num pol ≫= conj_pol polstr2num) = OK pol)
  ∧ (0 < n →
     conj_pol polstr2num pol = OK pol
     ∧ (conj_pol polstr2num pol ≫= conj_pol polstr2num) = OK pol).
Proof.
  intros Hpol. split; intros Hn.
  - assert (Hc : conj_pol polstr2num pol = OK (String.rev pol)).
    { unfold conj_pol. rewrite Hpol. simpl.
      rewrite bool_decide_eq_false_2 by lia. done. }
    split; [exact Hc|]. split.
    + intros a b ->. rewrite Hc. reflexivity.
    + rewrite Hc. simpl.
      destruct (Hrev pol n Hpol ltac:(lia)) as (m & Hm & Hm0).
      unfold conj_pol. rewrite Hm. simpl.
      rewrite bool_decide_eq_false_2 by lia.
      by rewrite string_rev_involutive.
  - assert (Hc : conj_pol polstr2num pol = OK pol).
    { unfold conj_pol. rewrite Hpol. simpl.
      rewrite bool_decide_eq_true_2 by lia. done. }
    split; [exact Hc|]. rewrite Hc. simpl. exact Hc.
Qed.

Lemma conj_pol_involution_witness :
  Pyuvdata.polstr2num "xy" = OK (-7)
  ∧ conj_pol Pyuvdata.polstr2num "xy" = OK "yx"%string
  ∧ (conj_pol Pyuvdata.polstr2num "xy" ≫= conj_pol Pyuvdata.polstr2num) = OK "xy"%string.
Proof.
  split; [reflexivity|].
  destruct (conj_pol_involution Pyuvdata.polstr2num Pyuvdata.polstr2num_rev
              "xy" (-7) eq_refl) as [Hneg _].
  destruct (Hneg ltac:(lia)) as (_ & Hswap & Hinv).
  split; [exact (Hswap _ _ eq_refl) | exact Hinv].
Defined.

(** ** Complex numbers *)

Definition complex : Type := R * R.

Definition RtoC (x : R) : complex := (x, 0%R).
Definition Cadd (a b : complex) : complex := (a.1 + b.1, a.2 + b.2)%R.
Definition Csub (a b : complex) : complex := (a.1 - b.1, a.2 - b.2)%R.
Definition Cmul (a b : complex) : complex :=
  (a.1 * b.1 - a.2 * b.2, a.1 * b.2 + a.2 * b.1)%R.
(** [np.conj] *)
Definition Cconj (a : complex) : complex := (a.1, - a.2)%R.
(** [np.abs] of a complex number *)
Definition Cabs (a : complex) : R := sqrt (a.1 * a.1 + a.2 * a.2).
(** [np.exp] of a complex number *)
Definition Cexp (a : complex) : complex :=
  (exp a.1 * cos a.2, exp a.1 * sin a.2)%R.

(** ** io.py: [HERAData._get_slice] *)

(** [l[i]] on a list: [IndexError] out of range. *)
Definition index {A} (l : list A) (i : nat) : result A :=
  match l !! i with
  | Some x => OK x
  | None => Raise IndexError
  end.

(** A Python [slice(start, stop, step)] of natural numbers, as
    [_determine_blt_slicing] builds them. *)
Record slice : Type := Slice { sl_start : nat; sl_stop : nat; sl_step : nat }.

#[global] Instance slice_eq_dec : EqDecision slice.
Proof. solve_decision. Defined.

(** The positions a slice selects on an axis of length [len]. *)
Definition slice_indices (sl : slice) (len : nat) : list nat :=
  let stop := Nat.min (sl_stop sl) len in
  let count := ((stop - sl_start sl + sl_step sl - 1) / sl_step sl)%nat in
  (fun k => sl_start sl + k * sl_step sl)%nat <$> seq 0 count.

(** [data_array[sl, 0, :, p]] on an array of shape (Nblts, 1, Nfreq, Npol). *)
Definition index_blt_pol {A} (data_array : list (list (list (list A))))
    (sl : slice) (p : nat) : result (waterfall A) :=
  if bool_decide (sl_step sl = 0%nat) then
    Raise (ValueError "slice step cannot be zero")
  else
    mapM (fun b =>
            blt ← index data_array b;
            spw ← index blt 0;
            mapM (fun row => index row p) spw)
         (slice_indices sl (length data_array)).

(** The two lookup tables of a [HERAData] object that [_get_slice] reads. *)
Record HERAData : Type := {
  _blt_slices : gmap (Z * Z) slice;
  _polnum_indices : gmap Z nat
}.

Section GetSlice.
Variable polstr2num : string → result Z.

  (** The body of the [try]:
      [data_array[self._blt_slices[tuple(key[0:2])], 0, :,
                  self._polnum_indices[polstr2num(key[2])]]] *)
Definition get_slice_try (hd : HERAData)
      (data_array : list (list (list (list complex))))
      (key : Z * Z * string) : result (waterfall complex) :=
    let '(i, j, pol) := key in
    sl ← getitem (_blt_slices hd) (i, j);
    n ← polstr2num pol;
    p ← getitem (_polnum_indices hd) n;
    index_blt_pol data_array sl p.

  (** [_get_slice] on a baseline-polarization key [(i, j, pol)].  (On a
      polarization string or an antenna pair the method calls itself on each
      such key.) *)
Definition _get_slice (hd : HERAData)
      (data_array : list (list (list (list complex))))
      (key : Z * Z * string) : result (waterfall complex) :=
    match get_slice_try hd data_array key with
    | Raise KeyError =>
        let '(i, j, pol) := key in
        sl ← getitem (_blt_slices hd) (j, i);
        cp ← conj_pol polstr2num pol;
        n ← polstr2num cp;
        p ← getitem (_polnum_indices hd) n;
        w ← index_blt_pol data_array sl p;
        OK (wf_map Cconj w)
    | r => r
    end.
End GetSlice.

(** C2.  When the antenna pair (i,j) is stored and (j,i) is not, and the
    lookup of (i,j,pol) returns a waterfall, the lookup of the reversed key
    (j,i,conj_pol(pol)) returns its complex conjugate.  The polarization table
    is pyuvdata's, with the property that the reversal of a string that is not
    Stokes is not Stokes either. *)
Theorem get_slice_conj_symmetry (polstr2num : string → result Z)
    (Hrev : ∀ s n, polstr2num s = OK n → n ≤ 0 →
            ∃ m, polstr2num (String.rev s) = OK m ∧ m ≤ 0)
    (hd : HERAData) (data_array : list (list (list (list complex))))
    (i j : Z) (pol : string) (w : waterfall complex) :
  _blt_slices hd !! (j, i) = None →
  _get_slice polstr2num hd data_array (i, j, pol) = OK w →
  ∃ cp, conj_pol polstr2num pol = OK cp
        ∧ _get_slice polstr2num hd data_array (j, i, cp) = OK (wf_map Cconj w).
Proof.
  intros Hji Hfwd.
  assert (Htry : get_slice_try polstr2num hd data_array (i, j, pol) = OK w).
  { unfold _get_slice in Hfwd.
    destruct (get_slice_try polstr2num hd data_array (i, j, pol)) as [w'|e];
      [exact Hfwd|].
    destruct e; try discriminate.
    unfold getitem in Hfwd. rewrite Hji in Hfwd. discriminate. }
  unfold get_slice_try in Htry.
  apply bind_OK in Htry as (sl & Hsl & Htry).
  apply bind_OK in Htry as (n & Hn & Htry).
  apply bind_OK in Htry as (p & Hp & Hw).
  assert (Hcc : ∃ cp, conj_pol polstr2num pol = OK cp
                      ∧ conj_pol polstr2num cp = OK pol).
  { unfold conj_pol at 1. rewrite Hn. simpl. case_bool_decide as Hpos.
    - eexists. split; [reflexivity|].
      unfold conj_pol. rewrite Hn. simpl. by rewrite bool_decide_eq_true_2.
    - eexists. split; [reflexivity|].
      destruct (Hrev pol n Hn ltac:(lia)) as (m & Hm & Hm0).
      unfold conj_pol. rewrite Hm. simpl.
      rewrite bool_decide_eq_false_2 by lia.
      by rewrite string_rev_involutive. }
  destruct Hcc as (cp & Hcp & Hback).
  exists cp. split; [exact Hcp|].
  assert (Hji' : getitem (_blt_slices hd) (j, i) = Raise KeyError)
    by (unfold getitem; by rewrite Hji).
  unfold _get_slice, get_slice_try. rewrite Hji'. simpl. rewrite Hsl. simpl.
  rewrite Hback. simpl. rewrite Hn. simpl.
  rewrite Hp. simpl. rewrite Hw. reflexivity.
Qed.

Definition example_hd : HERAData :=
  {| _blt_slices := {[ (0, 1) := Slice 0 1 1 ]};
     _polnum_indices := {[ -7 := 0%nat; -8 := 1%nat ]} |}.

Definition example_data_array : list (list (list (list complex))) :=
  [[[[ (1%R, 2%R); (3%R, 4%R) ]]]].

Lemma get_slice_conj_symmetry_witness :
  _get_slice Pyuvdata.polstr2num example_hd example_data_array (1, 0, "yx"%string)
  = OK [[ Cconj (1%R, 2%R) ]].
Proof.
  destruct (get_slice_conj_symmetry Pyuvdata.polstr2num Pyuvdata.polstr2num_rev
              example_hd example_data_array 0 1 "xy"%string
              [[ (1%R, 2%R) ]] eq_refl eq_refl) as (cp & Hcp & Hrev).
  injection Hcp as <-. exact Hrev.
Defined.

(** ** utils.py: [synthesize_ant_flags] *)

(** [np.isclose(a, b)] with numpy's default tolerances:
    [absolute(a - b) <= atol + rtol * absolute(b)], [rtol=1e-05], [atol=1e-08]. *)
Definition isclose (a b : Q) : bool :=
  Qle_bool (Qabs (a - b)) ((1 # 100000000) + (1 # 100000) * Qabs b)%Q.

(** The float [1e-10]. *)
Abbreviation tiny := (1 # 10000000000)%Q.

(** [x > t] on floats *)
Definition Qgtb (x t : Q) : bool := negb (Qle_bool x t).

(** [b.astype(np.float)] on a boolean *)
Definition bool_to_Q (b : bool) : Q := if b then 1%Q else 0%Q.

(** The threshold the comparisons use: lines 706-707,
    [if np.isclose(threshold, 1.0): threshold = threshold - 1e-10]. *)
Definition effective_threshold (threshold : Q) : Q :=
  if isclose threshold 1 then (threshold - tiny)%Q else threshold.

Section SynthesizeAntFlags.
Variable polstr2num : string → result Z.
Variable jstr2num : string → result Z.
Variable jnum2str : Z → result string.

Abbreviation split_pol := (split_pol polstr2num jstr2num jnum2str).

  (** The antenna-polarization keys of a visibility key:
      [(i, split_pol(pol)[0])] and [(j, split_pol(pol)[1])]. *)
Definition antpols_of_key (key : Z * Z * string)
    : result ((Z * string) * (Z * string)) :=
    let '(i, j, pol) := key in
    sp0 ← split_pol pol;
    sp1 ← split_pol pol;
    OK ((i, sp0.1), (j, sp1.2)).

  (** Line 713: the set of antenna-polarization keys, built by adding the two
      keys of every visibility. *)
Definition antpols_of (flags : list ((Z * Z * string) * waterfall bool))
    : result (gset (Z * string)) :=
    foldM (fun acc item =>
             '(ap1, ap2) ← antpols_of_key item.1;
             OK (set_add ap1 (set_add ap2 acc)))
          ∅ flags.

  (** Lines 716-720: antennas all of whose visibilities are completely flagged. *)
Definition excluded_step (is_excluded : gmap (Z * string) bool)
      (item : (Z * Z * string) * waterfall bool)
    : result (gmap (Z * string) bool) :=
    if negb (wf_all item.2) then
      '(ap1, ap2) ← antpols_of_key item.1;
      OK (<[ap2 := false]> (<[ap1 := false]> is_excluded))
    else OK is_excluded.

Definition excluded_of (antpols : gset (Z * string))
      (flags : list ((Z * Z * string) * waterfall bool))
    : result (gmap (Z * string) bool) :=
    foldM excluded_step (gset_to_gmap true antpols) flags.

  (** Lines 725-738: per antenna, the number of visibilities counted and, per
      pixel, the number of those that are flagged. *)
Definition count_step (is_excluded : gmap (Z * string) bool)
      (acc : gmap (Z * string) Z * gmap (Z * string) (waterfall Q))
      (item : (Z * Z * string) * waterfall bool)
    : result (gmap (Z * string) Z * gmap (Z * string) (waterfall Q)) :=
    let '(ant_Nvis, ant_Nflag) := acc in
    '(ap1, ap2) ← antpols_of_key item.1;
    e1 ← getitem is_excluded ap1;
    e2 ← (if negb e1 then getitem is_excluded ap2 else OK true);
    if negb e1 && negb e2 then
      n1 ← getitem ant_Nvis ap1;
      let ant_Nvis := <[ap1 := n1 + 1]> ant_Nvis in
      n2 ← getitem ant_Nvis ap2;
      let ant_Nvis := <[ap2 := n2 + 1]> ant_Nvis in
      f1 ← getitem ant_Nflag ap1;
      let ant_Nflag := <[ap1 := wf_zip Qplus f1 (wf_map bool_to_Q item.2)]> ant_Nflag in
      f2 ← getitem ant_Nflag ap2;
      let ant_Nflag := <[ap2 := wf_zip Qplus f2 (wf_map bool_to_Q item.2)]> ant_Nflag in
      OK (ant_Nvis, ant_Nflag)
    else OK acc.

Definition count_vis (antpols : gset (Z * string)) (shape0 : waterfall bool)
      (is_excluded : gmap (Z * string) bool)
      (flags : list ((Z * Z * string) * waterfall bool))
    : result (gmap (Z * string) Z * gmap (Z * string) (waterfall Q)) :=
    foldM (count_step is_excluded)
          (gset_to_gmap 0 antpols, gset_to_gmap (wf_full 0%Q shape0) antpols)
          flags.

  (** Lines 743-752: the flag waterfall of one antenna-polarization. *)
Definition ant_flags_of (shape0 : waterfall bool)
      (is_excluded : gmap (Z * string) bool)
      (ant_Nvis : gmap (Z * string) Z)
      (ant_Nflag : gmap (Z * string) (waterfall Q))
      (threshold : Q) (ap : Z * string) : result (waterfall bool) :=
    e ← getitem is_excluded ap;
    if (e : bool) then OK (wf_full true shape0)
    else
      n ← getitem ant_Nvis ap;
      let nvis : Q := if bool_decide (n = 0) then tiny else inject_Z n in
      nflag ← getitem ant_Nflag ap;
      OK (wf_map (fun x => Qgtb (x / nvis) threshold) nflag).

  (** Lines 740-754: the loop that builds [ant_flags]. *)
Definition make_ant_flags (antpols : gset (Z * string)) (shape0 : waterfall bool)
      (is_excluded : gmap (Z * string) bool)
      (ant_Nvis : gmap (Z * string) Z)
      (ant_Nflag : gmap (Z * string) (waterfall Q))
      (threshold : Q) : result (gmap (Z * string) (waterfall bool)) :=
    foldM (fun ant_flags ap =>
             w ← ant_flags_of shape0 is_excluded ant_Nvis ant_Nflag threshold ap;
             OK (<[ap := w]> ant_flags))
          ∅ (elements antpols).

  (** Everything [synthesize_ant_flags] computes before its last loop; none
      of it reads the threshold. *)
Definition analyse (flags : list ((Z * Z * string) * waterfall bool))
    : result (gset (Z * string) * waterfall bool * gmap (Z * string) bool
              * gmap (Z * string) Z * gmap (Z * string) (waterfall Q)) :=
    item0 ← first flags;
    let shape0 := item0.2 in
    antpols ← antpols_of flags;
    is_excluded ← excluded_of antpols flags;
    '(ant_Nvis, ant_Nflag) ← count_vis antpols shape0 is_excluded flags;
    OK (antpols, shape0, is_excluded, ant_Nvis, ant_Nflag).

  (** [synthesize_ant_flags(flags, threshold)]; [flags] is the list of items
      of the DataContainer. *)
Definition synthesize_ant_flags
      (flags : list ((Z * Z * string) * waterfall bool)) (threshold : Q)
    : result (gmap (Z * string) (waterfall bool)) :=
    if negb (Qle_bool 0 threshold && Qle_bool threshold 1) then Raise AssertionError
    else
      let threshold := effective_threshold threshold in
      '(antpols, shape0, is_excluded, ant_Nvis, ant_Nflag) ← analyse flags;
      make_ant_flags antpols shape0 is_excluded ant_Nvis ant_Nflag threshold.
End SynthesizeAntFlags.

(** A pixel of an antenna-polarization is flagged in the output. *)
Definition flagged (ant_flags : gmap (Z * string) (waterfall bool))
    (ap : Z * string) (t f : nat) : Prop :=
  ∃ w, ant_flags !! ap = Some w ∧ wf_get w t f = Some true.

Lemma Qgtb_true (x t : Q) : Qgtb x t = true ↔ (t < x)%Q.
Proof.
  unfold Qgtb. rewrite negb_true_iff. split.
  - intros H. apply Qnot_le_lt. intros Hle.
    apply Qle_bool_iff in Hle. congruence.
  - intros H. destruct (Qle_bool x t) eqn:E; [|done].
    apply Qle_bool_iff in E. exfalso. apply (Qlt_not_le _ _ H E).
Qed.

Lemma Qgtb_false (x t : Q) : Qgtb x t = false ↔ (x <= t)%Q.
Proof.
  unfold Qgtb. rewrite negb_false_iff. apply Qle_bool_iff.
Qed.

Lemma Qgtb_mono (x t1 t2 : Q) : (t1 <= t2)%Q → Qgtb x t2 = true → Qgtb x t1 = true.
Proof.
  rewrite !Qgtb_true. intros H12 H2. eapply Qle_lt_trans; eassumption.
Qed.

(** The effective threshold is monotone, except across the lower edge of
    the [np.isclose] window around 1.0. *)
Lemma effective_threshold_mono (t1 t2 : Q) :
  (t1 <= t2)%Q →
  (isclose t2 1 = true → isclose t1 1 = false → (t1 <= t2 - tiny)%Q) →
  (effective_threshold t1 <= effective_threshold t2)%Q.
Proof.
  intros H12 Hgap. unfold effective_threshold.
  destruct (isclose t1 1) eqn:E1, (isclose t2 1) eqn:E2.
  - lra.
  - lra.
  - by apply Hgap.
  - exact H12.
Qed.

Section SynthesizeAntFlagsLoop.
Variables (shape0 : waterfall bool) (is_excluded : gmap (Z * string) bool)
            (ant_Nvis : gmap (Z * string) Z)
            (ant_Nflag : gmap (Z * string) (waterfall Q)).

Abbreviation flags_of := (ant_flags_of shape0 is_excluded ant_Nvis ant_Nflag).
Abbreviation loop thr :=
    (foldM (fun ant_flags ap => w ← flags_of thr ap; OK (<[ap := w]> ant_flags))).

  (** What the loop leaves in the dictionary. *)
Lemma make_ant_flags_loop_lookup (thr : Q) (l : list (Z * string))
      (acc r : gmap (Z * string) (waterfall bool)) :
    loop thr acc l = OK r →
    (∀ ap, ap ∈ l → ∃ w, flags_of thr ap = OK w ∧ r !! ap = Some w)
    ∧ (∀ ap, ap ∉ l → r !! ap = acc !! ap).
  Proof.
    revert acc. induction l as [|x l IH]; intros acc Hr; simpl in Hr.
    - injection Hr as <-. split; [intros ap Hap; by apply elem_of_nil in Hap | done].
    - apply bind_OK in Hr as (acc' & Hstep & Hr).
      apply bind_OK in Hstep as (w & Hw & [= <-]).
      destruct (IH _ Hr) as [IHin IHout]. split.
      + intros ap Hap. destruct (decide (ap ∈ l)) as [Hl|Hl]; [by apply IHin|].
        apply elem_of_cons in Hap as [->|Hap]; [|done].
        exists w. split; [done|]. rewrite (IHout _ Hl). apply lookup_insert_eq.
      + intros ap Hap. apply not_elem_of_cons in Hap as [Hne Hl].
        rewrite (IHout _ Hl). by apply lookup_insert_ne.
  Qed.

  (** The loop raises only if the computation for one key does. *)
Lemma make_ant_flags_loop_total (thr : Q) (l : list (Z * string))
      (acc : gmap (Z * string) (waterfall bool)) :
    (∀ ap, ap ∈ l → ∃ w, flags_of thr ap = OK w) →
    ∃ r, loop thr acc l = OK r.
  Proof.
    revert acc. induction l as [|x l IH]; intros acc Hall; simpl.
    - by eexists.
    - destruct (Hall x) as [w Hw]; [by left|]. rewrite Hw. simpl.
      apply IH. intros ap Hap. apply Hall. by right.
  Qed.

  (** Whether the computation for a key raises does not depend on the threshold. *)
Lemma ant_flags_of_threshold (thr1 thr2 : Q) (ap : Z * string) w2 :
    flags_of thr2 ap = OK w2 → ∃ w1, flags_of thr1 ap = OK w1.
  Proof.
    unfold ant_flags_of. intros H.
    apply bind_OK in H as (e & He & H). rewrite He. simpl.
    destruct e; [by eexists|].
    apply bind_OK in H as (n & Hn & H). rewrite Hn. simpl.
    apply bind_OK in H as (nf & Hnf & H). rewrite Hnf. simpl. by eexists.
  Qed.

  (** A lower threshold flags at least the same pixels of a key. *)
Lemma ant_flags_of_mono (thr1 thr2 : Q) (ap : Z * string) w1 w2 (t f : nat) :
    (thr1 <= thr2)%Q →
    flags_of thr1 ap = OK w1 → flags_of thr2 ap = OK w2 →
    wf_get w2 t f = Some true → wf_get w1 t f = Some true.
  Proof.
    unfold ant_flags_of. intros Hle H1 H2.
    apply bind_OK in H1 as (e & He & H1). rewrite He in H2. simpl in H2.
    destruct e.
    - injection H1 as <-. by injection H2 as <-.
    - apply bind_OK in H1 as (n & Hn & H1). rewrite Hn in H2. simpl in H2.
      apply bind_OK in H1 as (nf & Hnf & [= <-]). rewrite Hnf in H2. simpl in H2.
      injection H2 as <-. rewrite !wf_get_map.
      destruct (wf_get nf t f) as [x|]; simpl; [|done].
      intros [= Hx]. f_equal. eapply Qgtb_mono; eassumption.
  Qed.
End SynthesizeAntFlagsLoop.

Section SynthesizeAntFlagsThreshold.
Variable polstr2num : string → result Z.
Variable jstr2num : string → result Z.
Variable jnum2str : Z → result string.

Abbreviation synth := (synthesize_ant_flags polstr2num jstr2num jnum2str).
Abbreviation analyse' := (analyse polstr2num jstr2num jnum2str).

Lemma threshold_assertion (t : Q) :
    negb (Qle_bool 0 t && Qle_bool t 1) = false ↔ (0 <= t)%Q ∧ (t <= 1)%Q.
  Proof.
    rewrite negb_false_iff, andb_true_iff, !Qle_bool_iff. done.
  Qed.

  (** With a threshold in [0,1] the assertion passes. *)
Lemma synthesize_ant_flags_accepts flags (t : Q) :
    (0 <= t)%Q → (t <= 1)%Q →
    synth flags t =
      ('(antpols, shape0, is_excluded, ant_Nvis, ant_Nflag) ← analyse' flags;
       make_ant_flags antpols shape0 is_excluded ant_Nvis ant_Nflag
                      (effective_threshold t)).
  Proof.
    intros H0 H1. unfold synthesize_ant_flags.
    by rewrite (proj2 (threshold_assertion t) (conj H0 H1)).
  Qed.

  (** With a threshold outside [0,1] it fails. *)
Lemma synthesize_ant_flags_rejects flags (t : Q) :
    ¬ ((0 <= t)%Q ∧ (t <= 1)%Q) → synth flags t = Raise AssertionError.
  Proof.
    intros Hn. unfold synthesize_ant_flags.
    destruct (negb (Qle_bool 0 t && Qle_bool t 1)) eqn:E; [done|].
    apply threshold_assertion in E. done.
  Qed.

  (** A returned dictionary comes from an analysis and the last loop. *)
Lemma synthesize_ant_flags_OK flags (t : Q) r :
    synth flags t = OK r →
    (0 <= t)%Q ∧ (t <= 1)%Q
    ∧ ∃ antpols shape0 is_excluded ant_Nvis ant_Nflag,
        analyse' flags = OK (antpols, shape0, is_excluded, ant_Nvis, ant_Nflag)
        ∧ make_ant_flags antpols shape0 is_excluded ant_Nvis ant_Nflag
            (effective_threshold t) = OK r.
  Proof.
    intros H. unfold synthesize_ant_flags in H.
    destruct (negb (Qle_bool 0 t && Qle_bool t 1)) eqn:E; [done|].
    apply threshold_assertion in E as [H0 H1]. split; [done|]. split; [done|].
    apply bind_OK in H as ([[[[X s0] ex] nv] nf] & Ha & Hm).
    by exists X, s0, ex, nv, nf.
  Qed.
End SynthesizeAntFlagsThreshold.

(** C6 (as amended).  Raising the threshold from t1 to t2, both in [0,1],
    never flags a new antenna pixel, provided the two thresholds are not
    separated by the lower edge of the [np.isclose] window around 1.0: either
    [np.isclose] treats both alike, or t1 <= t2 - 1e-10.  The run at t1 returns
    whenever the run at t2 does. *)
Theorem synthesize_ant_flags_monotone
    (polstr2num jstr2num : string → result Z) (jnum2str : Z → result string)
    (flags : list ((Z * Z * string) * waterfall bool)) (t1 t2 : Q)
    (r2 : gmap (Z * string) (waterfall bool)) :
  (0 <= t1)%Q → (t1 <= t2)%Q → (t2 <= 1)%Q →
  (isclose t2 1 = true → isclose t1 1 = false → (t1 <= t2 - tiny)%Q) →
  synthesize_ant_flags polstr2num jstr2num jnum2str flags t2 = OK r2 →
  ∃ r1, synthesize_ant_flags polstr2num jstr2num jnum2str flags t1 = OK r1
        ∧ ∀ ap t f, flagged r2 ap t f → flagged r1 ap t f.
Proof.
  intros H0 H12 H1 Hgap H2.
  pose proof (effective_threshold_mono t1 t2 H12 Hgap) as Heff.
  apply synthesize_ant_flags_OK in H2
    as (_ & _ & X & s0 & ex & nv & nf & Ha & Hm2).
  rewrite synthesize_ant_flags_accepts by lra. rewrite Ha. simpl.
  unfold make_ant_flags in *.
  destruct (make_ant_flags_loop_lookup _ _ _ _ _ _ _ _ Hm2) as [Hin2 Hout2].
  destruct (make_ant_flags_loop_total s0 ex nv nf (effective_threshold t1)
              (elements X) ∅) as [r1 Hm1].
  { intros ap Hap. destruct (Hin2 ap Hap) as (w2 & Hw2 & _).
    eapply ant_flags_of_threshold, Hw2. }
  exists r1. split; [exact Hm1|].
  destruct (make_ant_flags_loop_lookup _ _ _ _ _ _ _ _ Hm1) as [Hin1 _].
  intros ap t f (w2 & Hr2 & Hpix).
  destruct (decide (ap ∈ elements X)) as [Hap|Hap].
  - destruct (Hin2 ap Hap) as (w2' & Hw2 & Hr2').
    destruct (Hin1 ap Hap) as (w1 & Hw1 & Hr1).
    exists w1. split; [exact Hr1|].
    assert (w2' = w2) as -> by congruence.
    eapply ant_flags_of_mono; eassumption.
  - rewrite (Hout2 ap Hap), lookup_empty in Hr2. done.
Qed.

(** *** What the analysis computes *)

(** Two updates in a row of a dictionary, at keys [a] then [b]:
    [d[a] = f(d[a]); d[b] = f(d[b])]. *)
Definition bump {A} (f : A → A) (ap a b : Z * string) (x : A) : A :=
  let x1 := if decide (ap = a) then f x else x in
  if decide (ap = b) then f x1 else x1.

Lemma two_updates {A} (f : A → A) (m : gmap (Z * string) A) (a b : Z * string) :
  is_Some (m !! a) → is_Some (m !! b) →
  ∃ x y, m !! a = Some x ∧ <[a := f x]> m !! b = Some y
         ∧ ∀ ap, <[b := f y]> (<[a := f x]> m) !! ap = bump f ap a b <$> m !! ap.
Proof.
  intros [x Hx] [z Hz]. exists x.
  destruct (decide (a = b)) as [<-|Hab].
  - exists (f x). split; [done|]. split; [apply lookup_insert_eq|].
    intros ap. unfold bump. destruct (decide (ap = a)) as [->|Hne].
    + rewrite lookup_insert_eq, Hx. done.
    + rewrite !lookup_insert_ne by done. by destruct (m !! ap).
  - exists z. split; [done|]. split; [by rewrite lookup_insert_ne|].
    intros ap. unfold bump.
    destruct (decide (ap = b)) as [->|Hb].
    + rewrite lookup_insert_eq, Hz. simpl.
      by rewrite decide_False by done.
    + rewrite lookup_insert_ne by done.
      destruct (decide (ap = a)) as [->|Ha].
      * by rewrite lookup_insert_eq, Hx.
      * rewrite lookup_insert_ne by done. by destruct (m !! ap).
Qed.

Section SynthesizeAntFlagsAnalysis.
Variable polstr2num : string → result Z.
Variable jstr2num : string → result Z.
Variable jnum2str : Z → result string.

Abbreviation ends := (antpols_of_key polstr2num jstr2num jnum2str).
Abbreviation item := ((Z * Z * string) * waterfall bool)%type.

  (** [ap] is one of the two antenna-polarizations of a visibility. *)
Definition touches (ap : Z * string) (it : item) : Prop :=
    ∃ a b, ends it.1 = OK (a, b) ∧ (ap = a ∨ ap = b).

  (** The visibility is not completely flagged. *)
Definition alive (it : item) : Prop := wf_all it.2 = false.

#[local] Instance touches_dec ap it : Decision (touches ap it).
  Proof.
    unfold touches. destruct (ends it.1) as [[a b]|e].
    - destruct (decide (ap = a ∨ ap = b)) as [Hap|Hap].
      + left. by exists a, b.
      + right. intros (a' & b' & [= <- <-] & ?). done.
    - right. intros (a' & b' & [=] & _).
  Defined.

#[local] Instance alive_dec it : Decision (alive it).
  Proof. unfold alive. apply _. Defined.

  (** Every key has a polarization that [split_pol] splits. *)
Definition keys_ok (flags : list item) : Prop :=
    Forall (fun it => ∃ a b, ends it.1 = OK (a, b)) flags.

Abbreviation antpols_loop :=
    (foldM (fun (acc : gset (Z * string)) (it : item) =>
              '(ap1, ap2) ← ends it.1; OK (set_add ap1 (set_add ap2 acc)))).

Lemma antpols_loop_spec (flags : list item) (acc X : gset (Z * string)) :
    antpols_loop acc flags = OK X →
    keys_ok flags ∧ ∀ ap, ap ∈ X ↔ ap ∈ acc ∨ Exists (touches ap) flags.
  Proof.
    revert acc. induction flags as [|it flags IH]; intros acc H; simpl in H.
    - injection H as <-. split; [constructor|].
      intros ap. rewrite Exists_nil. tauto.
    - apply bind_OK in H as (acc' & Hstep & H).
      apply bind_OK in Hstep as ([a b] & Hab & [= <-]).
      destruct (IH _ H) as [Hok Hin]. split.
      + constructor; [by exists a, b | done].
      + intros ap. rewrite Hin, Exists_cons, !set_add_union.
        rewrite !elem_of_union, !elem_of_singleton. unfold touches at 1.
        split.
        * intros [[->|[->|?]]|?]; [right; left; exists a, b; tauto
                                 |right; left; exists a, b; tauto|tauto|tauto].
        * intros [?|[(a' & b' & Hab' & Hap)|?]]; [tauto| |tauto].
          rewrite Hab in Hab'. injection Hab' as <- <-. tauto.
  Qed.

Lemma antpols_loop_total (flags : list item) (acc : gset (Z * string)) :
    keys_ok flags → ∃ X, antpols_loop acc flags = OK X.
  Proof.
    revert acc. induction flags as [|it flags IH]; intros acc Hok; simpl.
    - by eexists.
    - apply Forall_cons in Hok as [(a & b & Hab) Hok].
      rewrite Hab. simpl. by apply IH.
  Qed.

Abbreviation excluded_loop :=
    (foldM (excluded_step polstr2num jstr2num jnum2str)).

Lemma excluded_step_dead (m : gmap (Z * string) bool) (it : item) :
    wf_all it.2 = true → excluded_step polstr2num jstr2num jnum2str m it = OK m.
  Proof. intros H. unfold excluded_step. by rewrite H. Qed.

Lemma excluded_step_alive (m : gmap (Z * string) bool) (it : item) a b :
    wf_all it.2 = false → ends it.1 = OK (a, b) →
    excluded_step polstr2num jstr2num jnum2str m it
    = OK (<[b := false]> (<[a := false]> m)).
  Proof. intros H Hab. unfold excluded_step. by rewrite H, Hab. Qed.

Lemma excluded_loop_spec (flags : list item) (m : gmap (Z * string) bool) :
    keys_ok flags →
    ∃ m', excluded_loop m flags = OK m'
      ∧ ∀ ap, (Exists (fun it => alive it ∧ touches ap it) flags → m' !! ap = Some false)
              ∧ (¬ Exists (fun it => alive it ∧ touches ap it) flags → m' !! ap = m !! ap).
  Proof.
    revert m. induction flags as [|it flags IH]; intros m Hok.
    - exists m. split; [done|]. intros ap. rewrite Exists_nil. tauto.
    - apply Forall_cons in Hok as [(a & b & Hab) Hok].
      rewrite foldM_cons.
      destruct (wf_all it.2) eqn:Hall.
      + rewrite excluded_step_dead by done.
        destruct (IH m Hok) as (m' & Hm' & Hspec). exists m'. split; [done|].
        intros ap. rewrite Exists_cons. destruct (Hspec ap) as [H1 H2].
        unfold alive at 1 3. rewrite Hall. split.
        * intros [[? _]|?]; [done | by apply H1].
        * intros Hn. apply H2. tauto.
      + rewrite (excluded_step_alive m it a b) by done.
        destruct (IH (<[b := false]> (<[a := false]> m)) Hok) as (m' & Hm' & Hspec).
        exists m'. split; [done|].
        intros ap. rewrite Exists_cons. destruct (Hspec ap) as [H1 H2].
        destruct (decide (Exists (fun it => alive it ∧ touches ap it) flags))
          as [Hex|Hex].
        { split; [intros _; by apply H1 | tauto]. }
        rewrite (H2 Hex). split.
        * intros [[_ (a' & b' & Hab' & Hap)]|?]; [|done].
          rewrite Hab in Hab'. injection Hab' as <- <-.
          destruct (decide (ap = b)) as [->|Hb]; [apply lookup_insert_eq|].
          rewrite lookup_insert_ne by done.
          destruct Hap as [->| ->]; [apply lookup_insert_eq | done].
        * intros Hn.
          assert (ap ≠ a ∧ ap ≠ b) as [Ha Hb].
          { split; intros ->; apply Hn; left; (split; [done|]);
              exists a, b; tauto. }
          by rewrite !lookup_insert_ne.
  Qed.

  (** A visibility is counted when neither of its antennas is excluded. *)
Definition counted (ex : gmap (Z * string) bool) (a b : Z * string) : bool :=
    match ex !! a, ex !! b with
    | Some false, Some false => true
    | _, _ => false
    end.

  (** What one visibility does to the entry of [ap] in a dictionary of counts:
      [f] once for each of its two antenna-polarizations that is [ap]. *)
Definition apply_item {A : Type} (ex : gmap (Z * string) bool) (f : item → A → A)
      (ap : Z * string) (x : A) (it : item) : A :=
    match ends it.1 with
    | OK (a, b) => if counted ex a b then bump (f it) ap a b x else x
    | Raise _ => x
    end.

Definition add_one (it : item) (n : Z) : Z := n + 1.
Definition add_flags (it : item) (w : waterfall Q) : waterfall Q :=
    wf_zip Qplus w (wf_map bool_to_Q it.2).

Abbreviation count_step' := (count_step polstr2num jstr2num jnum2str).

  (** The entries of both antennas are present in all three dictionaries. *)
Definition present (ex : gmap (Z * string) bool) (nv : gmap (Z * string) Z)
      (nf : gmap (Z * string) (waterfall Q)) (it : item) : Prop :=
    ∃ a b, ends it.1 = OK (a, b)
           ∧ is_Some (ex !! a) ∧ is_Some (ex !! b)
           ∧ is_Some (nv !! a) ∧ is_Some (nv !! b)
           ∧ is_Some (nf !! a) ∧ is_Some (nf !! b).

Lemma count_step_spec (ex : gmap (Z * string) bool) (nv : gmap (Z * string) Z)
      (nf : gmap (Z * string) (waterfall Q)) (it : item) :
    present ex nv nf it →
    ∃ nv' nf', count_step' ex (nv, nf) it = OK (nv', nf')
      ∧ ∀ ap, nv' !! ap = (fun n => apply_item ex add_one ap n it) <$> nv !! ap
              ∧ nf' !! ap = (fun w => apply_item ex add_flags ap w it) <$> nf !! ap.
  Proof.
    intros (a & b & Hab & [e1 He1] & [e2 He2] & Hva & Hvb & Hfa & Hfb).
    unfold count_step, apply_item, counted, getitem. rewrite Hab. simpl.
    rewrite He1. simpl.
    assert (Hid : ∀ {A} (o : option A), o = (fun x => x) <$> o)
      by (intros A []; done).
    destruct e1; simpl.
    { exists nv, nf. split; [done|]. intros ap. split; apply Hid. }
    rewrite He2. simpl. destruct e2; simpl.
    { exists nv, nf. split; [done|]. intros ap. split; apply Hid. }
    destruct (two_updates (add_one it) nv a b Hva Hvb) as (n1 & n2 & Hn1 & Hn2 & Hnv).
    destruct (two_updates (add_flags it) nf a b Hfa Hfb) as (f1 & f2 & Hf1 & Hf2 & Hnf).
    unfold add_one in Hn2, Hnv at 1. unfold add_flags in Hf2, Hnf at 1.
    rewrite Hn1. simpl. rewrite Hn2. simpl. rewrite Hf1. simpl. rewrite Hf2. simpl.
    eexists _, _. split; [reflexivity|]. intros ap. split; [apply Hnv | apply Hnf].
  Qed.

Lemma count_loop_spec (ex : gmap (Z * string) bool) (flags : list item)
      (nv : gmap (Z * string) Z) (nf : gmap (Z * string) (waterfall Q)) :
    Forall (present ex nv nf) flags →
    ∃ nv' nf', foldM (count_step' ex) (nv, nf) flags = OK (nv', nf')
      ∧ ∀ ap, nv' !! ap = (fun n => fold_left (apply_item ex add_one ap) flags n) <$> nv !! ap
              ∧ nf' !! ap = (fun w => fold_left (apply_item ex add_flags ap) flags w) <$> nf !! ap.
  Proof.
    revert nv nf. induction flags as [|it flags IH]; intros nv nf Hall.
    - exists nv, nf. split; [done|]. intros ap. simpl.
      split; [by destruct (nv !! ap) | by destruct (nf !! ap)].
    - apply Forall_cons in Hall as [Hit Hall].
      destruct (count_step_spec ex nv nf it Hit) as (nv1 & nf1 & Hstep & H1).
      rewrite foldM_cons, Hstep. simpl.
      destruct (IH nv1 nf1) as (nv' & nf' & Hloop & H').
      { eapply Forall_impl; [exact Hall|].
        intros it' (a & b & Hab & Hea & Heb & Hva & Hvb & Hfa & Hfb).
        exists a, b. repeat split; try done.
        - destruct (H1 a) as [-> _]. by apply fmap_is_Some.
        - destruct (H1 b) as [-> _]. by apply fmap_is_Some.
        - destruct (H1 a) as [_ ->]. by apply fmap_is_Some.
        - destruct (H1 b) as [_ ->]. by apply fmap_is_Some. }
      exists nv', nf'. split; [done|]. intros ap.
      destruct (H' ap) as [-> ->]. destruct (H1 ap) as [-> ->]. simpl.
      split; [by destruct (nv !! ap) | by destruct (nf !! ap)].
  Qed.

Abbreviation analyse'' := (analyse polstr2num jstr2num jnum2str).

  (** The analysis returns on every non-empty container whose keys split, and
      this is what it returns. *)
Theorem analyse_spec (flags : list item) (it0 : item) :
    first flags = OK it0 → keys_ok flags →
    ∃ X ex nv nf,
      analyse'' flags = OK (X, it0.2, ex, nv, nf)
      ∧ (∀ ap, ap ∈ X ↔ Exists (touches ap) flags)
      ∧ (∀ ap, ap ∈ X →
           ex !! ap = Some (bool_decide
                              (¬ Exists (fun it => alive it ∧ touches ap it) flags)))
      ∧ (∀ ap, ap ∉ X → ex !! ap = None)
      ∧ (∀ ap, ap ∈ X →
           nv !! ap = Some (fold_left (apply_item ex add_one ap) flags 0))
      ∧ (∀ ap, ap ∈ X →
           nf !! ap = Some (fold_left (apply_item ex add_flags ap) flags
                              (wf_full 0%Q it0.2))).
  Proof.
    intros Hfirst Hok.
    destruct (antpols_loop_total flags ∅ Hok) as [X HX].
    destruct (antpols_loop_spec flags ∅ X HX) as [_ HinX].
    assert (HX' : ∀ ap, ap ∈ X ↔ Exists (touches ap) flags).
    { intros ap. rewrite HinX. split; [intros [H|H]; [|done] | by right].
      by apply not_elem_of_empty in H. }
    destruct (excluded_loop_spec flags (gset_to_gmap true X) Hok) as (ex & Hex & Hexs).
    assert (Hex' : ∀ ap, ap ∈ X →
              ex !! ap = Some (bool_decide
                 (¬ Exists (fun it => alive it ∧ touches ap it) flags))).
    { intros ap Hap. destruct (Hexs ap) as [H1 H2].
      case_bool_decide as Hd.
      - rewrite (H2 Hd). by apply lookup_gset_to_gmap_Some.
      - by apply H1. }
    destruct (count_loop_spec ex flags (gset_to_gmap 0 X)
                (gset_to_gmap (wf_full 0%Q it0.2) X)) as (nv & nf & Hcount & Hcs).
    { apply Forall_forall. intros it Hit.
      pose proof (proj1 (Forall_forall _ _) Hok it Hit) as (a & b & Hab).
      assert (a ∈ X ∧ b ∈ X) as [Ha Hb].
      { split; apply HX', Exists_exists; exists it;
          (split; [done|]); exists a, b; tauto. }
      exists a, b. split; [done|].
      rewrite (Hex' a Ha), (Hex' b Hb).
      repeat split; try done;
        by (eexists; apply lookup_gset_to_gmap_Some). }
    exists X, ex, nv, nf. split; [|split; [done|split; [done|split; [|split]]]].
    - unfold analyse. rewrite Hfirst. simpl.
      unfold antpols_of. rewrite HX. simpl.
      unfold excluded_of. rewrite Hex. simpl.
      unfold count_vis. rewrite Hcount. reflexivity.
    - intros ap Hap. destruct (Hexs ap) as [_ H2]. rewrite H2.
      + by apply lookup_gset_to_gmap_None.
      + intros HE. apply Hap, HX'. eapply Exists_impl; [exact HE|].
        intros it [_ Ht]. exact Ht.
    - intros ap Hap. destruct (Hcs ap) as [-> _].
      by rewrite (proj2 (lookup_gset_to_gmap_Some 0 X ap 0)).
    - intros ap Hap. destruct (Hcs ap) as [_ ->].
      by rewrite (proj2 (lookup_gset_to_gmap_Some (wf_full 0%Q it0.2) X ap
                           (wf_full 0%Q it0.2))).
  Qed.

  (** A returned analysis is the one of [analyse_spec]. *)
Lemma analyse_OK (flags : list item) X s0 ex nv nf :
    analyse'' flags = OK (X, s0, ex, nv, nf) →
    ∃ it0, first flags = OK it0 ∧ s0 = it0.2 ∧ keys_ok flags.
  Proof.
    intros H. unfold analyse in H.
    apply bind_OK in H as (it0 & Hfirst & H).
    apply bind_OK in H as (X' & HX & H).
    apply bind_OK in H as (ex' & Hex & H).
    apply bind_OK in H as ([nv' nf'] & Hc & H).
    injection H as <- <- <- <- <-.
    exists it0. split; [done|]. split; [done|].
    by destruct (antpols_loop_spec flags ∅ X' HX).
  Qed.

  (** An antenna-polarization that is not excluded has a counted visibility:
      the division in the last loop never meets a zero count. *)
Lemma fold_apply_item_add_one_le ex ap (flags : list item) (n : Z) :
    n ≤ fold_left (apply_item ex add_one ap) flags n.
  Proof.
    revert n. induction flags as [|it flags IH]; intros n; simpl; [lia|].
    etrans; [|apply IH].
    unfold apply_item, bump, add_one.
    destruct (ends it.1) as [[a b]|]; [|lia].
    destruct (counted ex a b); [|lia].
    repeat case_decide; lia.
  Qed.

Lemma fold_apply_item_add_one_lt ex ap (flags : list item) (n : Z) (it : item) a b :
    it ∈ flags → ends it.1 = OK (a, b) → counted ex a b = true → ap = a ∨ ap = b →
    n + 1 ≤ fold_left (apply_item ex add_one ap) flags n.
  Proof.
    intros Hin Hab Hc Hap. revert n.
    induction flags as [|it' flags IH]; intros n; [by apply elem_of_nil in Hin|].
    simpl. apply elem_of_cons in Hin as [<-|Hin].
    - etrans; [|apply fold_apply_item_add_one_le].
      unfold apply_item, bump, add_one. rewrite Hab, Hc.
      repeat case_decide; try lia. tauto.
    - etrans; [|apply (IH Hin)].
      pose proof (fold_apply_item_add_one_le ex ap [it'] n) as Hle.
      simpl in Hle. lia.
  Qed.

Theorem not_excluded_is_counted (flags : list item) X s0 ex nv nf ap (n : Z) :
    analyse'' flags = OK (X, s0, ex, nv, nf) →
    ex !! ap = Some false → nv !! ap = Some n → 1 ≤ n.
  Proof.
    intros Ha Hex Hnv.
    destruct (analyse_OK _ _ _ _ _ _ Ha) as (it0 & Hfirst & -> & Hok).
    destruct (analyse_spec flags it0 Hfirst Hok)
      as (X' & ex' & nv' & nf' & Ha' & HX & Hexs & Hnone & Hnvs & _).
    rewrite Ha in Ha'. injection Ha' as <- <- <- <-.
    assert (HapX : ap ∈ X).
    { destruct (decide (ap ∈ X)) as [|Hn]; [done|].
      rewrite (Hnone ap Hn) in Hex. done. }
    rewrite (Hexs ap HapX) in Hex. injection Hex as Hd.
    apply bool_decide_eq_false in Hd.
    destruct (decide (Exists (fun it => alive it ∧ touches ap it) flags))
      as [HE|HE]; [|by destruct Hd].
    apply Exists_exists in HE as (it & Hit & Halive & a & b & Hab & Hap).
    assert (Hdead : ∀ c, c = a ∨ c = b → ex !! c = Some false).
    { intros c Hc.
      assert (HE' : Exists (fun it => alive it ∧ touches c it) flags).
      { apply Exists_exists. exists it. split; [done|]. split; [done|].
        by exists a, b. }
      assert (Hc' : c ∈ X).
      { apply HX. eapply Exists_impl; [exact HE'|]. intros it' [_ Ht]. exact Ht. }
      rewrite (Hexs c Hc'). f_equal. apply bool_decide_eq_false. tauto. }
    rewrite (Hnvs ap HapX) in Hnv. injection Hnv as <-.
    apply (fold_apply_item_add_one_lt ex ap flags 0 it a b); try done.
    unfold counted. by rewrite (Hdead a), (Hdead b) by tauto.
  Qed.
End SynthesizeAntFlagsAnalysis.

Lemma wf_map_ext_get {A B} (f g : A → B) (w : waterfall A) :
  (∀ t k x, wf_get w t k = Some x → f x = g x) → wf_map f w = wf_map g w.
Proof.
  intros H. unfold wf_map. apply list_fmap_ext. intros t row Hrow.
  apply list_fmap_ext. intros k x Hx. apply (H t k).
  unfold wf_get. rewrite Hrow. exact Hx.
Qed.



(** [synthesize_ant_flags] returns on every non-empty container whose keys
    split and every threshold in [0,1]; its dictionary has the keys of the
    analysis, each with the waterfall of [ant_flags_of]. *)
Theorem synthesize_ant_flags_spec
    (polstr2num jstr2num : string → result Z) (jnum2str : Z → result string)
    (flags : list ((Z * Z * string) * waterfall bool))
    (it0 : (Z * Z * string) * waterfall bool) (t : Q) :
  first flags = OK it0 → keys_ok polstr2num jstr2num jnum2str flags →
  (0 <= t)%Q → (t <= 1)%Q →
  ∃ X ex nv nf r,
    analyse polstr2num jstr2num jnum2str flags = OK (X, it0.2, ex, nv, nf)
    ∧ synthesize_ant_flags polstr2num jstr2num jnum2str flags t = OK r
    ∧ (∀ ap, ap ∈ X →
         ∃ w, ant_flags_of it0.2 ex nv nf (effective_threshold t) ap = OK w
              ∧ r !! ap = Some w)
    ∧ (∀ ap, ap ∉ X → r !! ap = None).
Proof.
  intros Hfirst Hok H0 H1.
  destruct (analyse_spec polstr2num jstr2num jnum2str flags it0 Hfirst Hok)
    as (X & ex & nv & nf & Ha & HX & Hex & _ & Hnv & Hnf).
  destruct (make_ant_flags_loop_total it0.2 ex nv nf (effective_threshold t)
              (elements X) ∅) as [r Hr].
  { intros ap Hap. apply elem_of_elements in Hap.
    unfold ant_flags_of, getitem.
    rewrite (Hex ap Hap), (Hnv ap Hap), (Hnf ap Hap). simpl.
    case_bool_decide; by eexists. }
  exists X, ex, nv, nf, r. split; [done|]. split.
  { rewrite synthesize_ant_flags_accepts by done. rewrite Ha. exact Hr. }
  destruct (make_ant_flags_loop_lookup _ _ _ _ _ _ _ _ Hr) as [Hin Hout].
  split.
  - intros ap Hap. apply Hin. by apply elem_of_elements.
  - intros ap Hap. rewrite Hout; [apply lookup_empty|].
    by rewrite elem_of_elements.
Qed.

(** C10.  A threshold outside [0,1] fails the assertion and one inside passes
    it; the threshold 1.0 is replaced by 1.0 - 1e-10; and at threshold 1.0 a
    pixel of an antenna-polarization that is not excluded, whose flagged
    fraction [ant_Nflag / ant_Nvis] is exactly 1, is flagged. *)
Theorem threshold_one_still_flags
    (polstr2num jstr2num : string → result Z) (jnum2str : Z → result string)
    (flags : list ((Z * Z * string) * waterfall bool))
    (X : gset (Z * string)) (s0 : waterfall bool) (ex : gmap (Z * string) bool)
    (nv : gmap (Z * string) Z) (nf : gmap (Z * string) (waterfall Q)) :
  analyse polstr2num jstr2num jnum2str flags = OK (X, s0, ex, nv, nf) →
  (∀ t, ¬ ((0 <= t)%Q ∧ (t <= 1)%Q) →
     synthesize_ant_flags polstr2num jstr2num jnum2str flags t = Raise AssertionError)
  ∧ (∀ t, (0 <= t)%Q → (t <= 1)%Q →
     synthesize_ant_flags polstr2num jstr2num jnum2str flags t
     = make_ant_flags X s0 ex nv nf (effective_threshold t))
  ∧ effective_threshold 1 = (1 - (1 # 10000000000))%Q
  ∧ ∃ r, synthesize_ant_flags polstr2num jstr2num jnum2str flags 1 = OK r
      ∧ ∀ ap n w t f x,
          ex !! ap = Some false → nv !! ap = Some n → nf !! ap = Some w →
          wf_get w t f = Some x → (x / inject_Z n == 1)%Q →
          flagged r ap t f.
Proof.
  intros Ha. split; [|split; [|split]].
  - intros t Ht. by apply synthesize_ant_flags_rejects.
  - intros t H0 H1. rewrite synthesize_ant_flags_accepts by done. by rewrite Ha.
  - reflexivity.
  - destruct (analyse_OK _ _ _ _ _ _ _ _ _ Ha) as (it0 & Hfirst & -> & Hok).
    destruct (synthesize_ant_flags_spec polstr2num jstr2num jnum2str flags it0 1
                Hfirst Hok) as (X' & ex' & nv' & nf' & r & Ha' & Hr & Hin & Hout);
      [done|done|].
    rewrite Ha in Ha'. injection Ha' as <- <- <- <-.
    exists r. split; [exact Hr|].
    intros ap n w t f x Hex Hnv Hnf Hx Hfrac.
    pose proof (not_excluded_is_counted _ _ _ _ _ _ _ _ _ _ _ Ha Hex Hnv) as Hn.
    assert (HapX : ap ∈ X).
    { destruct (decide (ap ∈ X)) as [|Hno]; [done|].
      destruct (analyse_spec polstr2num jstr2num jnum2str flags it0 Hfirst Hok)
        as (X' & ex' & nv' & nf' & Ha' & _ & _ & Hnone & _).
      rewrite Ha in Ha'. injection Ha' as <- <- <- <-.
      rewrite (Hnone ap Hno) in Hex. done. }
    destruct (Hin ap HapX) as (fw & Hfw & Hlook).
    exists fw. split; [exact Hlook|].
    unfold ant_flags_of, getitem in Hfw. rewrite Hex, Hnv, Hnf in Hfw.
    simpl in Hfw. rewrite bool_decide_eq_false_2 in Hfw by lia.
    injection Hfw as <-. rewrite wf_get_map, Hx. simpl. f_equal.
    apply Qgtb_true. rewrite Hfrac.
    change (effective_threshold 1) with (1 - (1 # 10000000000))%Q. lra.
Qed.

(** A small container: three visibilities of one polarization, two pixels. *)
Definition example_flags : list ((Z * Z * string) * waterfall bool) :=
  [((0, 1, "xx"%string), [[true; false]]);
   ((0, 2, "xx"%string), [[true; true]]);
   ((1, 2, "xx"%string), [[true; false]])].

Lemma threshold_one_still_flags_witness :
  ∃ r, synthesize_ant_flags Pyuvdata.polstr2num Pyuvdata.jstr2num Pyuvdata.jnum2str
         example_flags 1 = OK r
       ∧ flagged r (0, "x"%string) 0 0.
Proof.
  assert (Hvals :
    match analyse Pyuvdata.polstr2num Pyuvdata.jstr2num Pyuvdata.jnum2str
            example_flags with
    | OK (_, _, ex, nv, nf) =>
        ex !! (0, "x"%string) = Some false
        ∧ nv !! (0, "x"%string) = Some 2
        ∧ nf !! (0, "x"%string) = Some [[2%Q; 1%Q]]
    | Raise _ => False
    end) by (vm_compute; done).
  remember (analyse Pyuvdata.polstr2num Pyuvdata.jstr2num Pyuvdata.jnum2str
              example_flags) as a eqn:Ha.
  symmetry in Ha. destruct a as [[[[[X s0] ex] nv] nf]|e]; [|destruct Hvals].
  destruct Hvals as (Hex & Hnv & Hnf).
  destruct (threshold_one_still_flags _ _ _ _ _ _ _ _ _ Ha)
    as (_ & _ & _ & r & Hr & Hpix).
  exists r. split; [exact Hr|].
  apply (Hpix (0, "x"%string) 2 [[2%Q; 1%Q]] 0%nat 0%nat 2%Q Hex Hnv Hnf);
    reflexivity.
Defined.


Lemma synthesize_ant_flags_monotone_witness :
  ∃ r1 r2,
    synthesize_ant_flags Pyuvdata.polstr2num Pyuvdata.jstr2num Pyuvdata.jnum2str
      example_flags 0 = OK r1
    ∧ synthesize_ant_flags Pyuvdata.polstr2num Pyuvdata.jstr2num Pyuvdata.jnum2str
        example_flags (1 # 2) = OK r2
    ∧ ∀ ap t f, flagged r2 ap t f → flagged r1 ap t f.
Proof.
  assert (Hret :
    match synthesize_ant_flags Pyuvdata.polstr2num Pyuvdata.jstr2num
            Pyuvdata.jnum2str example_flags (1 # 2) with
    | OK _ => True
    | Raise _ => False
    end) by (vm_compute; exact I).
  remember (synthesize_ant_flags Pyuvdata.polstr2num Pyuvdata.jstr2num
              Pyuvdata.jnum2str example_flags (1 # 2)) as s2 eqn:H2.
  symmetry in H2. destruct s2 as [r2|e]; [clear Hret|destruct Hret].
  destruct (synthesize_ant_flags_monotone Pyuvdata.polstr2num Pyuvdata.jstr2num
              Pyuvdata.jnum2str example_flags 0 (1 # 2) r2) as (r1 & H1 & Hsub).
  - lra.
  - lra.
  - lra.
  - intros Hclose. vm_compute in Hclose. discriminate.
  - exact H2.
  - exists r1, r2. split; [exact H1|]. split; [reflexivity|]. exact Hsub.
Defined.

(** *** A container on which raising the threshold flags a new pixel

    Antenna 0 has one visibility with each of the antennas 1, ..., n, all of
    polarization xx, one time and two frequencies.  The second pixel is never
    flagged, so no visibility is completely flagged; the first pixel is
    flagged in every visibility but the one with antenna 1. *)
Fixpoint fan_flags (n : nat) : list ((Z * Z * string) * waterfall bool) :=
  match n with
  | O => []
  | S k => ((0, Z.of_nat n, "xx"%string), [[negb (Nat.eqb n 1); false]])
           :: fan_flags k
  end.

Section Fan.
Abbreviation p_ends :=
    (antpols_of_key Pyuvdata.polstr2num Pyuvdata.jstr2num Pyuvdata.jnum2str).
Abbreviation p_touches :=
    (touches Pyuvdata.polstr2num Pyuvdata.jstr2num Pyuvdata.jnum2str).
Abbreviation p_alive_touches ap :=
    (fun it => alive it
               ∧ touches Pyuvdata.polstr2num Pyuvdata.jstr2num Pyuvdata.jnum2str ap it).
Abbreviation p_apply :=
    (apply_item Pyuvdata.polstr2num Pyuvdata.jstr2num Pyuvdata.jnum2str).

Lemma fan_flags_S (k : nat) :
    fan_flags (S k)
    = ((0, Z.of_nat (S k), "xx"%string), [[negb (Nat.eqb (S k) 1); false]])
      :: fan_flags k.
  Proof. reflexivity. Qed.

Lemma ends_xx (i j : Z) :
    p_ends (i, j, "xx"%string) = OK ((i, "x"%string), (j, "x"%string)).
  Proof. reflexivity. Qed.

Lemma fan_flags_elem (n : nat) it :
    it ∈ fan_flags n →
    ∃ j b, (1 ≤ j ≤ Z.of_nat n) ∧ it = ((0, j, "xx"%string), [[b; false]]).
  Proof.
    induction n as [|k IH]; [by intros ?%elem_of_nil|].
    cbn [fan_flags]. intros [->|Hin]%elem_of_cons.
    - eexists _, _. split; [|reflexivity]. lia.
    - destruct (IH Hin) as (j & b & Hj & ->). exists j, b. split; [lia|done].
  Qed.

Lemma fan_flags_keys_ok (n : nat) :
    keys_ok Pyuvdata.polstr2num Pyuvdata.jstr2num Pyuvdata.jnum2str (fan_flags n).
  Proof.
    apply Forall_forall. intros it Hit.
    destruct (fan_flags_elem n it Hit) as (j & b & _ & ->).
    eexists _, _. apply ends_xx.
  Qed.

  (** No antenna of the fan is excluded. *)
Lemma fan_flags_alive (n : nat) ap :
    Exists (p_touches ap) (fan_flags n) →
    Exists (p_alive_touches ap) (fan_flags n).
  Proof.
    intros HE. apply Exists_exists in HE as (it & Hit & Ht).
    apply Exists_exists. exists it. split; [done|]. split; [|done].
    destruct (fan_flags_elem n it Hit) as (j & b & _ & ->).
    unfold alive. simpl. by destruct b.
  Qed.

Section Counts.
Variable ex : gmap (Z * string) bool.
Variable n0 : nat.
Hypothesis Hex0 : ex !! (0, "x"%string) = Some false.
Hypothesis Hexj : ∀ j, 1 ≤ j ≤ Z.of_nat n0 → ex !! (j, "x"%string) = Some false.

Lemma fan_apply_step {A : Type}
        (f : (Z * Z * string) * waterfall bool → A → A) (j : Z) (w : waterfall bool) (x : A) :
      1 ≤ j ≤ Z.of_nat n0 →
      p_apply ex f (0, "x"%string) x ((0, j, "xx"%string), w)
      = f ((0, j, "xx"%string), w) x.
    Proof.
      intros Hj. unfold apply_item. cbn [fst]. rewrite ends_xx.
      unfold counted. rewrite Hex0, (Hexj j Hj). unfold bump.
      rewrite decide_False; [by rewrite decide_True|].
      intros [= ?]. lia.
    Qed.

Lemma fan_nvis (n : nat) (k : Z) :
      (n ≤ n0)%nat →
      fold_left (p_apply ex add_one (0, "x"%string)) (fan_flags n) k
      = k + Z.of_nat n.
    Proof.
      revert k. induction n as [|n IH]; intros k Hn; [simpl; lia|].
      cbn [fan_flags fold_left]. rewrite fan_apply_step by lia.
      rewrite IH by lia. unfold add_one. lia.
    Qed.

Lemma fan_nflag (n : nat) (x y : Q) :
      (n ≤ n0)%nat →
      ∃ x' y',
        fold_left (p_apply ex add_flags (0, "x"%string)) (fan_flags n) [[x; y]]
        = [[x'; y']]
        ∧ (x' == x + inject_Z (Z.of_nat (n - 1)))%Q.
    Proof.
      revert x y. induction n as [|[|n] IH]; intros x y Hn.
      - exists x, y. split; [done|].
        replace (Z.of_nat (0 - 1)) with 0 by lia. unfold inject_Z. lra.
      - cbn [fan_flags fold_left]. rewrite fan_apply_step by lia.
        eexists _, _. split; [reflexivity|].
        replace (Z.of_nat (1 - 1)) with 0 by lia. unfold inject_Z. simpl. lra.
      - rewrite (fan_flags_S (S n)). cbn [fold_left].
        rewrite fan_apply_step by lia.
        change (add_flags ((0, Z.of_nat (S (S n)), "xx"%string),
                           [[negb (Nat.eqb (S (S n)) 1); false]]) [[x; y]])
          with [[(x + 1)%Q; (y + 0)%Q]].
        destruct (IH (x + 1)%Q (y + 0)%Q ltac:(lia)) as (x' & y' & Hfold & Hx').
        exists x', y'. split; [exact Hfold|].
        rewrite Hx'. rewrite <- Qplus_assoc. apply Qplus_comp; [reflexivity|].
        rewrite <- (inject_Z_plus 1). apply inject_Z_injective. lia.
    Qed.
End Counts.

  (** The dictionary that [synthesize_ant_flags] returns on a fan, at antenna 0. *)
Lemma fan_flags_result (k : nat) (t : Q) :
    (0 <= t)%Q → (t <= 1)%Q →
    ∃ r x' y',
      synthesize_ant_flags Pyuvdata.polstr2num Pyuvdata.jstr2num Pyuvdata.jnum2str
        (fan_flags (S k)) t = OK r
      ∧ r !! (0, "x"%string)
        = Some [[ Qgtb (x' / inject_Z (Z.of_nat (S k))) (effective_threshold t);
                  Qgtb (y' / inject_Z (Z.of_nat (S k))) (effective_threshold t) ]]
      ∧ (x' == inject_Z (Z.of_nat k))%Q.
  Proof.
    intros H0 H1.
    destruct (synthesize_ant_flags_spec Pyuvdata.polstr2num Pyuvdata.jstr2num
                Pyuvdata.jnum2str (fan_flags (S k)) _ t eq_refl
                (fan_flags_keys_ok (S k)) H0 H1)
      as (X & ex & nv & nf & r & Ha & Hr & Hin & _).
    destruct (analyse_spec Pyuvdata.polstr2num Pyuvdata.jstr2num Pyuvdata.jnum2str
                (fan_flags (S k)) _ eq_refl (fan_flags_keys_ok (S k)))
      as (X' & ex' & nv' & nf' & Ha' & HX & Hex & _ & Hnv & Hnf).
    rewrite Ha in Ha'. injection Ha' as <- <- <- <-.
    assert (Hfalse : ∀ ap, Exists (p_touches ap) (fan_flags (S k)) →
                           ap ∈ X ∧ ex !! ap = Some false).
    { intros ap HE. assert (HapX : ap ∈ X) by by apply HX.
      split; [done|]. rewrite (Hex ap HapX). f_equal.
      apply bool_decide_eq_false. intros Hn. by apply Hn, fan_flags_alive. }
    assert (H0X : Exists (p_touches (0, "x"%string)) (fan_flags (S k))).
    { apply Exists_cons_hd. eexists _, _. split; [apply ends_xx|]. by left. }
    assert (Hj : ∀ j, 1 ≤ j ≤ Z.of_nat (S k) → ex !! (j, "x"%string) = Some false).
    { intros j Hj. apply Hfalse.
      assert (Hin' : ∀ n, (Z.to_nat j ≤ n)%nat →
                ((0, j, "xx"%string), [[negb (Nat.eqb (Z.to_nat j) 1); false]])
                ∈ fan_flags n).
      { intros n. induction n as [|n IHn]; [lia|]. intros Hle.
        cbn [fan_flags]. destruct (decide (Z.to_nat j = S n)) as [Heq|Hne].
        - rewrite <- Heq. rewrite Z2Nat.id by lia. by left.
        - right. apply IHn. lia. }
      apply Exists_exists. eexists. split; [apply (Hin' (S k)); lia|].
      eexists _, _. split; [apply ends_xx|]. by right. }
    destruct (Hfalse _ H0X) as [H0in Hex0].
    destruct (Hin _ H0in) as (w & Hw & Hlook).
    destruct (fan_nflag ex (S k) Hex0 Hj (S k) 0%Q 0%Q ltac:(lia))
      as (x' & y' & Hfold & Hx').
    exists r, x', y'. split; [exact Hr|]. split.
    - rewrite Hlook. f_equal.
      unfold ant_flags_of, getitem in Hw.
      rewrite Hex0, (Hnv _ H0in), (Hnf _ H0in) in Hw. cbn [mbind result_bind] in Hw.
      rewrite (fan_nvis ex (S k) Hex0 Hj (S k) 0 ltac:(lia)) in Hw.
      rewrite bool_decide_eq_false_2 in Hw by lia.
      change (wf_full 0%Q (((0, Z.of_nat (S k), "xx"%string),
                            [[negb (Nat.eqb (S k) 1); false]]).2))
        with [[0%Q; 0%Q]] in Hw.
      rewrite Hfold in Hw. injection Hw as <-.
      rewrite Z.add_0_l. reflexivity.
    - rewrite Hx'. rewrite Qplus_0_l.
      apply inject_Z_injective. lia.
  Qed.
End Fan.

(** C6, as stated, fails across the lower edge of the [np.isclose] window,
    which lies at 1 - 1.001e-5 = 0.99998999.  On the fan of 99900
    visibilities the first pixel of antenna 0 is flagged in 99899 of them, a
    fraction of 0.99998998998999...  The threshold t1 = 0.999989989995 lies
    5e-12 below the edge, so [np.isclose] does not treat it as 1.0, and the
    fraction, 5e-12 below t1, does not exceed it.  The higher threshold
    t2 = 0.999989990001 lies 1e-12 above the edge, so it is treated as 1.0
    and becomes t2 - 1e-10 = 0.999989989901, which is 8.9e-11 below the
    fraction: the pixel is flagged.  Every comparison is decided by a margin
    of 1e-12 at least, far above the rounding of float64. *)
Lemma synthesize_ant_flags_not_monotone :
  let flags := fan_flags (S (Z.to_nat 99899)) in
  let t1 := (999989989995 # 1000000000000)%Q in
  let t2 := (999989990001 # 1000000000000)%Q in
  (0 <= t1)%Q ∧ (t1 <= t2)%Q ∧ (t2 <= 1)%Q
  ∧ ∃ r1 r2,
      synthesize_ant_flags Pyuvdata.polstr2num Pyuvdata.jstr2num Pyuvdata.jnum2str
        flags t1 = OK r1
      ∧ synthesize_ant_flags Pyuvdata.polstr2num Pyuvdata.jstr2num Pyuvdata.jnum2str
          flags t2 = OK r2
      ∧ flagged r2 (0, "x"%string) 0 0
      ∧ ¬ flagged r1 (0, "x"%string) 0 0.
Proof.
  intros flags t1 t2.
  assert (H01 : (0 <= t1)%Q) by (unfold t1; lra).
  assert (H12 : (t1 <= t2)%Q) by (unfold t1, t2; lra).
  assert (H21 : (t2 <= 1)%Q) by (unfold t2; lra).
  split; [done|]. split; [done|]. split; [done|].
  destruct (fan_flags_result (Z.to_nat 99899) t1 H01 ltac:(lra))
    as (r1 & x1 & y1 & Hr1 & Hl1 & Hx1).
  destruct (fan_flags_result (Z.to_nat 99899) t2 ltac:(lra) H21)
    as (r2 & x2 & y2 & Hr2 & Hl2 & Hx2).
  replace (Z.of_nat (S (Z.to_nat 99899))) with 99900 in Hl1, Hl2 by lia.
  replace (Z.of_nat (Z.to_nat 99899)) with 99899 in Hx1, Hx2 by lia.
  assert (He1 : effective_threshold t1 = t1) by reflexivity.
  assert (He2 : effective_threshold t2 = (t2 - (1 # 10000000000))%Q) by reflexivity.
  exists r1, r2. split; [exact Hr1|]. split; [exact Hr2|]. split.
  - eexists. split; [exact Hl2|]. unfold wf_get. simpl. f_equal.
    apply Qgtb_true. rewrite He2, Hx2. unfold t2. reflexivity.
  - intros (w & Hw & Hpix). rewrite Hl1 in Hw. injection Hw as <-.
    unfold wf_get in Hpix. simpl in Hpix. injection Hpix as Hpix.
    apply Qgtb_true in Hpix. rewrite He1, Hx1 in Hpix. unfold t1 in Hpix.
    vm_compute in Hpix. discriminate.
Qed.

(** ** utils.py: [chisq] *)

(** A [chisq] or [nObs] accumulator: one array, or with [split_by_antpol] a
    dictionary from antenna polarization to array. *)
Inductive accum (A : Type) : Type :=
| AccArr (w : waterfall A)
| AccDict (d : gmap string (waterfall A)).
Arguments AccArr {A} w.
Arguments AccDict {A} d.

(** The four values [chisq] returns. *)
Record chisq_out : Type := ChisqOut {
  out_chisq : accum R;
  out_nObs : accum Z;
  out_chisq_per_ant : gmap (Z * string) (waterfall R);
  out_nObs_per_ant : gmap (Z * string) (waterfall Z)
}.

(** [w > 0] on a float, as an integer. *)
Definition Rpos_Z (w : R) : Z := if Rlt_dec 0 w then 1 else 0.

(** [~f] on a boolean, as a float factor. *)
Definition not_flag_R (f : bool) : R := if f then 0%R else 1%R.

(** What one baseline adds: the antenna polarization [ap1], the two antenna
    keys, [chisq_here] and [wgts > 0]. *)
Record contribution : Type := Contribution {
  c_ap1 : string;
  c_ant1 : Z * string;
  c_ant2 : Z * string;
  c_chisq_here : waterfall R;
  c_obs : waterfall Z
}.

(** Adding into a pair of dictionaries that are kept in step, lines 845-852
    and 859-866:
    [if c.has_key(k): assert n.has_key(k); c[k] = c[k] + here; n[k] = n[k] + obs]
    [else: assert not n.has_key(k); c[k] = deepcopy(here); n[k] = obs]. *)
Definition add_both `{Countable K} (c : gmap K (waterfall R))
    (n : gmap K (waterfall Z)) (k : K) (here : waterfall R) (obs : waterfall Z)
  : result (gmap K (waterfall R) * gmap K (waterfall Z)) :=
  match c !! k with
  | Some x =>
      match n !! k with
      | Some y => OK (<[k := wf_zip Rplus x here]> c, <[k := wf_zip Z.add y obs]> n)
      | None => Raise AssertionError
      end
  | None =>
      match n !! k with
      | Some _ => Raise AssertionError
      | None => OK (<[k := here]> c, <[k := obs]> n)
      end
  end.

(** Lines 844-866: adding the contribution of one baseline. *)
Definition accumulate (split_by_antpol : bool) (acc : chisq_out) (c : contribution)
  : result chisq_out :=
  '(chisq, nObs) ←
    (if split_by_antpol then
       match out_chisq acc with
       | AccArr _ => Raise AttributeError
       | AccDict cd =>
           match out_nObs acc with
           | AccArr _ => Raise AttributeError
           | AccDict nd =>
               '(cd', nd') ← add_both cd nd (c_ap1 c) (c_chisq_here c) (c_obs c);
               OK (AccDict cd', AccDict nd')
           end
       end
     else
       match out_chisq acc with
       | AccDict _ => Raise TypeError
       | AccArr cw =>
           match out_nObs acc with
           | AccDict _ => Raise TypeError
           | AccArr nw =>
               OK (AccArr (wf_zip Rplus cw (c_chisq_here c)),
                   AccArr (wf_zip Z.add nw (c_obs c)))
           end
       end);
  '(cpa, npa) ← add_both (out_chisq_per_ant acc) (out_nObs_per_ant acc)
                   (c_ant1 c) (c_chisq_here c) (c_obs c);
  '(cpa, npa) ← add_both cpa npa (c_ant2 c) (c_chisq_here c) (c_obs c);
  OK (ChisqOut chisq nObs cpa npa).

Section Chisq.
Variable polstr2num : string → result Z.
Variable jstr2num : string → result Z.
Variable jnum2str : Z → result string.

Variable model : gmap (Z * Z * string) (waterfall complex).
Variable data_wgts : gmap (Z * Z * string) (waterfall R).
Variable gains : option (gmap (Z * string) (waterfall complex)).
Variable gain_flags : option (gmap (Z * string) (waterfall bool)).
Variable split_by_antpol : bool.

  (** Lines 824-843: the body of the loop up to [chisq_here], for the item
      [bl, data[bl]]; [None] when the baseline is skipped. *)
Definition visit (it : (Z * Z * string) * waterfall complex)
    : result (option contribution) :=
    let bl := it.1 in
    '(ap1, ap2) ← split_pol polstr2num jstr2num jnum2str bl.2;
    if has_key model bl && has_key data_wgts bl
       && (negb split_by_antpol || String.eqb ap1 ap2) then
      let ant1 := (bl.1.1, ap1) in
      let ant2 := (bl.1.2, ap2) in
      model_bl ← getitem model bl;
      model_here ←
        match gains with
        | Some g =>
            g1 ← getitem g ant1;
            g2 ← getitem g ant2;
            OK (wf_zip Cmul (wf_zip Cmul model_bl g1) (wf_map Cconj g2))
        | None => OK model_bl
        end;
      wgts_bl ← getitem data_wgts bl;
      wgts ←
        match gain_flags with
        | Some gf =>
            f1 ← getitem gf ant1;
            f2 ← getitem gf ant2;
            OK (wf_zip Rmult (wf_zip Rmult wgts_bl (wf_map not_flag_R f1))
                       (wf_map not_flag_R f2))
        | None => OK wgts_bl
        end;
      let chisq_here :=
        wf_zip Rmult (wf_map Cabs (wf_zip Csub model_here it.2)) wgts in
      OK (Some (Contribution ap1 ant1 ant2 chisq_here (wf_map Rpos_Z wgts)))
    else OK None.

  (** One iteration of the loop of lines 823-866. *)
Definition chisq_step (acc : chisq_out) (it : (Z * Z * string) * waterfall complex)
    : result chisq_out :=
    oc ← visit it;
    match oc with
    | Some c => accumulate split_by_antpol acc c
    | None => OK acc
    end.

  (** Lines 806-814: the [chisq] and [nObs] containers. *)
Definition init_chisq_nObs (data : list ((Z * Z * string) * waterfall complex))
      (chisq : option (accum R)) (nObs : option (accum Z))
    : result (accum R * accum Z) :=
    match chisq, nObs with
    | None, None =>
        if split_by_antpol then OK (AccDict ∅, AccDict ∅)
        else
          d0 ← first data;
          OK (AccArr (wf_full 0%R d0.2), AccArr (wf_full 0 d0.2))
    | Some c, Some n => OK (c, n)
    | _, _ =>
        Raise (ValueError "Both chisq and nObs must be specified or nor neither can be.")
    end.

  (** Lines 817-821: the [chisq_per_ant] and [nObs_per_ant] containers. *)
Definition init_per_ant
      (chisq_per_ant : option (gmap (Z * string) (waterfall R)))
      (nObs_per_ant : option (gmap (Z * string) (waterfall Z)))
    : result (gmap (Z * string) (waterfall R) * gmap (Z * string) (waterfall Z)) :=
    match chisq_per_ant, nObs_per_ant with
    | None, None => OK (∅, ∅)
    | Some c, Some n => OK (c, n)
    | _, _ =>
        Raise (ValueError
          "Both chisq_per_ant and nObs_per_ant must be specified or nor neither can be.")
    end.

  (** [chisq(data, model, data_wgts, gains, gain_flags, split_by_antpol,
             chisq, nObs, chisq_per_ant, nObs_per_ant)];
      [data] is the list of items of the dictionary in iteration order. *)
Definition chisq (data : list ((Z * Z * string) * waterfall complex))
      (chisq : option (accum R)) (nObs : option (accum Z))
      (chisq_per_ant : option (gmap (Z * string) (waterfall R)))
      (nObs_per_ant : option (gmap (Z * string) (waterfall Z)))
    : result chisq_out :=
    '(c, n) ← init_chisq_nObs data chisq nObs;
    '(cpa, npa) ← init_per_ant chisq_per_ant nObs_per_ant;
    foldM chisq_step (ChisqOut c n cpa npa) data.
End Chisq.

(** *** The pairing of the accumulators (lines 805-821) *)

(** Exactly one of two optional arguments is supplied. *)
Definition exactly_one {A B} (x : option A) (y : option B) : bool :=
  match x, y with
  | Some _, None | None, Some _ => true
  | _, _ => false
  end.

Definition pairing_error_chisq : exn :=
  ValueError "Both chisq and nObs must be specified or nor neither can be.".
Definition pairing_error_per_ant : exn :=
  ValueError "Both chisq_per_ant and nObs_per_ant must be specified or nor neither can be.".

(** C5.  The pairing check of the second pair is missed on one path.  With
    no data, no [chisq] and [nObs], and [split_by_antpol] False, line 811
    reads the shape of the first data array before the second pair of
    accumulators is looked at (lines 817-821): a lone [chisq_per_ant] then
    ends in the [IndexError] of [list(data.values())[0]], not in the pairing
    [ValueError].  With [split_by_antpol] True, where no shape is read, the
    same call raises the pairing [ValueError]. *)
Lemma chisq_pairing_empty_data :
  chisq Pyuvdata.polstr2num Pyuvdata.jstr2num Pyuvdata.jnum2str
    ∅ ∅ None None false [] None None (Some ∅) None
  = Raise IndexError
  ∧ chisq Pyuvdata.polstr2num Pyuvdata.jstr2num Pyuvdata.jnum2str
      ∅ ∅ None None true [] None None (Some ∅) None
    = Raise pairing_error_per_ant.
Proof. split; reflexivity. Qed.

(** X24.  When exactly one of [chisq]/[nObs] is supplied the call raises the
    pairing [ValueError], whatever the other arguments.  When that pair is
    well formed and its containers can be built (it is supplied, or
    [split_by_antpol] is set, or there is data), a lone [chisq_per_ant] or
    [nObs_per_ant] raises the second pairing [ValueError], and with both pairs
    well formed the call reaches the loop: its result is the result of the
    loop on the containers.  Both errors come before the loop over the
    baselines. *)
Theorem chisq_pairing
    (polstr2num jstr2num : string → result Z) (jnum2str : Z → result string)
    (model : gmap (Z * Z * string) (waterfall complex))
    (data_wgts : gmap (Z * Z * string) (waterfall R))
    (gains : option (gmap (Z * string) (waterfall complex)))
    (gain_flags : option (gmap (Z * string) (waterfall bool)))
    (split_by_antpol : bool)
    (data : list ((Z * Z * string) * waterfall complex))
    (c : option (accum R)) (n : option (accum Z))
    (cpa : option (gmap (Z * string) (waterfall R)))
    (npa : option (gmap (Z * string) (waterfall Z))) :
  let run := chisq polstr2num jstr2num jnum2str model data_wgts gains gain_flags
               split_by_antpol data c n cpa npa in
  let buildable := is_Some c ∨ split_by_antpol = true ∨ data ≠ [] in
  (exactly_one c n = true → run = Raise pairing_error_chisq)
  ∧ (exactly_one c n = false → buildable → exactly_one cpa npa = true →
     run = Raise pairing_error_per_ant)
  ∧ (exactly_one c n = false → buildable → exactly_one cpa npa = false →
     ∃ init, run = foldM (chisq_step polstr2num jstr2num jnum2str model data_wgts
                            gains gain_flags split_by_antpol) init data).
Proof.
  intros run buildable. unfold run, buildable, chisq. clear run buildable.
  split; [|split].
  - destruct c, n; simpl; try discriminate; done.
  - intros Hcn Hb Hper.
    assert (∃ i, init_chisq_nObs split_by_antpol data c n = OK i) as [[c0 n0] ->].
    { destruct c, n; simpl in *; try discriminate; [by eexists|].
      destruct split_by_antpol; [by eexists|].
      destruct data as [|d0 data]; [|by eexists].
      destruct Hb as [[? [=]]|[[=]|?]]; done. }
    simpl. destruct cpa, npa; simpl in *; try discriminate; done.
  - intros Hcn Hb Hper.
    assert (∃ i, init_chisq_nObs split_by_antpol data c n = OK i) as [[c0 n0] ->].
    { destruct c, n; simpl in *; try discriminate; [by eexists|].
      destruct split_by_antpol; [by eexists|].
      destruct data as [|d0 data]; [|by eexists].
      destruct Hb as [[? [=]]|[[=]|?]]; done. }
    simpl. destruct cpa, npa; simpl in *; try discriminate; by eexists.
Qed.

Lemma chisq_pairing_witness :
  chisq Pyuvdata.polstr2num Pyuvdata.jstr2num Pyuvdata.jnum2str
    ∅ ∅ None None false [] (Some (AccArr [])) None None None
  = Raise pairing_error_chisq
  ∧ chisq Pyuvdata.polstr2num Pyuvdata.jstr2num Pyuvdata.jnum2str
      ∅ ∅ None None true [] None None (Some ∅) None
    = Raise pairing_error_per_ant.
Proof.
  split.
  - exact (proj1 (chisq_pairing Pyuvdata.polstr2num Pyuvdata.jstr2num
                    Pyuvdata.jnum2str ∅ ∅ None None false []
                    (Some (AccArr [])) None None None) eq_refl).
  - exact (proj1 (proj2 (chisq_pairing Pyuvdata.polstr2num Pyuvdata.jstr2num
                    Pyuvdata.jnum2str ∅ ∅ None None true []
                    None None (Some ∅) None)) eq_refl (or_intror (or_introl eq_refl))
                    eq_refl).
Defined.

(** *** What the loop accumulates (lines 823-855) *)

(** One baseline, no gains, no gain flags, no accumulators supplied: the
    chi-square array is zero plus [np.abs(model - data) * wgts]. *)
Lemma chisq_single_baseline
    (polstr2num jstr2num : string → result Z) (jnum2str : Z → result string)
    (model : gmap (Z * Z * string) (waterfall complex))
    (data_wgts : gmap (Z * Z * string) (waterfall R))
    (bl : Z * Z * string) (d m : waterfall complex) (w : waterfall R)
    (ap1 ap2 : string) :
  split_pol polstr2num jstr2num jnum2str bl.2 = OK (ap1, ap2) →
  model !! bl = Some m → data_wgts !! bl = Some w →
  ∃ out,
    chisq polstr2num jstr2num jnum2str model data_wgts None None false
      [(bl, d)] None None None None = OK out
    ∧ out_chisq out
      = AccArr (wf_zip Rplus (wf_full 0%R d)
                  (wf_zip Rmult (wf_map Cabs (wf_zip Csub m d)) w)).
Proof.
  intros Hsp Hm Hw.
  unfold chisq, init_chisq_nObs, init_per_ant. simpl.
  unfold chisq_step, visit, has_key, getitem. simpl.
  rewrite Hsp, Hm, Hw. simpl.
  unfold accumulate. simpl. unfold add_both at 2. rewrite !lookup_empty. simpl.
  destruct (add_both _ _ _ _ _) as [[cpa npa]|e] eqn:E.
  - simpl. eexists. split; reflexivity.
  - exfalso. unfold add_both in E.
    destruct (decide ((bl.1.1, ap1) = (bl.1.2, ap2))) as [Heq|Hne].
    + rewrite Heq, !lookup_insert_eq in E. done.
    + rewrite !lookup_insert_ne, !lookup_empty in E by done. done.
Qed.

Definition bug_bl : Z * Z * string := (0, 1, "xx"%string).
Definition bug_data : list ((Z * Z * string) * waterfall complex) :=
  [(bug_bl, [[ (2%R, 0%R) ]])].
Definition bug_model : gmap (Z * Z * string) (waterfall complex) :=
  {[ bug_bl := [[ (0%R, 0%R) ]] ]}.
Definition bug_wgts : gmap (Z * Z * string) (waterfall R) :=
  {[ bug_bl := [[ 1%R ]] ]}.

(** C1.  On one baseline with data 2, model 0 and weight 1 the code
    accumulates |data - model| * weight = 2, where the squared modulus times
    the weight is 4: line 843 takes [np.abs] and does not square it. *)
Theorem chisq_accumulates_modulus :
  (∃ out,
     chisq Pyuvdata.polstr2num Pyuvdata.jstr2num Pyuvdata.jnum2str
       bug_model bug_wgts None None false bug_data None None None None = OK out
     ∧ out_chisq out = AccArr [[ 2%R ]])
  ∧ (Cabs (Csub (2%R, 0%R) (0%R, 0%R)) * Cabs (Csub (2%R, 0%R) (0%R, 0%R)) * 1 = 4)%R.
Proof.
  assert (Habs : ∀ a b : R, Cabs (Csub (a, 0%R) (b, 0%R)) = Rabs (a - b)).
  { intros a b. unfold Cabs, Csub. simpl.
    replace ((a - b) * (a - b) + (0 - 0) * (0 - 0))%R with ((a - b)²)%R
      by (unfold Rsqr; lra).
    apply sqrt_Rsqr_abs. }
  split.
  - destruct (chisq_single_baseline Pyuvdata.polstr2num Pyuvdata.jstr2num
                Pyuvdata.jnum2str bug_model bug_wgts bug_bl
                [[ (2%R, 0%R) ]] [[ (0%R, 0%R) ]] [[ 1%R ]] "x" "x"
                eq_refl eq_refl eq_refl) as (out & Hout & Hc).
    exists out. split; [exact Hout|]. rewrite Hc.
    change (AccArr [[ (0 + Cabs (Csub (0%R, 0%R) (2%R, 0%R)) * 1)%R ]]
            = AccArr [[ 2%R ]]).
    rewrite Habs. replace (0 - 2)%R with (- (2))%R by lra.
    rewrite Rabs_Ropp, Rabs_right by lra.
    do 3 f_equal. lra.
  - rewrite Habs. replace (2 - 0)%R with 2%R by lra.
    rewrite Rabs_right by lra. lra.
Qed.

(** *** Accumulating over a split of the baselines *)

(** Adding [v] into a dictionary at [k]. *)
Definition dict_add `{Countable K} {V} (add : V → V → V) (m : gmap K V)
    (k : K) (v : V) : gmap K V :=
  <[k := match m !! k with Some x => add x v | None => v end]> m.

(** Two dictionaries with the same keys. *)
Definition in_step `{Countable K} {V W} (c : gmap K V) (n : gmap K W) : Prop :=
  ∀ k, c !! k = None ↔ n !! k = None.

Lemma in_step_dict_add `{Countable K} {V W} (f : V → V → V) (g : W → W → W)
    (c : gmap K V) (n : gmap K W) (k : K) (v : V) (w : W) :
  in_step c n → in_step (dict_add f c k v) (dict_add g n k w).
Proof.
  intros Hs k'. unfold dict_add.
  destruct (decide (k = k')) as [->|Hne].
  - rewrite !lookup_insert_eq. done.
  - rewrite !lookup_insert_ne by done. apply Hs.
Qed.

Lemma add_both_in_step `{Countable K} (c : gmap K (waterfall R))
    (n : gmap K (waterfall Z)) (k : K) (here : waterfall R) (obs : waterfall Z) :
  in_step c n →
  add_both c n k here obs
  = OK (dict_add (wf_zip Rplus) c k here, dict_add (wf_zip Z.add) n k obs).
Proof.
  intros Hs. unfold add_both, dict_add. specialize (Hs k).
  destruct (c !! k) as [x|], (n !! k) as [y|]; try done.
  - destruct Hs as [_ Hs]. by specialize (Hs eq_refl).
  - destruct Hs as [Hs _]. by specialize (Hs eq_refl).
Qed.

Lemma dict_add_comm `{Countable K} {V} (add : V → V → V)
    (Hcomm : ∀ x y, add x y = add y x)
    (Hassoc : ∀ x y z, add (add x y) z = add x (add y z))
    (m : gmap K V) (k1 k2 : K) (v1 v2 : V) :
  dict_add add (dict_add add m k1 v1) k2 v2
  = dict_add add (dict_add add m k2 v2) k1 v1.
Proof.
  apply map_eq. intros k. unfold dict_add.
  destruct (decide (k1 = k2)) as [->|H12].
  - rewrite !lookup_insert_eq.
    destruct (decide (k2 = k)) as [->|Hk].
    + rewrite !lookup_insert_eq. f_equal.
      destruct (m !! k) as [x|].
      * by rewrite !Hassoc, (Hcomm v1 v2).
      * apply Hcomm.
    + by rewrite !lookup_insert_ne.
  - rewrite (lookup_insert_ne _ k1 k2) by done.
    rewrite (lookup_insert_ne _ k2 k1) by done.
    destruct (decide (k1 = k)) as [->|Hk1].
    + rewrite lookup_insert_ne, !lookup_insert_eq by done. done.
    + rewrite (lookup_insert_ne _ k1 k) by done.
      destruct (decide (k2 = k)) as [->|Hk2].
      * by rewrite !lookup_insert_eq.
      * by rewrite !lookup_insert_ne.
Qed.

Lemma wf_add_R_comm (a b : waterfall R) : wf_zip Rplus a b = wf_zip Rplus b a.
Proof. apply wf_zip_comm. intros; lra. Qed.
Lemma wf_add_R_assoc (a b c : waterfall R) :
  wf_zip Rplus (wf_zip Rplus a b) c = wf_zip Rplus a (wf_zip Rplus b c).
Proof. apply wf_zip_assoc. intros; lra. Qed.
Lemma wf_add_Z_comm (a b : waterfall Z) : wf_zip Z.add a b = wf_zip Z.add b a.
Proof. apply wf_zip_comm. intros; lia. Qed.
Lemma wf_add_Z_assoc (a b c : waterfall Z) :
  wf_zip Z.add (wf_zip Z.add a b) c = wf_zip Z.add a (wf_zip Z.add b c).
Proof. apply wf_zip_assoc. intros; lia. Qed.

(** The accumulators have the types of the mode and the paired dictionaries
    have the same keys: what the code's assertions check. *)
Definition acc_ok (split_by_antpol : bool) (acc : chisq_out) : Prop :=
  (if split_by_antpol then
     ∃ cd nd, out_chisq acc = AccDict cd ∧ out_nObs acc = AccDict nd ∧ in_step cd nd
   else
     ∃ cw nw, out_chisq acc = AccArr cw ∧ out_nObs acc = AccArr nw)
  ∧ in_step (out_chisq_per_ant acc) (out_nObs_per_ant acc).

(** [accumulate] when nothing raises. *)
Definition accumulate_pure (acc : chisq_out) (c : contribution) : chisq_out :=
  {| out_chisq :=
       match out_chisq acc with
       | AccArr cw => AccArr (wf_zip Rplus cw (c_chisq_here c))
       | AccDict cd => AccDict (dict_add (wf_zip Rplus) cd (c_ap1 c) (c_chisq_here c))
       end;
     out_nObs :=
       match out_nObs acc with
       | AccArr nw => AccArr (wf_zip Z.add nw (c_obs c))
       | AccDict nd => AccDict (dict_add (wf_zip Z.add) nd (c_ap1 c) (c_obs c))
       end;
     out_chisq_per_ant :=
       dict_add (wf_zip Rplus)
         (dict_add (wf_zip Rplus) (out_chisq_per_ant acc) (c_ant1 c) (c_chisq_here c))
         (c_ant2 c) (c_chisq_here c);
     out_nObs_per_ant :=
       dict_add (wf_zip Z.add)
         (dict_add (wf_zip Z.add) (out_nObs_per_ant acc) (c_ant1 c) (c_obs c))
         (c_ant2 c) (c_obs c) |}.

Lemma accumulate_ok (split_by_antpol : bool) (acc : chisq_out) (c : contribution) :
  acc_ok split_by_antpol acc →
  accumulate split_by_antpol acc c = OK (accumulate_pure acc c)
  ∧ acc_ok split_by_antpol (accumulate_pure acc c).
Proof.
  intros [Hmode Hper]. unfold accumulate, accumulate_pure.
  rewrite (add_both_in_step _ _ (c_ant1 c) _ _ Hper).
  pose proof (in_step_dict_add (wf_zip Rplus) (wf_zip Z.add) _ _ (c_ant1 c)
                (c_chisq_here c) (c_obs c) Hper) as Hper1.
  pose proof (in_step_dict_add (wf_zip Rplus) (wf_zip Z.add) _ _ (c_ant2 c)
                (c_chisq_here c) (c_obs c) Hper1) as Hper2.
  destruct split_by_antpol.
  - destruct Hmode as (cd & nd & -> & -> & Hs).
    rewrite (add_both_in_step _ _ (c_ap1 c) _ _ Hs). simpl.
    rewrite (add_both_in_step _ _ (c_ant2 c) _ _ Hper1). simpl.
    split; [done|]. split; [|done]. simpl.
    eexists _, _. split; [done|]. split; [done|].
    by apply in_step_dict_add.
  - destruct Hmode as (cw & nw & -> & ->). simpl.
    rewrite (add_both_in_step _ _ (c_ant2 c) _ _ Hper1). simpl.
    split; [done|]. split; [|done]. simpl. by eexists _, _.
Qed.

Lemma accumulate_pure_comm (acc : chisq_out) (c1 c2 : contribution) :
  accumulate_pure (accumulate_pure acc c1) c2
  = accumulate_pure (accumulate_pure acc c2) c1.
Proof.
  pose proof (λ (m : gmap (Z * string) (waterfall R)), dict_add_comm (wf_zip Rplus)
                wf_add_R_comm wf_add_R_assoc m) as HR.
  pose proof (λ (m : gmap (Z * string) (waterfall Z)), dict_add_comm (wf_zip Z.add)
                wf_add_Z_comm wf_add_Z_assoc m) as HZ.
  unfold accumulate_pure. simpl. f_equal.
  - destruct (out_chisq acc); f_equal.
    + by rewrite !wf_add_R_assoc, (wf_add_R_comm (c_chisq_here c1)).
    + apply dict_add_comm; [apply wf_add_R_comm | apply wf_add_R_assoc].
  - destruct (out_nObs acc); f_equal.
    + by rewrite !wf_add_Z_assoc, (wf_add_Z_comm (c_obs c1)).
    + apply dict_add_comm; [apply wf_add_Z_comm | apply wf_add_Z_assoc].
  - rewrite (HR _ (c_ant2 c1) (c_ant1 c2)).
    rewrite (HR _ (c_ant1 c1) (c_ant1 c2)).
    rewrite (HR _ (c_ant2 c1) (c_ant2 c2)).
    rewrite (HR _ (c_ant1 c1) (c_ant2 c2)). done.
  - rewrite (HZ _ (c_ant2 c1) (c_ant1 c2)).
    rewrite (HZ _ (c_ant1 c1) (c_ant1 c2)).
    rewrite (HZ _ (c_ant2 c1) (c_ant2 c2)).
    rewrite (HZ _ (c_ant1 c1) (c_ant2 c2)). done.
Qed.

Lemma wf_full_shape {A B C} (c : C) (a : waterfall A) (b : waterfall B) :
  wf_shape a = wf_shape b → wf_full c a = wf_full c b.
Proof.
  unfold wf_shape, wf_full, wf_map. revert b.
  induction a as [|ra a IH]; intros [|rb b]; simpl; try done.
  intros [= Hlen Hsh]. f_equal; [|by apply IH].
  clear IH Hsh. revert rb Hlen.
  induction ra as [|x ra IH]; intros [|y rb]; simpl; try done.
  intros [= Hlen]. f_equal. by apply IH.
Qed.

Section ChisqSplit.
Variable polstr2num : string → result Z.
Variable jstr2num : string → result Z.
Variable jnum2str : Z → result string.
Variable model : gmap (Z * Z * string) (waterfall complex).
Variable data_wgts : gmap (Z * Z * string) (waterfall R).
Variable gains : option (gmap (Z * string) (waterfall complex)).
Variable gain_flags : option (gmap (Z * string) (waterfall bool)).
Variable split_by_antpol : bool.

Abbreviation step :=
  (chisq_step polstr2num jstr2num jnum2str model data_wgts gains gain_flags
     split_by_antpol).
Abbreviation visit' :=
  (visit polstr2num jstr2num jnum2str model data_wgts gains gain_flags
     split_by_antpol).
Abbreviation run :=
  (chisq polstr2num jstr2num jnum2str model data_wgts gains gain_flags
     split_by_antpol).

Definition step_pure (acc : chisq_out) (oc : option contribution) : chisq_out :=
  match oc with
  | Some c => accumulate_pure acc c
  | None => acc
  end.

Lemma step_pure_ok (acc : chisq_out) (oc : option contribution) :
  acc_ok split_by_antpol acc → acc_ok split_by_antpol (step_pure acc oc).
Proof.
  intros Hok. destruct oc as [c|]; [|done].
  by destruct (accumulate_ok split_by_antpol acc c Hok).
Qed.

(** On well-formed accumulators an iteration raises only while computing
    the contribution of its baseline. *)
Lemma chisq_step_ok (acc : chisq_out) (it : (Z * Z * string) * waterfall complex) :
  acc_ok split_by_antpol acc →
  step acc it = (oc ← visit' it; OK (step_pure acc oc)).
Proof.
  intros Hok. unfold chisq_step. destruct (visit' it) as [[c|]|e]; simpl; try done.
  by destruct (accumulate_ok split_by_antpol acc c Hok).
Qed.

Lemma chisq_step_OK (acc acc' : chisq_out) (it : (Z * Z * string) * waterfall complex) :
  acc_ok split_by_antpol acc → step acc it = OK acc' →
  ∃ oc, visit' it = OK oc ∧ acc' = step_pure acc oc.
Proof.
  intros Hok H. rewrite chisq_step_ok in H by done.
  apply bind_OK in H as (oc & Hoc & [= <-]). by exists oc.
Qed.

(** The loop gives the same result on the baselines in any order. *)
Lemma chisq_loop_permutation (l l' : list ((Z * Z * string) * waterfall complex)) :
  l ≡ₚ l' → ∀ acc out, acc_ok split_by_antpol acc →
  foldM step acc l = OK out → foldM step acc l' = OK out.
Proof.
  induction 1 as [|x l l' Hperm IH|x y l|l l' l'' H1 IH1 H2 IH2];
    intros acc out Hok Hrun.
  - done.
  - rewrite foldM_cons in *. apply bind_OK in Hrun as (acc1 & Hstep & Hrun).
    rewrite Hstep. simpl. apply IH; [|done].
    destruct (chisq_step_OK _ _ _ Hok Hstep) as (oc & _ & ->).
    by apply step_pure_ok.
  - rewrite !foldM_cons in *.
    apply bind_OK in Hrun as (acc1 & Hy & Hrun).
    apply bind_OK in Hrun as (acc2 & Hx & Hrun).
    destruct (chisq_step_OK _ _ _ Hok Hy) as (oy & Hvy & ->).
    destruct (chisq_step_OK _ _ _ (step_pure_ok _ oy Hok) Hx) as (ox & Hvx & ->).
    rewrite (chisq_step_ok acc x Hok), Hvx. simpl.
    rewrite (chisq_step_ok _ y (step_pure_ok _ ox Hok)), Hvy. simpl.
    replace (step_pure (step_pure acc ox) oy) with (step_pure (step_pure acc oy) ox);
      [exact Hrun|].
    destruct ox as [cx|], oy as [cy|]; simpl; try done.
    apply accumulate_pure_comm.
  - apply IH2; [done|]. by apply IH1.
Qed.
End ChisqSplit.

(** C4 (as amended).  The float sums are read as sums of real numbers.
    The items of [data], all of one shape, are split into a first part that
    is not empty and a second part, in any order.  A call on the first part
    without accumulators followed by a call on the second part with the four
    outputs of the first returns what the single call on [data] returns, and
    either way of calling returns whenever the other does.  (In float64 the
    sums depend on the order of the additions, which the end of this part
    takes up.) *)
Theorem chisq_additive
    (polstr2num jstr2num : string → result Z) (jnum2str : Z → result string)
    (model : gmap (Z * Z * string) (waterfall complex))
    (data_wgts : gmap (Z * Z * string) (waterfall R))
    (gains : option (gmap (Z * string) (waterfall complex)))
    (gain_flags : option (gmap (Z * string) (waterfall bool)))
    (split_by_antpol : bool)
    (data data1 data2 : list ((Z * Z * string) * waterfall complex))
    (shape : list nat) (out : chisq_out) :
  data ≡ₚ data1 ++ data2 → data1 ≠ [] →
  Forall (fun it => wf_shape it.2 = shape) data →
  chisq polstr2num jstr2num jnum2str model data_wgts gains gain_flags
    split_by_antpol data None None None None = OK out
  ↔ ∃ out1,
      chisq polstr2num jstr2num jnum2str model data_wgts gains gain_flags
        split_by_antpol data1 None None None None = OK out1
      ∧ chisq polstr2num jstr2num jnum2str model data_wgts gains gain_flags
          split_by_antpol data2 (Some (out_chisq out1)) (Some (out_nObs out1))
          (Some (out_chisq_per_ant out1)) (Some (out_nObs_per_ant out1)) = OK out.
Proof.
  intros Hperm Hne Hshape.
  set (stp := chisq_step polstr2num jstr2num jnum2str model data_wgts gains
                gain_flags split_by_antpol).
  assert (Hinit : ∃ c n,
    init_chisq_nObs split_by_antpol data None None = OK (c, n)
    ∧ init_chisq_nObs split_by_antpol data1 None None = OK (c, n)
    ∧ acc_ok split_by_antpol (ChisqOut c n ∅ ∅)).
  { unfold init_chisq_nObs, acc_ok. destruct split_by_antpol.
    - eexists _, _. split; [done|]. split; [done|]. split; [|done].
      simpl. by eexists _, _.
    - destruct data1 as [|d1 data1']; [done|].
      destruct data as [|d0 data'].
      { apply Permutation_nil_l in Hperm. done. }
      assert (wf_shape d0.2 = wf_shape d1.2) as Hsh.
      { rewrite (Forall_inv Hshape).
        symmetry. apply (proj1 (Forall_forall _ _) Hshape).
        rewrite Hperm. by left. }
      simpl. rewrite <- (wf_full_shape 0%R _ _ Hsh), <- (wf_full_shape 0 _ _ Hsh).
      eexists _, _. split; [done|]. split; [done|]. split; [|done].
      simpl. by eexists _, _. }
  destruct Hinit as (c & n & Hi & Hi1 & Hok).
  assert (Hfull : chisq polstr2num jstr2num jnum2str model data_wgts gains
            gain_flags split_by_antpol data None None None None
          = foldM stp (ChisqOut c n ∅ ∅) data).
  { unfold chisq. rewrite Hi. reflexivity. }
  assert (Hfirst : chisq polstr2num jstr2num jnum2str model data_wgts gains
            gain_flags split_by_antpol data1 None None None None
          = foldM stp (ChisqOut c n ∅ ∅) data1).
  { unfold chisq. rewrite Hi1. reflexivity. }
  assert (Hsecond : ∀ out1,
            chisq polstr2num jstr2num jnum2str model data_wgts gains
              gain_flags split_by_antpol data2 (Some (out_chisq out1))
              (Some (out_nObs out1)) (Some (out_chisq_per_ant out1))
              (Some (out_nObs_per_ant out1))
            = foldM stp out1 data2).
  { intros [? ? ? ?]. reflexivity. }
  rewrite Hfull, Hfirst. split.
  - intros Hrun.
    apply (chisq_loop_permutation _ _ _ _ _ _ _ _ _ _ Hperm) in Hrun; [|done].
    rewrite foldM_app in Hrun. apply bind_OK in Hrun as (out1 & H1 & H2).
    exists out1. split; [done|]. by rewrite Hsecond.
  - intros (out1 & H1 & H2). rewrite Hsecond in H2.
    apply (chisq_loop_permutation _ _ _ _ _ _ _ _ (data1 ++ data2) data);
      [by symmetry|done|].
    rewrite foldM_app. unfold stp in *. rewrite H1. exact H2.
Qed.

Definition split_bl2 : Z * Z * string := (1, 2, "xx"%string).
Definition split_data1 : list ((Z * Z * string) * waterfall complex) :=
  [(bug_bl, [[ (2%R, 0%R) ]])].
Definition split_data2 : list ((Z * Z * string) * waterfall complex) :=
  [(split_bl2, [[ (0%R, 1%R) ]])].
Definition split_model : gmap (Z * Z * string) (waterfall complex) :=
  {[ bug_bl := [[ (0%R, 0%R) ]]; split_bl2 := [[ (1%R, 0%R) ]] ]}.
Definition split_wgts : gmap (Z * Z * string) (waterfall R) :=
  {[ bug_bl := [[ 1%R ]]; split_bl2 := [[ 1%R ]] ]}.

Lemma chisq_additive_witness :
  ∃ out out1,
    chisq Pyuvdata.polstr2num Pyuvdata.jstr2num Pyuvdata.jnum2str
      split_model split_wgts None None false (split_data2 ++ split_data1)
      None None None None = OK out
    ∧ chisq Pyuvdata.polstr2num Pyuvdata.jstr2num Pyuvdata.jnum2str
        split_model split_wgts None None false split_data1
        None None None None = OK out1
    ∧ chisq Pyuvdata.polstr2num Pyuvdata.jstr2num Pyuvdata.jnum2str
        split_model split_wgts None None false split_data2
        (Some (out_chisq out1)) (Some (out_nObs out1))
        (Some (out_chisq_per_ant out1)) (Some (out_nObs_per_ant out1)) = OK out.
Proof.
  assert (Hret :
    match chisq Pyuvdata.polstr2num Pyuvdata.jstr2num Pyuvdata.jnum2str
            split_model split_wgts None None false (split_data2 ++ split_data1)
            None None None None with
    | OK _ => True
    | Raise _ => False
    end) by (vm_compute; exact I).
  remember (chisq Pyuvdata.polstr2num Pyuvdata.jstr2num Pyuvdata.jnum2str
              split_model split_wgts None None false (split_data2 ++ split_data1)
              None None None None) as full eqn:Hfull.
  symmetry in Hfull. destruct full as [out|e]; [clear Hret|destruct Hret].
  destruct (proj1 (chisq_additive Pyuvdata.polstr2num Pyuvdata.jstr2num
              Pyuvdata.jnum2str split_model split_wgts None None false
              (split_data2 ++ split_data1) split_data1 split_data2 [1%nat] out
              (Permutation_app_comm _ _) ltac:(discriminate)
              ltac:(repeat constructor)) Hfull) as (out1 & H1 & H2).
  exists out, out1. split; [reflexivity|]. split; [exact H1 | exact H2].
Defined.

(** ** [chisq] with the arithmetic left open, and in float64 *)

(** The theorems above read the float sums of [chisq] as sums of real
    numbers.  Here the same code is written once more with its arithmetic as
    parameters, so that it can be run with the binary64 floats that
    [np.float64] and [np.complex128] are. *)
Module Generic.
Section Arithmetic.
(** The real scalars [F] and the complex scalars [C] of the arrays, and
    numpy's operations on them: [np.zeros], [+], [*], [(w > 0)] as an
    integer, [~flag] as a factor, and on complex numbers [-], [*], [np.conj]
    and [np.abs]. *)
Variables F C : Type.
Variable f_zero : F.
Variable f_add f_mul : F → F → F.
Variable f_pos : F → Z.
Variable f_not : bool → F.
Variable c_sub c_mul : C → C → C.
Variable c_conj : C → C.
Variable c_abs : C → F.

Variable polstr2num : string → result Z.
Variable jstr2num : string → result Z.
Variable jnum2str : Z → result string.

(** The four values [chisq] returns. *)
Record chisq_out : Type := ChisqOut {
  out_chisq : accum F;
  out_nObs : accum Z;
  out_chisq_per_ant : gmap (Z * string) (waterfall F);
  out_nObs_per_ant : gmap (Z * string) (waterfall Z)
}.

(** What one baseline adds. *)
Record contribution : Type := Contribution {
  c_ap1 : string;
  c_ant1 : Z * string;
  c_ant2 : Z * string;
  c_chisq_here : waterfall F;
  c_obs : waterfall Z
}.

(** Lines 845-852 and 859-866. *)
Definition add_both `{Countable K} (c : gmap K (waterfall F))
    (n : gmap K (waterfall Z)) (k : K) (here : waterfall F) (obs : waterfall Z)
  : result (gmap K (waterfall F) * gmap K (waterfall Z)) :=
  match c !! k with
  | Some x =>
      match n !! k with
      | Some y => OK (<[k := wf_zip f_add x here]> c, <[k := wf_zip Z.add y obs]> n)
      | None => Raise AssertionError
      end
  | None =>
      match n !! k with
      | Some _ => Raise AssertionError
      | None => OK (<[k := here]> c, <[k := obs]> n)
      end
  end.

(** Lines 844-866. *)
Definition accumulate (split_by_antpol : bool) (acc : chisq_out) (c : contribution)
  : result chisq_out :=
  '(chisq, nObs) ←
    (if split_by_antpol then
       match out_chisq acc with
       | AccArr _ => Raise AttributeError
       | AccDict cd =>
           match out_nObs acc with
           | AccArr _ => Raise AttributeError
           | AccDict nd =>
               '(cd', nd') ← add_both cd nd (c_ap1 c) (c_chisq_here c) (c_obs c);
               OK (AccDict cd', AccDict nd')
           end
       end
     else
       match out_chisq acc with
       | AccDict _ => Raise TypeError
       | AccArr cw =>
           match out_nObs acc with
           | AccDict _ => Raise TypeError
           | AccArr nw =>
               OK (AccArr (wf_zip f_add cw (c_chisq_here c)),
                   AccArr (wf_zip Z.add nw (c_obs c)))
           end
       end);
  '(cpa, npa) ← add_both (out_chisq_per_ant acc) (out_nObs_per_ant acc)
                   (c_ant1 c) (c_chisq_here c) (c_obs c);
  '(cpa, npa) ← add_both cpa npa (c_ant2 c) (c_chisq_here c) (c_obs c);
  OK (ChisqOut chisq nObs cpa npa).

Variable model : gmap (Z * Z * string) (waterfall C).
Variable data_wgts : gmap (Z * Z * string) (waterfall F).
Variable gains : option (gmap (Z * string) (waterfall C)).
Variable gain_flags : option (gmap (Z * string) (waterfall bool)).
Variable split_by_antpol : bool.

(** Lines 824-843. *)
Definition visit (it : (Z * Z * string) * waterfall C)
  : result (option contribution) :=
  let bl := it.1 in
  '(ap1, ap2) ← split_pol polstr2num jstr2num jnum2str bl.2;
  if has_key model bl && has_key data_wgts bl
     && (negb split_by_antpol || String.eqb ap1 ap2) then
    let ant1 := (bl.1.1, ap1) in
    let ant2 := (bl.1.2, ap2) in
    model_bl ← getitem model bl;
    model_here ←
      match gains with
      | Some g =>
          g1 ← getitem g ant1;
          g2 ← getitem g ant2;
          OK (wf_zip c_mul (wf_zip c_mul model_bl g1) (wf_map c_conj g2))
      | None => OK model_bl
      end;
    wgts_bl ← getitem data_wgts bl;
    wgts ←
      match gain_flags with
      | Some gf =>
          f1 ← getitem gf ant1;
          f2 ← getitem gf ant2;
          OK (wf_zip f_mul (wf_zip f_mul wgts_bl (wf_map f_not f1))
                     (wf_map f_not f2))
      | None => OK wgts_bl
      end;
    let chisq_here :=
      wf_zip f_mul (wf_map c_abs (wf_zip c_sub model_here it.2)) wgts in
    OK (Some (Contribution ap1 ant1 ant2 chisq_here (wf_map f_pos wgts)))
  else OK None.

(** One iteration of the loop of lines 823-866. *)
Definition chisq_step (acc : chisq_out) (it : (Z * Z * string) * waterfall C)
  : result chisq_out :=
  oc ← visit it;
  match oc with
  | Some c => accumulate split_by_antpol acc c
  | None => OK acc
  end.

(** Lines 806-814. *)
Definition init_chisq_nObs (data : list ((Z * Z * string) * waterfall C))
    (chisq : option (accum F)) (nObs : option (accum Z))
  : result (accum F * accum Z) :=
  match chisq, nObs with
  | None, None =>
      if split_by_antpol then OK (AccDict ∅, AccDict ∅)
      else
        d0 ← first data;
        OK (AccArr (wf_full f_zero d0.2), AccArr (wf_full 0 d0.2))
  | Some c, Some n => OK (c, n)
  | _, _ =>
      Raise (ValueError "Both chisq and nObs must be specified or nor neither can be.")
  end.

(** Lines 817-821. *)
Definition init_per_ant
    (chisq_per_ant : option (gmap (Z * string) (waterfall F)))
    (nObs_per_ant : option (gmap (Z * string) (waterfall Z)))
  : result (gmap (Z * string) (waterfall F) * gmap (Z * string) (waterfall Z)) :=
  match chisq_per_ant, nObs_per_ant with
  | None, None => OK (∅, ∅)
  | Some c, Some n => OK (c, n)
  | _, _ =>
      Raise (ValueError
        "Both chisq_per_ant and nObs_per_ant must be specified or nor neither can be.")
  end.

(** [chisq], lines 757-867. *)
Definition chisq (data : list ((Z * Z * string) * waterfall C))
    (chisq : option (accum F)) (nObs : option (accum Z))
    (chisq_per_ant : option (gmap (Z * string) (waterfall F)))
    (nObs_per_ant : option (gmap (Z * string) (waterfall Z)))
  : result chisq_out :=
  '(c, n) ← init_chisq_nObs data chisq nObs;
  '(cpa, npa) ← init_per_ant chisq_per_ant nObs_per_ant;
  foldM chisq_step (ChisqOut c n cpa npa) data.
End Arithmetic.
End Generic.

(** At real arithmetic the code with open arithmetic is the embedding of
    [chisq] used so far. *)
Definition real_out (o : Generic.chisq_out R) : chisq_out :=
  ChisqOut (Generic.out_chisq R o) (Generic.out_nObs R o)
           (Generic.out_chisq_per_ant R o) (Generic.out_nObs_per_ant R o).

Lemma generic_add_both_real `{Countable K} (c : gmap K (waterfall R))
    (n : gmap K (waterfall Z)) (k : K) (here : waterfall R) (obs : waterfall Z) :
  Generic.add_both R Rplus c n k here obs = add_both c n k here obs.
Proof. reflexivity. Qed.

Lemma generic_chisq_step_real
    (polstr2num jstr2num : string → result Z) (jnum2str : Z → result string)
    (model : gmap (Z * Z * string) (waterfall complex))
    (data_wgts : gmap (Z * Z * string) (waterfall R))
    (gains : option (gmap (Z * string) (waterfall complex)))
    (gain_flags : option (gmap (Z * string) (waterfall bool)))
    (split_by_antpol : bool) (acc : Generic.chisq_out R)
    (it : (Z * Z * string) * waterfall complex) :
  chisq_step polstr2num jstr2num jnum2str model data_wgts gains gain_flags
    split_by_antpol (real_out acc) it
  = (Generic.chisq_step R complex Rplus Rmult Rpos_Z not_flag_R Csub Cmul Cconj
       Cabs polstr2num jstr2num jnum2str model data_wgts gains gain_flags
       split_by_antpol acc it
     ≫= fun o => OK (real_out o)).
Proof.
  unfold chisq_step, Generic.chisq_step, visit, Generic.visit.
  destruct (split_pol polstr2num jstr2num jnum2str it.1.2) as [[ap1 ap2]|e];
    simpl; [|done].
  destruct (has_key model it.1 && has_key data_wgts it.1
            && (negb split_by_antpol || String.eqb ap1 ap2)); simpl;
    [|by destruct acc].
  destruct (getitem model it.1) as [model_bl|e]; simpl; [|done].
  destruct (match gains with
            | Some g => _
            | None => OK model_bl
            end) as [model_here|e]; simpl; [|done].
  destruct (getitem data_wgts it.1) as [wgts_bl|e]; simpl; [|done].
  destruct (match gain_flags with
            | Some gf => _
            | None => OK wgts_bl
            end) as [wgts|e]; simpl; [|done].
  unfold accumulate, Generic.accumulate. destruct acc as [c n cpa npa].
  unfold real_out. cbn [Generic.out_chisq Generic.out_nObs
    Generic.out_chisq_per_ant Generic.out_nObs_per_ant out_chisq out_nObs
    out_chisq_per_ant out_nObs_per_ant Generic.c_ap1 Generic.c_ant1 Generic.c_ant2
    Generic.c_chisq_here Generic.c_obs c_ap1 c_ant1 c_ant2 c_chisq_here c_obs].
  change (@Generic.add_both R Rplus) with (@add_both).
  destruct split_by_antpol, c as [cw|cd], n as [nw|nd]; simpl; try done.
  - destruct (add_both cd nd ap1 _ _) as [[cd' nd']|e]; simpl; [|done].
    destruct (add_both cpa npa _ _ _) as [[cpa1 npa1]|e]; simpl; [|done].
    by destruct (add_both cpa1 npa1 _ _ _) as [[cpa2 npa2]|e].
  - destruct (add_both cpa npa _ _ _) as [[cpa1 npa1]|e]; simpl; [|done].
    by destruct (add_both cpa1 npa1 _ _ _) as [[cpa2 npa2]|e].
Qed.

Lemma generic_chisq_real
    (polstr2num jstr2num : string → result Z) (jnum2str : Z → result string)
    (model : gmap (Z * Z * string) (waterfall complex))
    (data_wgts : gmap (Z * Z * string) (waterfall R))
    (gains : option (gmap (Z * string) (waterfall complex)))
    (gain_flags : option (gmap (Z * string) (waterfall bool)))
    (split_by_antpol : bool)
    (data : list ((Z * Z * string) * waterfall complex))
    (c : option (accum R)) (n : option (accum Z))
    (cpa : option (gmap (Z * string) (waterfall R)))
    (npa : option (gmap (Z * string) (waterfall Z))) :
  chisq polstr2num jstr2num jnum2str model data_wgts gains gain_flags
    split_by_antpol data c n cpa npa
  = (Generic.chisq R complex 0%R Rplus Rmult Rpos_Z not_flag_R Csub Cmul Cconj
       Cabs polstr2num jstr2num jnum2str model data_wgts gains gain_flags
       split_by_antpol data c n cpa npa
     ≫= fun o => OK (real_out o)).
Proof.
  unfold chisq, Generic.chisq.
  change (Generic.init_chisq_nObs R complex 0%R split_by_antpol data c n)
    with (init_chisq_nObs split_by_antpol data c n).
  destruct (init_chisq_nObs split_by_antpol data c n) as [[c0 n0]|e]; simpl; [|done].
  change (Generic.init_per_ant R cpa npa) with (init_per_ant cpa npa).
  destruct (init_per_ant cpa npa) as [[cpa0 npa0]|e]; simpl; [|done].
  change (ChisqOut c0 n0 cpa0 npa0)
    with (real_out (Generic.ChisqOut R c0 n0 cpa0 npa0)).
  generalize (Generic.ChisqOut R c0 n0 cpa0 npa0). clear.
  induction data as [|it data IH]; intros acc; simpl; [done|].
  rewrite generic_chisq_step_real.
  destruct (Generic.chisq_step _ _ _ _ _ _ _ _ _ _ _ _ _ _ _ _ _ _ acc it)
    as [acc1|e]; simpl; [apply IH | done].
Qed.

(** X25.  Splitting in iteration order is exact in any arithmetic.  When the
    first call takes a first part of the baselines, not empty, in the order
    in which the single call visits them, and the second call the rest with
    the four outputs of the first, then both calls perform the additions of
    the single call in the same order: the second call returns, or raises,
    exactly what the single call does, whatever the arithmetic, so also
    in float64 with its rounding. *)
Theorem chisq_split_in_order (F C : Type) (f_zero : F) (f_add f_mul : F → F → F)
    (f_pos : F → Z) (f_not : bool → F) (c_sub c_mul : C → C → C)
    (c_conj : C → C) (c_abs : C → F)
    (polstr2num jstr2num : string → result Z) (jnum2str : Z → result string)
    (model : gmap (Z * Z * string) (waterfall C))
    (data_wgts : gmap (Z * Z * string) (waterfall F))
    (gains : option (gmap (Z * string) (waterfall C)))
    (gain_flags : option (gmap (Z * string) (waterfall bool)))
    (split_by_antpol : bool)
    (data1 data2 : list ((Z * Z * string) * waterfall C)) :
  let run := Generic.chisq F C f_zero f_add f_mul f_pos f_not c_sub c_mul c_conj
               c_abs polstr2num jstr2num jnum2str model data_wgts gains
               gain_flags split_by_antpol in
  data1 ≠ [] →
  run (data1 ++ data2) None None None None
  = (run data1 None None None None ≫= fun out1 =>
     run data2 (Some (Generic.out_chisq F out1)) (Some (Generic.out_nObs F out1))
       (Some (Generic.out_chisq_per_ant F out1))
       (Some (Generic.out_nObs_per_ant F out1))).
Proof.
  intros run Hne. unfold run, Generic.chisq.
  assert (Hinit : Generic.init_chisq_nObs F C f_zero split_by_antpol
                    (data1 ++ data2) None None
                  = Generic.init_chisq_nObs F C f_zero split_by_antpol
                      data1 None None).
  { unfold Generic.init_chisq_nObs. destruct split_by_antpol; [done|].
    by destruct data1. }
  rewrite Hinit.
  destruct (Generic.init_chisq_nObs F C f_zero split_by_antpol data1 None None)
    as [[c n]|e]; simpl; [|done].
  rewrite foldM_app.
  destruct (foldM _ _ data1) as [[c1 n1 cpa1 npa1]|e]; simpl; done.
Qed.

(** The arithmetic of numpy's [float64] and [complex128]: IEEE 754 binary64
    with rounding to nearest, which the primitive floats are. *)
Module Float64.
Import PrimFloat.

Definition complex : Type := float * float.

(** [w > 0] as an integer; false on nan. *)
Definition pos (w : float) : Z := if PrimFloat.ltb 0%float w then 1 else 0.

(** [~f] on a boolean, as a float factor. *)
Definition not_flag (f : bool) : float := if f then 0%float else 1%float.

(** Complex subtraction, multiplication and conjugate, component by
    component as numpy's loops compute them. *)
Definition Csub (a b : complex) : complex :=
  (PrimFloat.sub a.1 b.1, PrimFloat.sub a.2 b.2).
Definition Cmul (a b : complex) : complex :=
  (PrimFloat.sub (PrimFloat.mul a.1 b.1) (PrimFloat.mul a.2 b.2),
   PrimFloat.add (PrimFloat.mul a.1 b.2) (PrimFloat.mul a.2 b.1)).
Definition Cconj (a : complex) : complex := (a.1, PrimFloat.opp a.2).

(** [np.abs] of a complex number is the C library's [hypot].  The square
    root of the sum of the squares is [hypot] where the squares and their sum
    are exact, as for the residuals 1+0j of the example below; elsewhere the
    two can differ in the last bit, or by an overflow of the squares. *)
Definition Cabs (a : complex) : float :=
  PrimFloat.sqrt (PrimFloat.add (PrimFloat.mul a.1 a.1) (PrimFloat.mul a.2 a.2)).

(** [chisq] on float64 arrays. *)
Definition chisq :=
  Generic.chisq float complex 0%float PrimFloat.add PrimFloat.mul pos not_flag
    Csub Cmul Cconj Cabs.

(** Three baselines with data 1+0j and model 0, the first with the weight
    1e16, the others with the weight 1. *)
Definition bl1 : Z * Z * string := (0, 1, "xx"%string).
Definition bl2 : Z * Z * string := (0, 2, "xx"%string).
Definition bl3 : Z * Z * string := (1, 2, "xx"%string).
Definition unit_data (bl : Z * Z * string) : (Z * Z * string) * waterfall complex :=
  (bl, [[ (1%float, 0%float) ]]).
Definition zero_model : gmap (Z * Z * string) (waterfall complex) :=
  {[ bl1 := [[ (0%float, 0%float) ]]; bl2 := [[ (0%float, 0%float) ]];
     bl3 := [[ (0%float, 0%float) ]] ]}.
Definition uneven_wgts : gmap (Z * Z * string) (waterfall float) :=
  {[ bl1 := [[ 1e16%float ]]; bl2 := [[ 1%float ]]; bl3 := [[ 1%float ]] ]}.
Definition big : float := 1e16%float.
Definition big_plus_two : float := 10000000000000002%float.
End Float64.

(** C4, as stated, fails in float64 for a partition that changes the order of
    the additions.  Three baselines give the chi-square terms 1e16, 1 and 1.
    The single call adds them in this order: 1e16 + 1 rounds to 1e16, twice.
    Called on the second and third baseline first and then, with the four
    outputs, on the first, [chisq] adds 1 + 1 = 2 and then 2 + 1e16, which is
    exact: the two chi-square arrays differ in the last bit. *)
Lemma chisq_float64_split_differs :
  ∃ out out1 out2,
    Float64.chisq Pyuvdata.polstr2num Pyuvdata.jstr2num Pyuvdata.jnum2str
      Float64.zero_model Float64.uneven_wgts None None false
      [Float64.unit_data Float64.bl1; Float64.unit_data Float64.bl2;
       Float64.unit_data Float64.bl3]
      None None None None = OK out
    ∧ Float64.chisq Pyuvdata.polstr2num Pyuvdata.jstr2num Pyuvdata.jnum2str
        Float64.zero_model Float64.uneven_wgts None None false
        [Float64.unit_data Float64.bl2; Float64.unit_data Float64.bl3]
        None None None None = OK out1
    ∧ Float64.chisq Pyuvdata.polstr2num Pyuvdata.jstr2num Pyuvdata.jnum2str
        Float64.zero_model Float64.uneven_wgts None None false
        [Float64.unit_data Float64.bl1]
        (Some (Generic.out_chisq _ out1)) (Some (Generic.out_nObs _ out1))
        (Some (Generic.out_chisq_per_ant _ out1))
        (Some (Generic.out_nObs_per_ant _ out1)) = OK out2
    ∧ Generic.out_chisq _ out = AccArr [[ Float64.big ]]
    ∧ Generic.out_chisq _ out2 = AccArr [[ Float64.big_plus_two ]]
    ∧ PrimFloat.eqb Float64.big Float64.big_plus_two = false.
Proof.
  assert (Hruns :
    match Float64.chisq Pyuvdata.polstr2num Pyuvdata.jstr2num Pyuvdata.jnum2str
            Float64.zero_model Float64.uneven_wgts None None false
            [Float64.unit_data Float64.bl1; Float64.unit_data Float64.bl2;
             Float64.unit_data Float64.bl3] None None None None with
    | OK out =>
        match Float64.chisq Pyuvdata.polstr2num Pyuvdata.jstr2num
                Pyuvdata.jnum2str Float64.zero_model Float64.uneven_wgts None None
                false [Float64.unit_data Float64.bl2; Float64.unit_data Float64.bl3]
                None None None None with
        | OK out1 =>
            match Float64.chisq Pyuvdata.polstr2num Pyuvdata.jstr2num
                    Pyuvdata.jnum2str Float64.zero_model Float64.uneven_wgts None
                    None false [Float64.unit_data Float64.bl1]
                    (Some (Generic.out_chisq _ out1)) (Some (Generic.out_nObs _ out1))
                    (Some (Generic.out_chisq_per_ant _ out1))
                    (Some (Generic.out_nObs_per_ant _ out1)) with
            | OK out2 =>
                Generic.out_chisq _ out = AccArr [[ Float64.big ]]
                ∧ Generic.out_chisq _ out2 = AccArr [[ Float64.big_plus_two ]]
            | Raise _ => False
            end
        | Raise _ => False
        end
    | Raise _ => False
    end) by (vm_compute; split; reflexivity).
  destruct (Float64.chisq _ _ _ _ _ _ _ _ [_; _; _] _ _ _ _) as [out|e];
    [|destruct Hruns].
  destruct (Float64.chisq _ _ _ _ _ _ _ _ [_; _] _ _ _ _) as [out1|e];
    [|destruct Hruns].
  exists out, out1.
  destruct (Float64.chisq _ _ _ _ _ _ _ _ [_] _ _ _ _) as [out2|e];
    [|destruct Hruns].
  destruct Hruns as [Hfull Hsplit].
  exists out2.
  split; [reflexivity|]. split; [reflexivity|]. split; [reflexivity|].
  split; [exact Hfull|]. split; [exact Hsplit|]. reflexivity.
Qed.

Lemma chisq_split_in_order_witness :
  Float64.chisq Pyuvdata.polstr2num Pyuvdata.jstr2num Pyuvdata.jnum2str
    Float64.zero_model Float64.uneven_wgts None None false
    ([Float64.unit_data Float64.bl1; Float64.unit_data Float64.bl2]
       ++ [Float64.unit_data Float64.bl3]) None None None None
  = (Float64.chisq Pyuvdata.polstr2num Pyuvdata.jstr2num Pyuvdata.jnum2str
       Float64.zero_model Float64.uneven_wgts None None false
       [Float64.unit_data Float64.bl1; Float64.unit_data Float64.bl2]
       None None None None ≫= fun out1 =>
     Float64.chisq Pyuvdata.polstr2num Pyuvdata.jstr2num Pyuvdata.jnum2str
       Float64.zero_model Float64.uneven_wgts None None false
       [Float64.unit_data Float64.bl3]
       (Some (Generic.out_chisq _ out1)) (Some (Generic.out_nObs _ out1))
       (Some (Generic.out_chisq_per_ant _ out1))
       (Some (Generic.out_nObs_per_ant _ out1))).
Proof.
  unfold Float64.chisq.
  apply (chisq_split_in_order PrimFloat.float Float64.complex).
  discriminate.
Defined.

(** ** firstcal.py: [FirstCalRedundantInfo.init_from_reds] *)

(** Line 170: [[(bl1,bl2) for ublgp in reds for i,bl1 in enumerate(ublgp)
                          for bl2 in ublgp[i+1:]]]. *)
Definition pairs_in_group (ublgp : list (Z * Z)) : list ((Z * Z) * (Z * Z)) :=
  concat (imap (fun i bl1 => (fun bl2 => (bl1, bl2)) <$> drop (S i) ublgp) ublgp).

Definition bl_pairs_of (reds : list (list (Z * Z))) : list ((Z * Z) * (Z * Z)) :=
  concat (pairs_in_group <$> reds).

(** [A[n, i] += v] on a 2D array: [IndexError] out of range. *)
Definition add_at (A : list (list Z)) (n i : nat) (v : Z) : result (list (list Z)) :=
  row ← index A n;
  x ← index row i;
  OK (<[n := <[i := x + v]> row]> A).

Section FirstCal.
(** omnical's [RedundantInfo] after [init_same(reds)]: the column of an
    antenna, and the number of antennas [len(self.subsetant)]. *)
Variable ant_index : Z → nat.
Variable nsubsetant : nat.

(** [map(self.ant_index, np.array(bp).flatten())] *)
Definition antind_of (bp : (Z * Z) * (Z * Z)) : list nat :=
  ant_index <$> [bp.1.1; bp.1.2; bp.2.1; bp.2.2].

(** The dictionary that [blpair2antind] builds when its lookup fails. *)
Definition build_blpair2antind (bl_pairs : list ((Z * Z) * (Z * Z)))
  : gmap ((Z * Z) * (Z * Z)) (list nat) :=
  foldl (fun m bp => <[bp := antind_of bp]> m) ∅ bl_pairs.

(** [blpair2antind]: the memoised lookup; any failure of the first lookup
    (no dictionary yet, or no such key) rebuilds the dictionary from
    [self.bl_pairs].  Returns the value and the dictionary now stored. *)
Definition blpair2antind
    (cache : option (gmap ((Z * Z) * (Z * Z)) (list nat)))
    (bl_pairs : list ((Z * Z) * (Z * Z))) (bp : (Z * Z) * (Z * Z))
  : result (list nat * option (gmap ((Z * Z) * (Z * Z)) (list nat))) :=
  match cache ≫= fun c => c !! bp with
  | Some v => OK (v, cache)
  | None =>
      let c := build_blpair2antind bl_pairs in
      v ← getitem c bp;
      OK (v, Some c)
  end.

(** Lines 172-177: one row of A. *)
Definition fill_row (bl_pairs : list ((Z * Z) * (Z * Z)))
    (st : list (list Z) * option (gmap ((Z * Z) * (Z * Z)) (list nat)))
    (item : nat * ((Z * Z) * (Z * Z)))
  : result (list (list Z) * option (gmap ((Z * Z) * (Z * Z)) (list nat))) :=
  let '(A, cache) := st in
  let '(n, bp) := item in
  '(ind, cache) ← blpair2antind cache bl_pairs bp;
  match ind with
  | [i; j; k; l] =>
      A ← add_at A n i 1;
      A ← add_at A n j (-1);
      A ← add_at A n k (-1);
      A ← add_at A n l 1;
      OK (A, cache)
  | _ => Raise (ValueError "unpack")
  end.

(** Lines 170-178 of [init_from_reds]: [self.bl_pairs] and [self.A] (and the
    memo dictionary of [blpair2antind]), from the memo [cache] the object
    holds at the call. *)
Definition init_from_reds
    (cache : option (gmap ((Z * Z) * (Z * Z)) (list nat)))
    (reds : list (list (Z * Z)))
  : result (list ((Z * Z) * (Z * Z)) * list (list Z)
            * option (gmap ((Z * Z) * (Z * Z)) (list nat))) :=
  let bl_pairs := bl_pairs_of reds in
  let A := replicate (length bl_pairs) (replicate nsubsetant 0) in
  '(A, cache) ← foldM (fill_row bl_pairs) (A, cache)
                   (zip (seq 0 (length bl_pairs)) bl_pairs);
  OK (bl_pairs, A, cache).

(** The coefficient the code leaves in column [c] of the row of a pair. *)
Definition coeff (ind : list nat) (c : nat) : Z :=
  match ind with
  | [i; j; k; l] =>
      (if decide (c = i) then 1 else 0) - (if decide (c = j) then 1 else 0)
      - (if decide (c = k) then 1 else 0) + (if decide (c = l) then 1 else 0)
  | _ => 0
  end.

Definition row_of (bp : (Z * Z) * (Z * Z)) : list Z :=
  coeff (antind_of bp) <$> seq 0 nsubsetant.
End FirstCal.


Lemma pairs_in_group_cons (b : Z * Z) (g : list (Z * Z)) :
  pairs_in_group (b :: g) = ((fun bl2 => (b, bl2)) <$> g) ++ pairs_in_group g.
Proof.
  unfold pairs_in_group. rewrite imap_cons. simpl. f_equal.
Qed.

(** The pairs of a group are its pairs of positions p < q, each once, the
    earlier baseline first. *)
Lemma pairs_in_group_positions (g : list (Z * Z)) :
  ∃ idx : list (nat * nat),
    NoDup idx
    ∧ (∀ p q, (p, q) ∈ idx ↔ (p < q < length g)%nat)
    ∧ Forall2 (fun pr pq => g !! pq.1 = Some pr.1 ∧ g !! pq.2 = Some pr.2)
        (pairs_in_group g) idx.
Proof.
  induction g as [|b g (idx & Hnd & Hin & Hf)].
  - exists []. split; [constructor|]. split; [|constructor].
    intros p q. rewrite elem_of_nil. simpl. lia.
  - exists (((fun q => (0, S q))%nat <$> seq 0 (length g))
            ++ ((fun pq => (S pq.1, S pq.2)) <$> idx)).
    split; [|split].
    + apply NoDup_app. split; [|split].
      * apply NoDup_fmap_2; [|apply NoDup_seq]. intros x y [=]. done.
      * intros [p q] (x & [= -> ->] & _)%list_elem_of_fmap
                     ([p' q'] & [=] & _)%list_elem_of_fmap.
      * apply NoDup_fmap_2; [|done]. intros [? ?] [? ?] [=]. by subst.
    + intros p q. rewrite elem_of_app, !list_elem_of_fmap. simpl. split.
      * intros [(x & [= -> ->] & Hx)|([p' q'] & [= -> ->] & Hpq)].
        -- apply elem_of_seq in Hx. lia.
        -- apply Hin in Hpq. lia.
      * intros Hpq. destruct p as [|p].
        -- left. exists (q - 1)%nat. split; [f_equal; lia|].
           apply elem_of_seq. lia.
        -- right. destruct q as [|q]; [lia|]. exists (p, q). split; [done|].
           apply Hin. lia.
    + rewrite pairs_in_group_cons. apply Forall2_app.
      * apply Forall2_fmap. clear.
        assert (Hgen : ∀ (pre g' : list (Z * Z)),
           Forall2 (fun (bl2 : Z * Z) (q : nat) =>
                      (b :: pre ++ g') !! 0%nat = Some b
                      ∧ (b :: pre ++ g') !! S (length pre + q) = Some bl2)
                   g' (seq 0 (length g'))).
        { intros pre g'. revert pre. induction g' as [|x g' IH]; intros pre.
          - constructor.
          - simpl. constructor.
            + split; [done|]. rewrite Nat.add_0_r.
              by rewrite lookup_app_r, Nat.sub_diag.
            + rewrite <- fmap_S_seq. apply Forall2_fmap_r.
              specialize (IH (pre ++ [x])).
              eapply Forall2_impl; [exact IH|].
              intros bl2 q [_ H2]. split; [done|]. simpl in *.
              rewrite <- app_assoc in H2. simpl in H2.
              rewrite length_app in H2. simpl in H2.
              by replace (length pre + S q)%nat with (length pre + 1 + q)%nat by lia. }
        specialize (Hgen [] g). simpl in Hgen.
        eapply Forall2_impl; [exact Hgen|]. intros bl2 q [H1 H2]. done.
      * apply Forall2_fmap_r. eapply Forall2_impl; [exact Hf|].
        intros pr [p q] [H1 H2]. done.
Qed.

Lemma pairs_in_group_small (g : list (Z * Z)) :
  (length g < 2)%nat → pairs_in_group g = [].
Proof.
  destruct g as [|b [|b' g]]; simpl; [done|done|lia].
Qed.

Lemma pairs_in_group_elem (g : list (Z * Z)) (bl1 bl2 : Z * Z) :
  (bl1, bl2) ∈ pairs_in_group g → bl1 ∈ g ∧ bl2 ∈ g.
Proof.
  induction g as [|b g IH]; [by intros ?%elem_of_nil|].
  rewrite pairs_in_group_cons.
  intros [(x & [= -> ->] & Hx)%list_elem_of_fmap|Hin]%elem_of_app.
  - split; [by left | by right].
  - destruct (IH Hin). split; by right.
Qed.

Section FirstCalFacts.
Variable ant_index : Z → nat.
Variable nsubsetant : nat.

Abbreviation table := (build_blpair2antind ant_index).
Abbreviation zero_row := (replicate nsubsetant 0).

Lemma build_blpair2antind_lookup (bl_pairs : list ((Z * Z) * (Z * Z)))
    (bp : (Z * Z) * (Z * Z)) :
  bp ∈ bl_pairs → table bl_pairs !! bp = Some (antind_of ant_index bp).
Proof.
  unfold build_blpair2antind.
  assert (Hgen : ∀ (m : gmap ((Z * Z) * (Z * Z)) (list nat)),
            (bp ∈ bl_pairs ∨ m !! bp = Some (antind_of ant_index bp)) →
            foldl (fun m bp => <[bp := antind_of ant_index bp]> m) m bl_pairs !! bp
            = Some (antind_of ant_index bp)).
  { induction bl_pairs as [|x l IH]; intros m [Hin|Hm]; simpl.
    - by apply elem_of_nil in Hin.
    - done.
    - apply IH. apply elem_of_cons in Hin as [->|Hin]; [right|by left].
      apply lookup_insert_eq.
    - apply IH. right. destruct (decide (x = bp)) as [->|Hne].
      + apply lookup_insert_eq.
      + by rewrite lookup_insert_ne. }
  intros Hin. apply Hgen. by left.
Qed.

(** The memo gives the indices of the pair, whether it was filled or not. *)
Lemma blpair2antind_spec cache (bl_pairs : list ((Z * Z) * (Z * Z)))
    (bp : (Z * Z) * (Z * Z)) :
  cache = None ∨ cache = Some (table bl_pairs) → bp ∈ bl_pairs →
  blpair2antind ant_index cache bl_pairs bp
  = OK (antind_of ant_index bp, Some (table bl_pairs)).
Proof.
  intros Hc Hin. unfold blpair2antind, getitem.
  destruct Hc as [-> | ->]; simpl; by rewrite build_blpair2antind_lookup.
Qed.

Lemma add_at_spec (A : list (list Z)) (n i : nat) (v : Z) (row : list Z) :
  A !! n = Some row → (i < length row)%nat →
  ∃ row', add_at A n i v = OK (<[n := row']> A)
          ∧ length row' = length row
          ∧ ∀ c, row' !! c = (fun y => y + if decide (c = i) then v else 0) <$> row !! c.
Proof.
  intros Hrow Hi. destruct (lookup_lt_is_Some_2 row i Hi) as [x Hx].
  exists (<[i := x + v]> row). unfold add_at, index. rewrite Hrow. simpl.
  rewrite Hx. simpl. split; [done|]. split; [apply length_insert|].
  intros c. destruct (decide (c = i)) as [->|Hne].
  - rewrite list_lookup_insert_eq by done. by rewrite Hx.
  - rewrite list_lookup_insert_ne by done.
    destruct (row !! c); simpl; [f_equal; lia | done].
Qed.

(** The four updates of one iteration turn a zero row into the row of the pair. *)
Lemma fill_row_spec (bl_pairs : list ((Z * Z) * (Z * Z))) cache
    (P R : list (list Z)) (bp : (Z * Z) * (Z * Z)) :
  cache = None ∨ cache = Some (table bl_pairs) → bp ∈ bl_pairs →
  Forall (fun i => (i < nsubsetant)%nat) (antind_of ant_index bp) →
  fill_row ant_index bl_pairs (P ++ zero_row :: R, cache) (length P, bp)
  = OK ((P ++ [row_of ant_index nsubsetant bp]) ++ R, Some (table bl_pairs)).
Proof.
  intros Hc Hin Hlt. unfold fill_row.
  rewrite blpair2antind_spec by done. simpl.
  unfold row_of, antind_of in *. simpl in *.
  apply Forall_cons in Hlt as [Hi Hlt]. apply Forall_cons in Hlt as [Hj Hlt].
  apply Forall_cons in Hlt as [Hk Hlt]. apply Forall_cons in Hlt as [Hl _].
  set (A0 := P ++ zero_row :: R).
  assert (HA0 : A0 !! length P = Some zero_row).
  { unfold A0. by rewrite lookup_app_r, Nat.sub_diag. }
  assert (HnA : (length P < length A0)%nat).
  { unfold A0. rewrite length_app. simpl. lia. }
  destruct (add_at_spec A0 (length P) (ant_index bp.1.1) 1 zero_row HA0)
    as (r1 & -> & Hl1 & Hr1); [by rewrite length_replicate|]. simpl.
  destruct (add_at_spec (<[length P := r1]> A0) (length P) (ant_index bp.1.2) (-1) r1)
    as (r2 & -> & Hl2 & Hr2);
    [by apply list_lookup_insert_eq | rewrite Hl1; by rewrite length_replicate|].
  simpl. rewrite list_insert_insert_eq.
  destruct (add_at_spec (<[length P := r2]> A0) (length P) (ant_index bp.2.1) (-1) r2)
    as (r3 & -> & Hl3 & Hr3);
    [by apply list_lookup_insert_eq
    | rewrite Hl2, Hl1; by rewrite length_replicate|].
  simpl. rewrite list_insert_insert_eq.
  destruct (add_at_spec (<[length P := r3]> A0) (length P) (ant_index bp.2.2) 1 r3)
    as (r4 & -> & Hl4 & Hr4);
    [by apply list_lookup_insert_eq
    | rewrite Hl3, Hl2, Hl1; by rewrite length_replicate|].
  simpl. rewrite list_insert_insert_eq. do 2 f_equal.
  assert (Hrow : r4 = coeff [ant_index bp.1.1; ant_index bp.1.2;
                             ant_index bp.2.1; ant_index bp.2.2]
                       <$> seq 0 nsubsetant).
  { apply list_eq. intros c. rewrite Hr4, Hr3, Hr2, Hr1, list_lookup_fmap.
    destruct (decide (c < nsubsetant)%nat) as [Hc'|Hc'].
    - rewrite lookup_replicate_2 by done. rewrite lookup_seq_lt by done.
      simpl. f_equal. repeat case_decide; lia.
    - rewrite (proj1 (lookup_replicate_None nsubsetant 0 c)) by lia.
      by rewrite lookup_seq_ge by lia. }
  rewrite Hrow. unfold A0. rewrite <- app_assoc. simpl.
  rewrite insert_app_r_alt by done. by rewrite Nat.sub_diag.
Qed.
End FirstCalFacts.

Lemma fill_rows_spec (ant_index : Z → nat) (nsubsetant : nat)
    (bl_pairs rest : list ((Z * Z) * (Z * Z))) cache (P : list (list Z)) :
  cache = None ∨ cache = Some (build_blpair2antind ant_index bl_pairs) →
  (∀ bp, bp ∈ rest → bp ∈ bl_pairs
         ∧ Forall (fun i => (i < nsubsetant)%nat) (antind_of ant_index bp)) →
  ∃ cache',
    foldM (fill_row ant_index bl_pairs)
      (P ++ replicate (length rest) (replicate nsubsetant 0), cache)
      (zip (seq (length P) (length rest)) rest)
    = OK (P ++ (row_of ant_index nsubsetant <$> rest), cache').
Proof.
  revert P cache. induction rest as [|bp rest IH]; intros P cache Hc Hall.
  - exists cache. simpl. done.
  - destruct (Hall bp ltac:(by left)) as [Hin Hlt].
    cbn [length seq zip zip_with replicate]. rewrite foldM_cons.
    rewrite fill_row_spec by done. simpl.
    destruct (IH (P ++ [row_of ant_index nsubsetant bp])
                (Some (build_blpair2antind ant_index bl_pairs))) as [cache' Hrun].
    { by right. }
    { intros bp' Hbp'. apply Hall. by right. }
    exists cache'. rewrite length_app in Hrun. simpl in Hrun.
    rewrite Nat.add_1_r in Hrun. rewrite Hrun. by rewrite <- app_assoc.
Qed.

(** C3.  On a fresh object, with every antenna of [reds] having a column,
    [init_from_reds] sets [bl_pairs] to the pairs of each group in turn and A
    to one row per pair.  The pairs of a group are its pairs of positions
    p < q, each exactly once, so a group of fewer than two baselines gives
    none.  The row of the pair bl1=(i,j), bl2=(k,l) has in column c the sum of
    +1 if c is the column of i, -1 if of j, -1 if of k, +1 if of l. *)
Theorem init_from_reds_design_matrix (ant_index : Z → nat) (nsubsetant : nat)
    (reds : list (list (Z * Z))) :
  (∀ g bl, g ∈ reds → bl ∈ g →
     (ant_index bl.1 < nsubsetant)%nat ∧ (ant_index bl.2 < nsubsetant)%nat) →
  (∃ cache,
     init_from_reds ant_index nsubsetant None reds
     = OK (concat (pairs_in_group <$> reds),
           row_of ant_index nsubsetant <$> concat (pairs_in_group <$> reds),
           cache))
  ∧ (∀ g : list (Z * Z),
       ∃ idx : list (nat * nat),
         NoDup idx
         ∧ (∀ p q, (p, q) ∈ idx ↔ (p < q < length g)%nat)
         ∧ Forall2 (fun pr pq => g !! pq.1 = Some pr.1 ∧ g !! pq.2 = Some pr.2)
             (pairs_in_group g) idx)
  ∧ (∀ g : list (Z * Z), (length g < 2)%nat → pairs_in_group g = [])
  ∧ (∀ (i j k l : Z) (c : nat),
       row_of ant_index nsubsetant ((i, j), (k, l)) !! c
       = if decide (c < nsubsetant)%nat then
           Some ((if decide (c = ant_index i) then 1 else 0)
                 - (if decide (c = ant_index j) then 1 else 0)
                 - (if decide (c = ant_index k) then 1 else 0)
                 + (if decide (c = ant_index l) then 1 else 0))
         else None).
Proof.
  intros Hcols. split; [|split; [|split]].
  - destruct (fill_rows_spec ant_index nsubsetant (bl_pairs_of reds)
                (bl_pairs_of reds) None []) as [cache' Hrun].
    { by left. }
    { intros [bl1 bl2] Hbp. split; [done|].
      unfold bl_pairs_of in Hbp.
      apply list_elem_of_In, in_concat in Hbp as (ps & Hps & Hbp).
      apply list_elem_of_In in Hps, Hbp.
      apply list_elem_of_fmap in Hps as (g & -> & Hg).
      apply pairs_in_group_elem in Hbp as [H1 H2].
      destruct (Hcols g bl1 Hg H1), (Hcols g bl2 Hg H2).
      unfold antind_of. simpl. repeat constructor; done. }
    exists cache'. unfold init_from_reds. simpl in Hrun. rewrite Hrun. done.
  - apply pairs_in_group_positions.
  - apply pairs_in_group_small.
  - intros i j k l c. unfold row_of. rewrite list_lookup_fmap.
    case_decide as Hc.
    + by rewrite lookup_seq_lt.
    + by rewrite lookup_seq_ge by lia.
Qed.

Definition example_reds : list (list (Z * Z)) :=
  [[(0, 1); (1, 2)]; [(0, 2)]].

Lemma init_from_reds_design_matrix_witness :
  ∃ cache,
    init_from_reds Z.to_nat 3 None example_reds
    = OK ([((0, 1), (1, 2))], [[1; -2; 1]], cache).
Proof.
  destruct (init_from_reds_design_matrix Z.to_nat 3 example_reds) as [Hrun _].
  - intros g bl Hg Hbl. unfold example_reds in Hg.
    repeat (apply elem_of_cons in Hg as [->|Hg]);
      [| |by apply elem_of_nil in Hg];
      repeat (apply elem_of_cons in Hbl as [->|Hbl]);
      try (by apply elem_of_nil in Hbl); simpl; lia.
  - exact Hrun.
Defined.

(** ** abscal.py: [AbsCal.make_gains] *)

(** The attributes of an [AbsCal] object that [make_gains] reads.  A solved
    component is an attribute that exists; [antpos] always exists and is
    [None] when no antenna positions were given.  An array is read through
    its entries: [gain_amp] and [gain_psi] at (time, freq, pol), [gain_phi]
    at (0 or 1, time, freq, pol), [antpos] at (antenna, coordinate), with the
    shapes the class gives them. *)
Record AbsCal : Type := {
  gain_amp : option (nat → nat → nat → R);
  gain_psi : option (nat → nat → nat → R);
  gain_phi : option (nat → nat → nat → nat → R);
  antpos : option (nat → nat → R)
}.

(** [self.name]: [AttributeError] when the attribute does not exist. *)
Definition getattr {A} (attr : option A) : result A :=
  match attr with
  | Some a => OK a
  | None => Raise AttributeError
  end.

(** [x[...]] on a value that may be [None]: [TypeError] on [None]. *)
Definition subscript {A} (x : option A) : result A :=
  match x with
  | Some a => OK a
  | None => Raise TypeError
  end.

(** [try: body  except AttributeError: echo(...)], the state staying [st]
    when the handler runs. *)
Definition try_except_AttributeError {A} (body : result A) (st : A) : result A :=
  match body with
  | Raise AttributeError => OK st
  | r => r
  end.

(** [np.exp(-1j * x)] *)
Definition exp_neg_i (x : R) : complex := Cexp (Cmul (0%R, (-1)%R) (RtoC x)).

(** Lines 334-358. *)
Definition make_gains (self : AbsCal) : result (nat → nat → nat → nat → complex) :=
  let gain_array : nat → nat → nat → nat → complex := fun _ _ _ _ => RtoC 1 in
  gain_array ← try_except_AttributeError
    (amps ← getattr (gain_amp self);
     OK (fun h j k l => Cmul (gain_array h j k l) (RtoC (amps j k l))))
    gain_array;
  gain_array ← try_except_AttributeError
    (psi ← getattr (gain_psi self);
     let gain_phase := fun j k l => exp_neg_i (psi j k l) in
     OK (fun h j k l => Cmul (gain_array h j k l) (gain_phase j k l)))
    gain_array;
  gain_array ← try_except_AttributeError
    (phi ← getattr (gain_phi self);
     pos ← subscript (antpos self);
     let gain_phase := fun h j k l =>
       exp_neg_i (phi 0%nat j k l * pos h 0%nat + phi 1%nat j k l * pos h 1%nat) in
     OK (fun h j k l => Cmul (gain_array h j k l) (gain_phase h j k l)))
    gain_array;
  OK gain_array.

Lemma Cmul_one_r (z : complex) : Cmul z (RtoC 1) = z.
Proof. destruct z as [a b]. unfold Cmul, RtoC. simpl. f_equal; lra. Qed.

Lemma exp_neg_i_cos_sin (x : R) : exp_neg_i x = (cos x, (- sin x)%R).
Proof.
  unfold exp_neg_i, Cexp, Cmul, RtoC. simpl.
  replace (0 * x - -1 * 0)%R with 0%R by lra.
  replace (0 * 0 + -1 * x)%R with (- x)%R by lra.
  rewrite exp_0, cos_neg, sin_neg. f_equal; lra.
Qed.

(** The factor a component contributes to the gain of antenna h at (j,k,l). *)
Definition amp_factor (self : AbsCal) (j k l : nat) : complex :=
  match gain_amp self with
  | Some amps => RtoC (amps j k l)
  | None => RtoC 1
  end.
Definition psi_factor (self : AbsCal) (j k l : nat) : complex :=
  match gain_psi self with
  | Some psi => (cos (psi j k l), (- sin (psi j k l))%R)
  | None => RtoC 1
  end.
Definition phi_factor (self : AbsCal) (h j k l : nat) : complex :=
  match gain_phi self, antpos self with
  | Some phi, Some pos =>
      let x := (phi 0%nat j k l * pos h 0%nat + phi 1%nat j k l * pos h 1%nat)%R in
      (cos x, (- sin x)%R)
  | _, _ => RtoC 1
  end.

(** C7.  [make_gains] does not raise for a component that was not solved:
    it returns unless the phase slope is present without antenna positions.
    Every entry of the gain array is 1 times the factor of each component,
    where an absent component has the factor 1, the amplitude its value, and
    a phase x the factor exp(-ix) = cos x - i sin x.  With no component solved
    every entry is 1+0j. *)
Theorem make_gains_identity_for_absent (self : AbsCal) :
  (gain_phi self = None ∨ antpos self ≠ None →
   ∃ g, make_gains self = OK g
        ∧ ∀ h j k l,
            g h j k l
            = Cmul (Cmul (Cmul (RtoC 1) (amp_factor self j k l))
                         (psi_factor self j k l))
                   (phi_factor self h j k l))
  ∧ (gain_amp self = None → gain_psi self = None → gain_phi self = None →
     ∃ g, make_gains self = OK g ∧ ∀ h j k l, g h j k l = (1%R, 0%R)).
Proof.
  destruct self as [amp psi phi pos]. unfold make_gains, amp_factor, psi_factor,
    phi_factor. simpl. split.
  - intros Hpos.
    destruct amp as [amp|], psi as [psi|], phi as [phi|], pos as [pos|]; simpl;
      try (destruct Hpos; done);
      (eexists; split; [reflexivity|]; intros h j k l; simpl;
       rewrite <- ?exp_neg_i_cos_sin, ?Cmul_one_r; reflexivity).
  - intros -> -> ->. simpl. eexists. split; [reflexivity|]. done.
Qed.

Definition unsolved : AbsCal :=
  {| gain_amp := None; gain_psi := None; gain_phi := None; antpos := None |}.

Lemma make_gains_identity_for_absent_witness :
  ∃ g, make_gains unsolved = OK g ∧ ∀ h j k l, g h j k l = (1%R, 0%R).
Proof.
  destruct (make_gains_identity_for_absent unsolved) as [Hgen _].
  destruct (Hgen (or_introl eq_refl)) as (g & Hg & Hval).
  exists g. split; [exact Hg|]. intros h j k l. rewrite Hval.
  unfold amp_factor, psi_factor, phi_factor. simpl.
  by rewrite !Cmul_one_r.
Defined.

(** * Further properties of the code

    Properties of the functions above that their code shows, and of the
    functions around them: [blpair_index] and the memo of [blpair2antind] in
    firstcal.py; [_determine_blt_slicing], [_determine_pol_indexing],
    [_set_slice], [update] and the chunking of the three iterators in io.py;
    [eq2top_m] and [top2eq_m] in utils.py. *)

(** ** Polarizations *)

(** X1.  The antenna polarizations of the conjugate polarization are those of the
    polarization, swapped: for a two-character string that is not Stokes,
    [split_pol(conj_pol(pol))] is [split_pol(pol)] reversed.  This is what
    keeps the antenna-polarization keys of a baseline stable when the baseline
    is looked up in reverse order. *)
Theorem split_pol_conj_pol
    (polstr2num jstr2num : string → result Z) (jnum2str : Z → result string)
    (Hrev : ∀ s n, polstr2num s = OK n → n ≤ 0 →
            ∃ m, polstr2num (String.rev s) = OK m ∧ m ≤ 0)
    (a b : ascii) (p0 p1 : string) :
  let pol := String a (String b EmptyString) in
  split_pol polstr2num jstr2num jnum2str pol = OK (p0, p1) →
  ∃ cp, conj_pol polstr2num pol = OK cp
        ∧ split_pol polstr2num jstr2num jnum2str cp = OK (p1, p0).
Proof.
  intros pol Hsp. unfold split_pol in Hsp.
  apply bind_OK in Hsp as (n & Hn & Hsp).
  case_bool_decide as Hpos; [done|].
  destruct (Hrev pol n Hn ltac:(lia)) as (m & Hm & Hm0).
  exists (String.rev pol). split.
  { unfold conj_pol. rewrite Hn. simpl. by rewrite bool_decide_eq_false_2. }
  change (String.rev pol) with (String b (String a EmptyString)) in *.
  unfold split_pol. rewrite Hm. simpl.
  rewrite bool_decide_eq_false_2 by lia.
  unfold pol, str_index in *. simpl in *.
  apply bind_OK in Hsp as (j0 & Hj0 & Hsp).
  apply bind_OK in Hsp as (a0 & Ha0 & Hsp).
  apply bind_OK in Hsp as (j1 & Hj1 & Hsp).
  apply bind_OK in Hsp as (a1 & Ha1 & [= <- <-]).
  rewrite Hj1. simpl. rewrite Ha1. simpl. rewrite Hj0. simpl. rewrite Ha0. done.
Qed.

Lemma split_pol_conj_pol_witness :
  ∃ cp, conj_pol Pyuvdata.polstr2num "xy" = OK cp
        ∧ split_pol Pyuvdata.polstr2num Pyuvdata.jstr2num Pyuvdata.jnum2str cp
          = OK ("y"%string, "x"%string).
Proof.
  exact (split_pol_conj_pol Pyuvdata.polstr2num Pyuvdata.jstr2num Pyuvdata.jnum2str
           Pyuvdata.polstr2num_rev "x"%char "y"%char "x" "y" eq_refl).
Defined.

(** ** [synthesize_ant_flags] *)






(** X4.  The guard against a zero visibility count (lines 748-750) is never
    taken in a run of [synthesize_ant_flags]: an antenna-polarization that is
    not excluded has at least one counted visibility, so its flag fraction is
    a division by a positive count. *)
Theorem synthesize_ant_flags_count_positive
    (polstr2num jstr2num : string → result Z) (jnum2str : Z → result string)
    (flags : list ((Z * Z * string) * waterfall bool))
    (X : gset (Z * string)) (s0 : waterfall bool) (ex : gmap (Z * string) bool)
    (nv : gmap (Z * string) Z) (nf : gmap (Z * string) (waterfall Q))
    (threshold : Q) (ap : Z * string) (w : waterfall bool) :
  analyse polstr2num jstr2num jnum2str flags = OK (X, s0, ex, nv, nf) →
  ex !! ap = Some false →
  ant_flags_of s0 ex nv nf threshold ap = OK w →
  ∃ n nflag, nv !! ap = Some n ∧ 1 ≤ n ∧ nf !! ap = Some nflag
             ∧ w = wf_map (fun x => Qgtb (x / inject_Z n) threshold) nflag.
Proof.
  intros Ha Hex Hw. unfold ant_flags_of, getitem in Hw. rewrite Hex in Hw.
  simpl in Hw.
  destruct (nv !! ap) as [n|] eqn:Hnv; [|done]. simpl in Hw.
  destruct (nf !! ap) as [nflag|] eqn:Hnf; [|done]. simpl in Hw.
  pose proof (not_excluded_is_counted _ _ _ _ _ _ _ _ _ _ _ Ha Hex Hnv) as Hn.
  rewrite bool_decide_eq_false_2 in Hw by lia. injection Hw as <-.
  by exists n, nflag.
Qed.

Lemma synthesize_ant_flags_count_positive_witness :
  match analyse Pyuvdata.polstr2num Pyuvdata.jstr2num Pyuvdata.jnum2str
          example_flags with
  | OK (_, s0, ex, nv, nf) =>
      ∃ n, nv !! (0, "x"%string) = Some n ∧ 1 ≤ n
  | Raise _ => False
  end.
Proof.
  assert (Hvals :
    match analyse Pyuvdata.polstr2num Pyuvdata.jstr2num Pyuvdata.jnum2str
            example_flags with
    | OK (_, s0, ex, nv, nf) =>
        ex !! (0, "x"%string) = Some false
        ∧ ∃ w, ant_flags_of s0 ex nv nf 0 (0, "x"%string) = OK w
    | Raise _ => False
    end) by (vm_compute; split; [done | by eexists]).
  remember (analyse Pyuvdata.polstr2num Pyuvdata.jstr2num Pyuvdata.jnum2str
              example_flags) as a eqn:Ha.
  symmetry in Ha. destruct a as [[[[[X s0] ex] nv] nf]|e]; [|destruct Hvals].
  destruct Hvals as (Hex & w & Hw).
  destruct (synthesize_ant_flags_count_positive _ _ _ _ _ _ _ _ _ _ _ _ Ha Hex Hw)
    as (n & nflag & Hn & Hpos & _).
  exists n. split; [exact Hn | exact Hpos].
Defined.

(** ** [chisq] *)

(** X5.  Where the gain flags of either antenna of a baseline are set, the
    baseline adds no observation, and what it adds to chi-square is 0 as long
    as the residual |model g_i conj(g_j) - data| and the weight there are
    finite: real arithmetic is read as exact, where every value is finite.
    (In float64 a residual or a weight that is nan or inf, multiplied by the
    factor 0 of the flag, gives nan, and the nan is added.) *)
Theorem chisq_gain_flagged_pixel
    (polstr2num jstr2num : string → result Z) (jnum2str : Z → result string)
    (model : gmap (Z * Z * string) (waterfall complex))
    (data_wgts : gmap (Z * Z * string) (waterfall R))
    (gains : option (gmap (Z * string) (waterfall complex)))
    (gf : gmap (Z * string) (waterfall bool))
    (split_by_antpol : bool)
    (it : (Z * Z * string) * waterfall complex) (c : contribution)
    (f1 f2 : waterfall bool) (t k : nat) (x : R) (o : Z) :
  visit polstr2num jstr2num jnum2str model data_wgts gains (Some gf)
    split_by_antpol it = OK (Some c) →
  gf !! c_ant1 c = Some f1 → gf !! c_ant2 c = Some f2 →
  wf_get f1 t k = Some true ∨ wf_get f2 t k = Some true →
  wf_get (c_chisq_here c) t k = Some x →
  wf_get (c_obs c) t k = Some o →
  x = 0%R ∧ o = 0.
Proof.
  intros Hv H1 H2 Hflag Hx Ho. unfold visit in Hv.
  apply bind_OK in Hv as ([ap1 ap2] & _ & Hv).
  destruct (has_key model it.1 && has_key data_wgts it.1
            && (negb split_by_antpol || String.eqb ap1 ap2)); [|done].
  apply bind_OK in Hv as (model_bl & _ & Hv).
  apply bind_OK in Hv as (model_here & _ & Hv).
  apply bind_OK in Hv as (wgts_bl & _ & Hv).
  apply bind_OK in Hv as (wgts & Hw & Hv).
  injection Hv as <-. simpl in *.
  unfold getitem in Hw. rewrite H1, H2 in Hw. simpl in Hw. injection Hw as <-.
  repeat (rewrite ?wf_get_zip, ?wf_get_map in Hx).
  repeat (rewrite ?wf_get_zip, ?wf_get_map in Ho).
  destruct (wf_get wgts_bl t k) as [w|]; [|simpl in *; done].
  destruct (wf_get f1 t k) as [b1|]; [|simpl in *; done].
  destruct (wf_get f2 t k) as [b2|]; [|simpl in *; done].
  destruct (wf_get model_here t k) as [m|]; [|simpl in *; done].
  destruct (wf_get it.2 t k) as [d|]; [|simpl in *; done].
  simpl in Hx, Ho. injection Hx as <-. injection Ho as <-.
  assert (Hz : (w * not_flag_R b1 * not_flag_R b2 = 0)%R).
  { destruct Hflag as [[= ->]|[= ->]]; simpl; lra. }
  rewrite Hz. split; [lra|].
  unfold Rpos_Z. destruct (Rlt_dec 0 0) as [H|]; [lra|done].
Qed.

Definition flagged_gain_flags : gmap (Z * string) (waterfall bool) :=
  {[ (0, "x"%string) := [[ true ]]; (1, "x"%string) := [[ false ]] ]}.

Lemma chisq_gain_flagged_pixel_witness :
  (Cabs (Csub (0%R, 0%R) (2%R, 0%R)) * (1 * not_flag_R true * not_flag_R false) = 0)%R
  ∧ Rpos_Z (1 * not_flag_R true * not_flag_R false) = 0.
Proof.
  apply (chisq_gain_flagged_pixel Pyuvdata.polstr2num Pyuvdata.jstr2num
           Pyuvdata.jnum2str bug_model bug_wgts None flagged_gain_flags false
           (bug_bl, [[ (2%R, 0%R) ]])
           (Contribution "x" (0, "x"%string) (1, "x"%string)
              [[ (Cabs (Csub (0%R, 0%R) (2%R, 0%R))
                  * (1 * not_flag_R true * not_flag_R false))%R ]]
              [[ Rpos_Z (1 * not_flag_R true * not_flag_R false) ]])
           [[ true ]] [[ false ]] 0%nat 0%nat);
    try reflexivity.
  by left.
Defined.

(** X6.  A baseline whose polarization [split_pol] splits (it raises
    [ValueError] on a pseudo-Stokes polarization, before the model is looked
    at), and that the model or the weights do not hold, or that with
    [split_by_antpol] is cross-polarized, changes nothing: the call returns
    (or raises) what it does without that baseline.  The baseline must not be
    the one whose shape sizes the fresh chi-square array. *)
Theorem chisq_ignores_unmodelled
    (polstr2num jstr2num : string → result Z) (jnum2str : Z → result string)
    (model : gmap (Z * Z * string) (waterfall complex))
    (data_wgts : gmap (Z * Z * string) (waterfall R))
    (gains : option (gmap (Z * string) (waterfall complex)))
    (gain_flags : option (gmap (Z * string) (waterfall bool)))
    (split_by_antpol : bool)
    (data1 data2 : list ((Z * Z * string) * waterfall complex))
    (it : (Z * Z * string) * waterfall complex) (ap1 ap2 : string)
    (c : option (accum R)) (n : option (accum Z))
    (cpa : option (gmap (Z * string) (waterfall R)))
    (npa : option (gmap (Z * string) (waterfall Z))) :
  split_pol polstr2num jstr2num jnum2str it.1.2 = OK (ap1, ap2) →
  model !! it.1 = None ∨ data_wgts !! it.1 = None
    ∨ (split_by_antpol = true ∧ ap1 ≠ ap2) →
  data1 ≠ [] ∨ split_by_antpol = true ∨ is_Some c ∨ is_Some n →
  chisq polstr2num jstr2num jnum2str model data_wgts gains gain_flags
    split_by_antpol (data1 ++ it :: data2) c n cpa npa
  = chisq polstr2num jstr2num jnum2str model data_wgts gains gain_flags
      split_by_antpol (data1 ++ data2) c n cpa npa.
Proof.
  intros Hsp Hskip Hshape.
  assert (Hstep : ∀ acc,
    chisq_step polstr2num jstr2num jnum2str model data_wgts gains gain_flags
      split_by_antpol acc it = OK acc).
  { intros acc. unfold chisq_step, visit. rewrite Hsp. simpl.
    assert (Hcond : has_key model it.1 && has_key data_wgts it.1
                    && (negb split_by_antpol || String.eqb ap1 ap2) = false).
    { unfold has_key. destruct Hskip as [H|[H|[-> H]]].
      - rewrite H. rewrite bool_decide_eq_false_2; [done|]. by intros [? ?].
      - rewrite H. rewrite (bool_decide_eq_false_2 (is_Some None));
          [|by intros [? ?]]. by rewrite andb_false_r.
      - simpl. apply String.eqb_neq in H. rewrite H. by rewrite andb_false_r. }
    rewrite Hcond. reflexivity. }
  assert (Hinit :
    init_chisq_nObs split_by_antpol (data1 ++ it :: data2) c n
    = init_chisq_nObs split_by_antpol (data1 ++ data2) c n).
  { unfold init_chisq_nObs. destruct c as [c|], n as [n|]; try done.
    destruct split_by_antpol; [done|].
    destruct Hshape as [H|[H|[[? H]|[? H]]]]; try done.
    destruct data1; done. }
  unfold chisq. rewrite Hinit.
  destruct (init_chisq_nObs split_by_antpol (data1 ++ data2) c n) as [[c0 n0]|e];
    [|done]. simpl.
  destruct (init_per_ant cpa npa) as [[cpa0 npa0]|e]; [|done]. simpl.
  rewrite !foldM_app.
  destruct (foldM _ _ data1) as [acc1|e]; [|done]. simpl.
  by rewrite Hstep.
Qed.

Lemma chisq_ignores_unmodelled_witness :
  chisq Pyuvdata.polstr2num Pyuvdata.jstr2num Pyuvdata.jnum2str
    bug_model bug_wgts None None false
    (bug_data ++ (split_bl2, [[ (5%R, 0%R) ]]) :: []) None None None None
  = chisq Pyuvdata.polstr2num Pyuvdata.jstr2num Pyuvdata.jnum2str
      bug_model bug_wgts None None false (bug_data ++ []) None None None None.
Proof.
  apply (chisq_ignores_unmodelled Pyuvdata.polstr2num Pyuvdata.jstr2num
           Pyuvdata.jnum2str bug_model bug_wgts None None false
           bug_data [] (split_bl2, [[ (5%R, 0%R) ]]) "x" "x").
  - reflexivity.
  - left. reflexivity.
  - left. discriminate.
Defined.

Lemma chisq_loop_ok
    (polstr2num jstr2num : string → result Z) (jnum2str : Z → result string)
    (model : gmap (Z * Z * string) (waterfall complex))
    (data_wgts : gmap (Z * Z * string) (waterfall R))
    (gains : option (gmap (Z * string) (waterfall complex)))
    (gain_flags : option (gmap (Z * string) (waterfall bool)))
    (split_by_antpol : bool)
    (data : list ((Z * Z * string) * waterfall complex)) (acc out : chisq_out) :
  acc_ok split_by_antpol acc →
  foldM (chisq_step polstr2num jstr2num jnum2str model data_wgts gains gain_flags
           split_by_antpol) acc data = OK out →
  acc_ok split_by_antpol out.
Proof.
  revert acc. induction data as [|it data IH]; intros acc Hok Hrun.
  - by injection Hrun as <-.
  - rewrite foldM_cons in Hrun. apply bind_OK in Hrun as (acc1 & Hstep & Hrun).
    apply (IH acc1); [|done].
    destruct (chisq_step_OK _ _ _ _ _ _ _ _ _ _ _ Hok Hstep) as (oc & _ & ->).
    by apply step_pure_ok.
Qed.

(** X7.  The order in which the dictionary [data] yields its baselines does not
    matter: on accumulators that pass the code's assertions (the types fit
    [split_by_antpol], paired dictionaries have the same keys) a call returns
    the same four values for every order of the baselines (float arithmetic
    read as exact). *)
Theorem chisq_order_independent
    (polstr2num jstr2num : string → result Z) (jnum2str : Z → result string)
    (model : gmap (Z * Z * string) (waterfall complex))
    (data_wgts : gmap (Z * Z * string) (waterfall R))
    (gains : option (gmap (Z * string) (waterfall complex)))
    (gain_flags : option (gmap (Z * string) (waterfall bool)))
    (split_by_antpol : bool)
    (data data' : list ((Z * Z * string) * waterfall complex))
    (c : accum R) (n : accum Z)
    (cpa : gmap (Z * string) (waterfall R)) (npa : gmap (Z * string) (waterfall Z))
    (out : chisq_out) :
  data ≡ₚ data' →
  acc_ok split_by_antpol (ChisqOut c n cpa npa) →
  chisq polstr2num jstr2num jnum2str model data_wgts gains gain_flags
    split_by_antpol data (Some c) (Some n) (Some cpa) (Some npa) = OK out
  ↔ chisq polstr2num jstr2num jnum2str model data_wgts gains gain_flags
      split_by_antpol data' (Some c) (Some n) (Some cpa) (Some npa) = OK out.
Proof.
  intros Hperm Hok. unfold chisq. simpl. split; intros Hrun.
  - by apply (chisq_loop_permutation _ _ _ _ _ _ _ _ _ _ Hperm).
  - symmetry in Hperm. by apply (chisq_loop_permutation _ _ _ _ _ _ _ _ _ _ Hperm).
Qed.

Lemma chisq_order_independent_witness :
  ∃ out,
    chisq Pyuvdata.polstr2num Pyuvdata.jstr2num Pyuvdata.jnum2str
      split_model split_wgts None None false (split_data2 ++ split_data1)
      (Some (AccArr [[ 0%R ]])) (Some (AccArr [[ 0 ]])) (Some ∅) (Some ∅) = OK out
    ∧ chisq Pyuvdata.polstr2num Pyuvdata.jstr2num Pyuvdata.jnum2str
        split_model split_wgts None None false (split_data1 ++ split_data2)
        (Some (AccArr [[ 0%R ]])) (Some (AccArr [[ 0 ]])) (Some ∅) (Some ∅) = OK out.
Proof.
  assert (Hret :
    match chisq Pyuvdata.polstr2num Pyuvdata.jstr2num Pyuvdata.jnum2str
            split_model split_wgts None None false (split_data2 ++ split_data1)
            (Some (AccArr [[ 0%R ]])) (Some (AccArr [[ 0 ]])) (Some ∅) (Some ∅) with
    | OK _ => True
    | Raise _ => False
    end) by (vm_compute; exact I).
  remember (chisq Pyuvdata.polstr2num Pyuvdata.jstr2num Pyuvdata.jnum2str
              split_model split_wgts None None false (split_data2 ++ split_data1)
              (Some (AccArr [[ 0%R ]])) (Some (AccArr [[ 0 ]])) (Some ∅) (Some ∅))
    as full eqn:Hfull.
  symmetry in Hfull. destruct full as [out|e]; [clear Hret|destruct Hret].
  assert (Hok : acc_ok false (ChisqOut (AccArr [[ 0%R ]]) (AccArr [[ 0 ]]) ∅ ∅)).
  { split; [|done]. simpl. eexists _, _. split; reflexivity. }
  exists out. split; [reflexivity|].
  exact (proj1 (chisq_order_independent Pyuvdata.polstr2num Pyuvdata.jstr2num
                  Pyuvdata.jnum2str split_model split_wgts None None false
                  (split_data2 ++ split_data1) (split_data1 ++ split_data2)
                  (AccArr [[ 0%R ]]) (AccArr [[ 0 ]]) ∅ ∅ out
                  (Permutation_app_comm _ _) Hok) Hfull).
Defined.

(** X8.  What a call without accumulators returns passes the assertions of a next
    call: [chisq] and [nObs] are both arrays or, with [split_by_antpol], both
    dictionaries with the same keys, and [chisq_per_ant] and [nObs_per_ant]
    have the same keys. *)
Theorem chisq_outputs_paired
    (polstr2num jstr2num : string → result Z) (jnum2str : Z → result string)
    (model : gmap (Z * Z * string) (waterfall complex))
    (data_wgts : gmap (Z * Z * string) (waterfall R))
    (gains : option (gmap (Z * string) (waterfall complex)))
    (gain_flags : option (gmap (Z * string) (waterfall bool)))
    (split_by_antpol : bool)
    (data : list ((Z * Z * string) * waterfall complex)) (out : chisq_out) :
  chisq polstr2num jstr2num jnum2str model data_wgts gains gain_flags
    split_by_antpol data None None None None = OK out →
  (if split_by_antpol then
     ∃ cd nd, out_chisq out = AccDict cd ∧ out_nObs out = AccDict nd
              ∧ ∀ k, is_Some (cd !! k) ↔ is_Some (nd !! k)
   else ∃ cw nw, out_chisq out = AccArr cw ∧ out_nObs out = AccArr nw)
  ∧ ∀ k, is_Some (out_chisq_per_ant out !! k) ↔ is_Some (out_nObs_per_ant out !! k).
Proof.
  intros Hrun. unfold chisq in Hrun.
  apply bind_OK in Hrun as ([c n] & Hinit & Hrun). simpl in Hrun.
  assert (Hok : acc_ok split_by_antpol (ChisqOut c n ∅ ∅)).
  { unfold init_chisq_nObs in Hinit. unfold acc_ok. simpl.
    destruct split_by_antpol.
    - injection Hinit as <- <-. split; [|done]. by eexists _, _.
    - apply bind_OK in Hinit as (d0 & _ & [= <- <-]). split; [|done].
      by eexists _, _. }
  assert (Hkeys : ∀ `{Countable K} {V W} (a : gmap K V) (b : gmap K W),
            in_step a b → ∀ k, is_Some (a !! k) ↔ is_Some (b !! k)).
  { intros K ? ? V W a b Hab k. rewrite <- !not_eq_None_Some. by rewrite (Hab k). }
  destruct (chisq_loop_ok _ _ _ _ _ _ _ _ _ _ _ Hok Hrun) as [Hmode Hper].
  split; [|by apply Hkeys].
  destruct split_by_antpol; [|done].
  destruct Hmode as (cd & nd & Hc & Hn & Hs). exists cd, nd.
  split; [done|]. split; [done|]. by apply Hkeys.
Qed.

Lemma chisq_outputs_paired_witness :
  match chisq Pyuvdata.polstr2num Pyuvdata.jstr2num Pyuvdata.jnum2str
          bug_model bug_wgts None None false bug_data None None None None with
  | OK out =>
      (∃ cw nw, out_chisq out = AccArr cw ∧ out_nObs out = AccArr nw)
      ∧ ∀ k, is_Some (out_chisq_per_ant out !! k)
             ↔ is_Some (out_nObs_per_ant out !! k)
  | Raise _ => False
  end.
Proof.
  assert (Hret :
    match chisq Pyuvdata.polstr2num Pyuvdata.jstr2num Pyuvdata.jnum2str
            bug_model bug_wgts None None false bug_data None None None None with
    | OK _ => True
    | Raise _ => False
    end) by (vm_compute; exact I).
  remember (chisq Pyuvdata.polstr2num Pyuvdata.jstr2num Pyuvdata.jnum2str
              bug_model bug_wgts None None false bug_data None None None None)
    as full eqn:Hfull.
  symmetry in Hfull. destruct full as [out|e]; [clear Hret|destruct Hret].
  exact (chisq_outputs_paired Pyuvdata.polstr2num Pyuvdata.jstr2num
           Pyuvdata.jnum2str bug_model bug_wgts None None false bug_data out Hfull).
Defined.

(** ** [FirstCalRedundantInfo] *)

(** [{x: i for i, x in enumerate(l)}], also written as a loop
    [for i, x in enumerate(l): d[x] = i]. *)
Definition enumerate_dict `{Countable K} (l : list K) : gmap K nat :=
  foldl (fun m ix => <[ix.2 := ix.1]> m) ∅ (zip (seq 0 (length l)) l).

Lemma enumerate_dict_snoc `{Countable K} (l : list K) (x : K) :
  enumerate_dict (l ++ [x]) = <[x := length l]> (enumerate_dict l).
Proof.
  unfold enumerate_dict. rewrite length_app. simpl.
  rewrite seq_app. simpl. rewrite zip_with_app by (by rewrite length_seq).
  by rewrite foldl_app.
Qed.

(** The dictionary sends an element to its last position in the list. *)
Lemma enumerate_dict_lookup `{Countable K} (l : list K) (x : K) (i : nat) :
  enumerate_dict l !! x = Some i
  ↔ l !! i = Some x ∧ ∀ j, l !! j = Some x → (j ≤ i)%nat.
Proof.
  revert i. induction l as [|y l IH] using rev_ind; intros i.
  - unfold enumerate_dict. simpl. rewrite lookup_empty. split; [done|].
    intros [Hi _]. by rewrite lookup_nil in Hi.
  - rewrite enumerate_dict_snoc. destruct (decide (y = x)) as [->|Hne].
    + rewrite lookup_insert_eq. split.
      * intros [= <-]. split.
        -- by rewrite lookup_app_r, Nat.sub_diag.
        -- intros j Hj. apply lookup_lt_Some in Hj. rewrite length_app in Hj.
           simpl in Hj. lia.
      * intros [Hi Hmax]. f_equal.
        assert (Hlast : (l ++ [x]) !! length l = Some x)
          by by rewrite lookup_app_r, Nat.sub_diag.
        apply Hmax in Hlast. apply lookup_lt_Some in Hi.
        rewrite length_app in Hi. simpl in Hi. lia.
    + rewrite lookup_insert_ne by done. rewrite IH. split.
      * intros [Hi Hmax]. split.
        -- by apply lookup_app_l_Some.
        -- intros j Hj. apply Hmax.
           apply lookup_app_Some in Hj as [Hj|[_ Hj]]; [done|].
           apply list_lookup_singleton_Some in Hj as [_ ?]. done.
      * intros [Hi Hmax].
        apply lookup_app_Some in Hi as [Hi|[_ Hi]].
        -- split; [done|]. intros j Hj. apply Hmax. by apply lookup_app_l_Some.
        -- apply list_lookup_singleton_Some in Hi as [_ ?]. done.
Qed.

Lemma enumerate_dict_None `{Countable K} (l : list K) (x : K) :
  enumerate_dict l !! x = None ↔ x ∉ l.
Proof.
  induction l as [|y l IH] using rev_ind.
  - unfold enumerate_dict. simpl. rewrite lookup_empty. split; [|done].
    intros _. apply not_elem_of_nil.
  - rewrite enumerate_dict_snoc, not_elem_of_app, list_elem_of_singleton.
    destruct (decide (y = x)) as [->|Hne].
    + rewrite lookup_insert_eq. split; [done|]. by intros [_ ?].
    + rewrite lookup_insert_ne by done. rewrite IH. split; [|by intros [? _]].
      intros ?. split; [done|]. congruence.
Qed.

(** [blpair_index], lines 146-151: the memoised position of a baseline pair
    in [self.bl_pairs]; any failure of the first lookup rebuilds the
    dictionary.  Returns the position and the dictionary now stored. *)
Definition blpair_index
    (cache : option (gmap ((Z * Z) * (Z * Z)) nat))
    (bl_pairs : list ((Z * Z) * (Z * Z))) (blpair : (Z * Z) * (Z * Z))
  : result (nat * option (gmap ((Z * Z) * (Z * Z)) nat)) :=
  match cache ≫= fun c => c !! blpair with
  | Some v => OK (v, cache)
  | None =>
      let c := enumerate_dict bl_pairs in
      v ← getitem c blpair;
      OK (v, Some c)
  end.

(** X9.  On a fresh object [blpair_index] of a pair of [bl_pairs] is a position
    that holds the pair, the last one if the pair occurs more than once, and
    every later call returns the same position; a pair that is not in
    [bl_pairs] raises [KeyError]. *)
Theorem blpair_index_position
    (bl_pairs : list ((Z * Z) * (Z * Z))) (blpair : (Z * Z) * (Z * Z)) :
  (blpair ∈ bl_pairs →
   ∃ x cache,
     blpair_index None bl_pairs blpair = OK (x, cache)
     ∧ bl_pairs !! x = Some blpair
     ∧ (∀ y, bl_pairs !! y = Some blpair → (y ≤ x)%nat)
     ∧ blpair_index cache bl_pairs blpair = OK (x, cache))
  ∧ (blpair ∉ bl_pairs → blpair_index None bl_pairs blpair = Raise KeyError).
Proof.
  unfold blpair_index, getitem. simpl. split.
  - intros Hin.
    destruct (enumerate_dict bl_pairs !! blpair) as [x|] eqn:Hx.
    + exists x, (Some (enumerate_dict bl_pairs)). simpl.
      apply enumerate_dict_lookup in Hx as Hpos. destruct Hpos as [Hpos Hmax].
      rewrite Hx. done.
    + by apply enumerate_dict_None in Hx.
  - intros Hnot. apply enumerate_dict_None in Hnot. by rewrite Hnot.
Qed.

Lemma blpair_index_position_witness :
  ∃ x cache,
    blpair_index None [((0, 1), (1, 2)); ((0, 1), (2, 3)); ((1, 2), (2, 3))]
      ((0, 1), (2, 3)) = OK (x, cache)
    ∧ [((0, 1), (1, 2)); ((0, 1), (2, 3)); ((1, 2), (2, 3))] !! x
      = Some ((0, 1), (2, 3))
    ∧ (∀ y, [((0, 1), (1, 2)); ((0, 1), (2, 3)); ((1, 2), (2, 3))] !! y
            = Some ((0, 1), (2, 3)) → (y ≤ x)%nat)
    ∧ blpair_index cache [((0, 1), (1, 2)); ((0, 1), (2, 3)); ((1, 2), (2, 3))]
        ((0, 1), (2, 3)) = OK (x, cache).
Proof.
  apply (proj1 (blpair_index_position
                  [((0, 1), (1, 2)); ((0, 1), (2, 3)); ((1, 2), (2, 3))]
                  ((0, 1), (2, 3)))).
  apply elem_of_cons. right. apply elem_of_cons. by left.
Defined.

(** The sum of a row: [np.sum(row)]. *)
Definition Zsum (l : list Z) : Z := foldr Z.add 0 l.

Lemma Zsum_cons (x : Z) (l : list Z) : Zsum (x :: l) = x + Zsum l.
Proof. reflexivity. Qed.

Lemma Zsum_indicator (i a n : nat) :
  Zsum ((fun c => if decide (c = i) then 1 else 0) <$> seq a n)
  = if decide (a ≤ i < a + n)%nat then 1 else 0.
Proof.
  revert a. induction n as [|n IH]; intros a.
  - simpl. case_decide; [lia|done].
  - rewrite <- cons_seq, fmap_cons, Zsum_cons, IH. repeat case_decide; lia.
Qed.

Lemma Zsum_coeff (i j k l a n : nat) :
  Zsum (coeff [i; j; k; l] <$> seq a n)
  = Zsum ((fun c => if decide (c = i) then 1 else 0) <$> seq a n)
    - Zsum ((fun c => if decide (c = j) then 1 else 0) <$> seq a n)
    - Zsum ((fun c => if decide (c = k) then 1 else 0) <$> seq a n)
    + Zsum ((fun c => if decide (c = l) then 1 else 0) <$> seq a n).
Proof.
  revert a. induction n as [|n IH]; intros a; [done|].
  rewrite <- cons_seq, !fmap_cons, !Zsum_cons, IH. unfold coeff. lia.
Qed.

Lemma row_of_sum_zero (ant_index : Z → nat) (nsubsetant : nat)
    (bp : (Z * Z) * (Z * Z)) :
  Forall (fun i => (i < nsubsetant)%nat) (antind_of ant_index bp) →
  Zsum (row_of ant_index nsubsetant bp) = 0.
Proof.
  unfold row_of, antind_of. simpl. intros Hlt.
  apply Forall_cons in Hlt as [Hi Hlt]. apply Forall_cons in Hlt as [Hj Hlt].
  apply Forall_cons in Hlt as [Hk Hlt]. apply Forall_cons in Hlt as [Hl _].
  rewrite Zsum_coeff, !Zsum_indicator. repeat case_decide; lia.
Qed.

(** Every antenna of a pair of [reds] has a column when every antenna of
    [reds] has one. *)
Lemma bl_pairs_of_cols (ant_index : Z → nat) (nsubsetant : nat)
    (reds : list (list (Z * Z))) :
  (∀ g bl, g ∈ reds → bl ∈ g →
     (ant_index bl.1 < nsubsetant)%nat ∧ (ant_index bl.2 < nsubsetant)%nat) →
  ∀ bp, bp ∈ bl_pairs_of reds →
    Forall (fun i => (i < nsubsetant)%nat) (antind_of ant_index bp).
Proof.
  intros Hcols [bl1 bl2] Hbp. unfold bl_pairs_of in Hbp.
  apply list_elem_of_In, in_concat in Hbp as (ps & Hps & Hbp).
  apply list_elem_of_In in Hps, Hbp.
  apply list_elem_of_fmap in Hps as (g & -> & Hg).
  apply pairs_in_group_elem in Hbp as [H1 H2].
  destruct (Hcols g bl1 Hg H1), (Hcols g bl2 Hg H2).
  unfold antind_of. simpl. repeat constructor; done.
Qed.

Lemma init_from_reds_fresh (ant_index : Z → nat) (nsubsetant : nat)
    (reds : list (list (Z * Z))) :
  (∀ g bl, g ∈ reds → bl ∈ g →
     (ant_index bl.1 < nsubsetant)%nat ∧ (ant_index bl.2 < nsubsetant)%nat) →
  ∃ cache,
    init_from_reds ant_index nsubsetant None reds
    = OK (bl_pairs_of reds, row_of ant_index nsubsetant <$> bl_pairs_of reds, cache).
Proof.
  intros Hcols.
  destruct (fill_rows_spec ant_index nsubsetant (bl_pairs_of reds)
              (bl_pairs_of reds) None []) as [cache' Hrun].
  { by left. }
  { intros bp Hbp. split; [done|]. by apply (bl_pairs_of_cols _ _ reds). }
  exists cache'. unfold init_from_reds. simpl in Hrun. rewrite Hrun. done.
Qed.

(** X10.  Every row of the matrix A that [init_from_reds] builds sums to zero: a
    delay common to all antennas cancels in every ratio of redundant
    baselines.  So A has no full column rank, which is why [FirstCal.run]
    takes a pseudo-inverse. *)
Theorem init_from_reds_rows_sum_zero (ant_index : Z → nat) (nsubsetant : nat)
    (reds : list (list (Z * Z))) (bl_pairs : list ((Z * Z) * (Z * Z)))
    (A : list (list Z)) cache :
  (∀ g bl, g ∈ reds → bl ∈ g →
     (ant_index bl.1 < nsubsetant)%nat ∧ (ant_index bl.2 < nsubsetant)%nat) →
  init_from_reds ant_index nsubsetant None reds = OK (bl_pairs, A, cache) →
  Forall (fun row => Zsum row = 0) A.
Proof.
  intros Hcols Hrun.
  destruct (init_from_reds_fresh ant_index nsubsetant reds Hcols) as [cache' Hfresh].
  rewrite Hfresh in Hrun. injection Hrun as <- <- <-.
  apply Forall_fmap, Forall_forall. intros bp Hbp. simpl.
  apply row_of_sum_zero. by apply (bl_pairs_of_cols _ _ reds).
Qed.

Lemma init_from_reds_rows_sum_zero_witness :
  Forall (fun row => Zsum row = 0) [[1; -2; 1]].
Proof.
  assert (Hcols : ∀ g bl, g ∈ example_reds → bl ∈ g →
            (Z.to_nat bl.1 < 3)%nat ∧ (Z.to_nat bl.2 < 3)%nat).
  { intros g bl Hg Hbl. unfold example_reds in Hg.
    repeat (apply elem_of_cons in Hg as [->|Hg]);
      [| |by apply elem_of_nil in Hg];
      repeat (apply elem_of_cons in Hbl as [->|Hbl]);
      try (by apply elem_of_nil in Hbl); simpl; lia. }
  exact (init_from_reds_rows_sum_zero Z.to_nat 3 example_reds
           [((0, 1), (1, 2))] [[1; -2; 1]] _ Hcols eq_refl).
Defined.

Lemma pairs_in_group_length (g : list (Z * Z)) :
  (2 * length (pairs_in_group g) = length g * (length g - 1))%nat.
Proof.
  induction g as [|b g IH]; [done|].
  rewrite pairs_in_group_cons, length_app, length_fmap. simpl.
  rewrite Nat.sub_0_r. destruct g as [|b' g]; [done|].
  simpl in *. nia.
Qed.

(** X11.  A has one row per pair of baselines and one column per antenna, and a
    group of n redundant baselines gives n(n-1)/2 of the rows. *)
Theorem init_from_reds_shape (ant_index : Z → nat) (nsubsetant : nat)
    (reds : list (list (Z * Z))) (bl_pairs : list ((Z * Z) * (Z * Z)))
    (A : list (list Z)) cache :
  (∀ g bl, g ∈ reds → bl ∈ g →
     (ant_index bl.1 < nsubsetant)%nat ∧ (ant_index bl.2 < nsubsetant)%nat) →
  init_from_reds ant_index nsubsetant None reds = OK (bl_pairs, A, cache) →
  length A = length bl_pairs
  ∧ Forall (fun row => length row = nsubsetant) A
  ∧ (2 * length bl_pairs
     = sum_list ((fun g => length g * (length g - 1)) <$> reds))%nat.
Proof.
  intros Hcols Hrun.
  destruct (init_from_reds_fresh ant_index nsubsetant reds Hcols) as [cache' Hfresh].
  rewrite Hfresh in Hrun. injection Hrun as <- <- <-.
  split; [apply length_fmap|]. split.
  - apply Forall_fmap, Forall_forall. intros bp _. simpl.
    unfold row_of. by rewrite length_fmap, length_seq.
  - unfold bl_pairs_of. clear. induction reds as [|g reds IH]; [done|].
    rewrite !fmap_cons. change (concat (?x :: ?l)) with (x ++ concat l).
    change (sum_list (?x :: ?l)) with (x + sum_list l)%nat.
    rewrite length_app. pose proof (pairs_in_group_length g) as Hg.
    revert Hg IH. generalize (length g * (length g - 1))%nat. lia.
Qed.

Lemma init_from_reds_shape_witness :
  length [[1; -2; 1]] = length [((0, 1), (1, 2))]
  ∧ Forall (fun row : list Z => length row = 3%nat) [[1; -2; 1]]
  ∧ (2 * length [((0, 1), (1, 2))]
     = sum_list ((fun g : list (Z * Z) => length g * (length g - 1))
                   <$> example_reds))%nat.
Proof.
  assert (Hcols : ∀ g bl, g ∈ example_reds → bl ∈ g →
            (Z.to_nat bl.1 < 3)%nat ∧ (Z.to_nat bl.2 < 3)%nat).
  { intros g bl Hg Hbl. unfold example_reds in Hg.
    repeat (apply elem_of_cons in Hg as [->|Hg]);
      [| |by apply elem_of_nil in Hg];
      repeat (apply elem_of_cons in Hbl as [->|Hbl]);
      try (by apply elem_of_nil in Hbl); simpl; lia. }
  exact (init_from_reds_shape Z.to_nat 3 example_reds
           [((0, 1), (1, 2))] [[1; -2; 1]] _ Hcols eq_refl).
Defined.

(** A memo of [blpair2antind] is consistent when each entry is what
    [ant_index] gives now. *)
Definition memo_consistent (ant_index : Z → nat)
    (c : gmap ((Z * Z) * (Z * Z)) (list nat)) : Prop :=
  ∀ bp v, c !! bp = Some v → v = antind_of ant_index bp.

Lemma build_blpair2antind_consistent (ant_index : Z → nat)
    (bl_pairs : list ((Z * Z) * (Z * Z))) :
  memo_consistent ant_index (build_blpair2antind ant_index bl_pairs).
Proof.
  unfold build_blpair2antind.
  assert (Hgen : ∀ m, memo_consistent ant_index m →
            memo_consistent ant_index
              (foldl (fun m bp => <[bp := antind_of ant_index bp]> m) m bl_pairs)).
  { induction bl_pairs as [|x l IH]; intros m Hm; simpl; [done|].
    apply IH. intros bp v. destruct (decide (x = bp)) as [->|Hne].
    - rewrite lookup_insert_eq. by intros [= <-].
    - rewrite lookup_insert_ne by done. apply Hm. }
  apply Hgen. intros bp v. by rewrite lookup_empty.
Qed.

Lemma blpair2antind_consistent (ant_index : Z → nat)
    (cache : option (gmap ((Z * Z) * (Z * Z)) (list nat)))
    (bl_pairs : list ((Z * Z) * (Z * Z))) (bp : (Z * Z) * (Z * Z)) :
  (∀ c, cache = Some c → memo_consistent ant_index c) → bp ∈ bl_pairs →
  ∃ c', blpair2antind ant_index cache bl_pairs bp
        = OK (antind_of ant_index bp, Some c')
        ∧ memo_consistent ant_index c'.
Proof.
  intros Hc Hin. unfold blpair2antind, getitem.
  destruct cache as [c|]; simpl.
  - destruct (c !! bp) as [v|] eqn:Hv.
    + exists c. rewrite (Hc c eq_refl bp v Hv). split; [done|]. by apply Hc.
    + rewrite build_blpair2antind_lookup by done.
      eexists. split; [done|]. apply build_blpair2antind_consistent.
  - rewrite build_blpair2antind_lookup by done.
    eexists. split; [done|]. apply build_blpair2antind_consistent.
Qed.

Lemma fill_rows_consistent (ant_index : Z → nat) (nsubsetant : nat)
    (bl_pairs rest : list ((Z * Z) * (Z * Z)))
    (cache : option (gmap ((Z * Z) * (Z * Z)) (list nat))) (P : list (list Z)) :
  (∀ c, cache = Some c → memo_consistent ant_index c) →
  (∀ bp, bp ∈ rest → bp ∈ bl_pairs
         ∧ Forall (fun i => (i < nsubsetant)%nat) (antind_of ant_index bp)) →
  ∃ cache',
    foldM (fill_row ant_index bl_pairs)
      (P ++ replicate (length rest) (replicate nsubsetant 0), cache)
      (zip (seq (length P) (length rest)) rest)
    = OK (P ++ (row_of ant_index nsubsetant <$> rest), cache').
Proof.
  revert P cache. induction rest as [|bp rest IH]; intros P cache Hc Hall.
  - exists cache. simpl. done.
  - destruct (Hall bp ltac:(by left)) as [Hin Hlt].
    cbn [length seq zip zip_with replicate]. rewrite foldM_cons.
    destruct (blpair2antind_consistent ant_index cache bl_pairs bp Hc Hin)
      as (c' & Hlook & Hc').
    pose proof (fill_row_spec ant_index nsubsetant bl_pairs None P
                  (replicate (length rest) (replicate nsubsetant 0)) bp
                  (or_introl eq_refl) Hin Hlt) as Hfresh.
    assert (Hrow : fill_row ant_index bl_pairs
                     (P ++ replicate nsubsetant 0
                        :: replicate (length rest) (replicate nsubsetant 0), cache)
                     (length P, bp)
                   = OK ((P ++ [row_of ant_index nsubsetant bp])
                         ++ replicate (length rest) (replicate nsubsetant 0),
                         Some c')).
    { unfold fill_row in *. rewrite Hlook.
      rewrite (blpair2antind_spec ant_index None bl_pairs bp (or_introl eq_refl) Hin)
        in Hfresh.
      simpl in *.
      destruct (add_at _ _ (ant_index bp.1.1) 1) as [A1|e]; [|done]. simpl in *.
      destruct (add_at A1 _ _ _) as [A2|e]; [|done]. simpl in *.
      destruct (add_at A2 _ _ _) as [A3|e]; [|done]. simpl in *.
      destruct (add_at A3 _ _ _) as [A4|e]; [|done]. simpl in *.
      by injection Hfresh as ->. }
    rewrite Hrow. simpl.
    destruct (IH (P ++ [row_of ant_index nsubsetant bp]) (Some c')) as [cache' Hrun].
    { by intros c [= <-]. }
    { intros bp' Hbp'. apply Hall. by right. }
    exists cache'. rewrite length_app in Hrun. simpl in Hrun.
    rewrite Nat.add_1_r in Hrun. rewrite Hrun. by rewrite <- app_assoc.
Qed.

(** X12.  [init_from_reds] never resets the memo of [blpair2antind].  A memo whose
    entries agree with the present [ant_index], complete or not, does no
    harm: the call returns the [bl_pairs] and the matrix A that it returns on
    a fresh object. *)
Theorem init_from_reds_memo (ant_index : Z → nat) (nsubsetant : nat)
    (reds : list (list (Z * Z))) (c : gmap ((Z * Z) * (Z * Z)) (list nat)) :
  (∀ g bl, g ∈ reds → bl ∈ g →
     (ant_index bl.1 < nsubsetant)%nat ∧ (ant_index bl.2 < nsubsetant)%nat) →
  (∀ bp v, c !! bp = Some v → v = antind_of ant_index bp) →
  ∃ bl_pairs A cache cache',
    init_from_reds ant_index nsubsetant None reds = OK (bl_pairs, A, cache)
    ∧ init_from_reds ant_index nsubsetant (Some c) reds = OK (bl_pairs, A, cache').
Proof.
  intros Hcols Hc.
  destruct (init_from_reds_fresh ant_index nsubsetant reds Hcols) as [cache Hfresh].
  destruct (fill_rows_consistent ant_index nsubsetant (bl_pairs_of reds)
              (bl_pairs_of reds) (Some c) []) as [cache' Hrun].
  { by intros c0 [= <-]. }
  { intros bp Hbp. split; [done|]. by apply (bl_pairs_of_cols _ _ reds). }
  eexists _, _, cache, cache'. split; [exact Hfresh|].
  unfold init_from_reds. simpl in Hrun. rewrite Hrun. done.
Qed.

Lemma init_from_reds_memo_witness :
  ∃ bl_pairs A cache cache',
    init_from_reds Z.to_nat 3 None example_reds = OK (bl_pairs, A, cache)
    ∧ init_from_reds Z.to_nat 3 (Some {[ ((0, 1), (1, 2)) := [0; 1; 1; 2]%nat ]})
        example_reds = OK (bl_pairs, A, cache').
Proof.
  apply (init_from_reds_memo Z.to_nat 3 example_reds
           {[ ((0, 1), (1, 2)) := [0; 1; 1; 2]%nat ]}).
  - intros g bl Hg Hbl. unfold example_reds in Hg.
    repeat (apply elem_of_cons in Hg as [->|Hg]);
      [| |by apply elem_of_nil in Hg];
      repeat (apply elem_of_cons in Hbl as [->|Hbl]);
      try (by apply elem_of_nil in Hbl); simpl; lia.
  - intros bp v Hv. apply lookup_singleton_Some in Hv as [<- <-]. reflexivity.
Defined.

(** ** [HERAData]: the lookup tables and the two directions of slicing *)

Lemma mapM_OK {A B} (f : A → result B) (l : list A) (k : list B) :
  mapM f l = OK k ↔ Forall2 (fun x y => f x = OK y) l k.
Proof.
  revert k. induction l as [|x l IH]; intros k; simpl.
  - split; [intros [= <-]; constructor | by intros ->%Forall2_nil_inv_l].
  - split.
    + intros H. apply bind_OK in H as (y & Hy & H).
      apply bind_OK in H as (k' & Hk' & [= <-]).
      constructor; [done | by apply IH].
    + intros (y & k' & Hy & Hk' & ->)%Forall2_cons_inv_l.
      rewrite Hy. simpl. apply IH in Hk'. rewrite Hk'. done.
Qed.

Lemma mapM_Raise {A B} (f : A → result B) (l : list A) (e : exn) :
  mapM f l = Raise e → ∃ x, x ∈ l ∧ f x = Raise e.
Proof.
  induction l as [|x l IH]; simpl; [done|].
  destruct (f x) as [y|e'] eqn:Hx; simpl.
  - destruct (mapM f l) as [k|e'']; simpl; [done|].
    intros [= ->]. destruct (IH eq_refl) as (x' & Hin & Hx').
    exists x'. split; [by right | done].
  - intros [= ->]. exists x. split; [by left | done].
Qed.

(** [np.ediff1d(indices)]: the differences of consecutive elements. *)
Definition ediff1d (indices : list nat) : list Z :=
  zip_with (fun a b => Z.of_nat b - Z.of_nat a) indices (tail indices).

(** What [_determine_blt_slicing] returns instead of raising
    [NotImplementedError]. *)
Inductive blt_slicing : Type :=
| BltSlices (slices : gmap (Z * Z) slice)
| NotImplementedError (msg : string).

(** The body of the loop of lines 243-252 for the positions [indices] of one
    antenna pair; [None] where the code raises [NotImplementedError].
    [antpair2ind] is pyuvdata's [np.where] on the baseline array, so the
    positions are increasing; the last branch is reached with two positions
    at least, since the set of differences has one element. *)
Definition blt_slice (Nblts : nat) (indices : list nat) : option slice :=
  if bool_decide (length indices = 1%nat) then
    i0 ← indices !! 0%nat;
    Some (Slice i0 (i0 + 1) Nblts)
  else if negb (bool_decide (size (list_to_set (ediff1d indices) : gset Z) = 1%nat)) then
    None
  else
    i0 ← indices !! 0%nat;
    i1 ← indices !! 1%nat;
    ilast ← last indices;
    Some (Slice i0 (ilast + 1) (i1 - i0)).

Section BltSlicing.
(** pyuvdata's [antpair2ind(ant1, ant2)] and [Nblts]. *)
Variable antpair2ind : Z → Z → list nat.
Variable Nblts : nat.

(** [_determine_blt_slicing], lines 239-252, over [self.get_antpairs()]. *)
Definition _determine_blt_slicing (antpairs : list (Z * Z)) : blt_slicing :=
  foldl (fun st antpair =>
           match st with
           | BltSlices m =>
               match blt_slice Nblts (antpair2ind antpair.1 antpair.2) with
               | Some sl => BltSlices (<[antpair := sl]> m)
               | None =>
                   NotImplementedError
                     "UVData objects with non-regular spacing of baselines in its baseline-times are not supported."
               end
           | NotImplementedError msg => NotImplementedError msg
           end)
        (BltSlices ∅) antpairs.
End BltSlicing.

(** [_determine_pol_indexing], lines 254-259. *)
Definition _determine_pol_indexing (polarization_array : list Z) : gmap Z nat :=
  enumerate_dict polarization_array.

(** [data_array[indices, 0, :, p]] with a list of positions on the first
    axis. *)
Definition index_list_pol {A} (data_array : list (list (list (list A))))
    (indices : list nat) (p : nat) : result (waterfall A) :=
  mapM (fun b =>
          blt ← index data_array b;
          spw ← index blt 0;
          mapM (fun row => index row p) spw)
       indices.

Lemma regular_indices (d : Z) (a : nat) (l : list nat) :
  (∀ x, x ∈ ediff1d (a :: l) → x = d) →
  ∀ k y, (a :: l) !! k = Some y → Z.of_nat y = Z.of_nat a + Z.of_nat k * d.
Proof.
  revert a. induction l as [|b l IH]; intros a Hd k y Hk.
  - destruct k as [|k]; [|done]. injection Hk as <-. lia.
  - destruct k as [|k]; [injection Hk as <-; lia|].
    simpl in Hk. unfold ediff1d in Hd. simpl in Hd.
    assert (Hab : Z.of_nat b - Z.of_nat a = d) by (apply Hd; by left).
    rewrite (IH b (fun x Hx => Hd x ltac:(by right)) k y Hk). lia.
Qed.

Lemma slice_indices_regular (i0 d n len : nat) :
  (0 < d)%nat → (0 < n)%nat → (i0 + (n - 1) * d < len)%nat →
  slice_indices (Slice i0 (i0 + (n - 1) * d + 1) d) len
  = (fun k => i0 + k * d)%nat <$> seq 0 n.
Proof.
  intros Hd Hn Hlast. unfold slice_indices. simpl.
  rewrite Nat.min_l by lia.
  replace (i0 + (n - 1) * d + 1 - i0 + d - 1)%nat with (n * d)%nat by nia.
  by rewrite Nat.div_mul by lia.
Qed.

(** The slice that [_determine_blt_slicing] stores for an antenna pair
    selects exactly the positions of the pair: for increasing positions
    within the blt axis, slicing with it is indexing with the list of
    positions.  No slice is stored for an empty list of positions. *)
Lemma blt_slice_selects (Nblts : nat) (indices : list nat) (sl : slice) :
  (∀ k a b, indices !! k = Some a → indices !! S k = Some b → (a < b)%nat) →
  Forall (fun i => (i < Nblts)%nat) indices →
  blt_slice Nblts indices = Some sl →
  slice_indices sl Nblts = indices ∧ sl_step sl ≠ 0%nat ∧ indices ≠ [].
Proof.
  intros Hsort Hlt Hsl. unfold blt_slice in Hsl.
  case_bool_decide as Hone.
  - destruct indices as [|i0 [|? ?]]; try done. simpl in Hsl.
    injection Hsl as <-. apply Forall_inv in Hlt.
    unfold slice_indices. simpl. rewrite Nat.min_l by lia.
    replace (i0 + 1 - i0 + Nblts - 1)%nat with (1 * Nblts)%nat by lia.
    rewrite Nat.div_mul by lia. simpl.
    split; [f_equal; lia|]. split; [lia|done].
  - case_bool_decide as Hreg; [|done]. simpl in Hsl.
    destruct (last indices) as [ilast|] eqn:Hlast;
      [|apply last_None in Hlast; by subst].
    destruct indices as [|i0 [|i1 rest]]; try done. simpl in Hsl.
    injection Hsl as <-.
    assert (H01 : (i0 < i1)%nat) by (by apply (Hsort 0%nat)).
    apply size_1_elem_of in Hreg as [d Hd].
    assert (Hall : ∀ x, x ∈ ediff1d (i0 :: i1 :: rest) → x = d).
    { intros x Hx. apply (elem_of_list_to_set (C:=gset Z)) in Hx.
      rewrite Hd in Hx. by apply elem_of_singleton in Hx. }
    assert (Hd01 : d = Z.of_nat (i1 - i0)).
    { symmetry. rewrite Nat2Z.inj_sub by lia. apply Hall.
      unfold ediff1d. simpl. by left. }
    pose proof (regular_indices d i0 (i1 :: rest) Hall) as Hpos.
    set (n := length (i0 :: i1 :: rest)).
    assert (Hlist : i0 :: i1 :: rest
                    = (fun k => i0 + k * (i1 - i0))%nat <$> seq 0 n).
    { apply list_eq. intros k. rewrite list_lookup_fmap.
      destruct (decide (k < n)%nat) as [Hk|Hk].
      - rewrite lookup_seq_lt by done. simpl.
        destruct (lookup_lt_is_Some_2 (i0 :: i1 :: rest) k Hk) as [y Hy].
        rewrite Hy. f_equal. apply Hpos in Hy. nia.
      - rewrite lookup_seq_ge by lia. simpl.
        apply lookup_ge_None_2. fold n. lia. }
    assert (Hil : ilast = (i0 + (n - 1) * (i1 - i0))%nat).
    { rewrite last_lookup in Hlast. apply Hpos in Hlast.
      change (Init.Nat.pred (length (i0 :: i1 :: rest))) with (n - 0 - 1)%nat in Hlast.
      nia. }
    assert (Hn : (0 < n)%nat) by (unfold n; simpl; lia).
    assert (Hin : (ilast < Nblts)%nat).
    { rewrite last_lookup in Hlast.
      apply (proj1 (Forall_lookup _ _) Hlt _ _ Hlast). }
    rewrite Hil in *. rewrite slice_indices_regular by lia.
    split; [done|]. split; [simpl; lia|done].
Qed.

Lemma determine_blt_slicing_raised (antpair2ind : Z → Z → list nat) (Nblts : nat)
    (antpairs : list (Z * Z)) (msg : string) (f : blt_slicing → Z * Z → blt_slicing) :
  (∀ msg' ap, f (NotImplementedError msg') ap = NotImplementedError msg') →
  foldl f (NotImplementedError msg) antpairs = NotImplementedError msg.
Proof.
  intros Hf. induction antpairs as [|ap l IH]; simpl; [done|]. by rewrite Hf.
Qed.

Lemma determine_blt_slicing_lookup (antpair2ind : Z → Z → list nat) (Nblts : nat)
    (antpairs : list (Z * Z)) (m : gmap (Z * Z) slice) :
  _determine_blt_slicing antpair2ind Nblts antpairs = BltSlices m →
  ∀ ap, (ap ∈ antpairs ↔ is_Some (m !! ap))
        ∧ ∀ sl, m !! ap = Some sl →
                blt_slice Nblts (antpair2ind ap.1 ap.2) = Some sl.
Proof.
  unfold _determine_blt_slicing.
  set (f := fun (st : blt_slicing) (antpair : Z * Z) => _).
  assert (Hgen : ∀ m0, foldl f (BltSlices m0) antpairs = BltSlices m →
            ∀ ap, (ap ∈ antpairs ∨ is_Some (m0 !! ap) ↔ is_Some (m !! ap))
                  ∧ ∀ sl, m !! ap = Some sl →
                          blt_slice Nblts (antpair2ind ap.1 ap.2) = Some sl
                          ∨ m0 !! ap = Some sl).
  { induction antpairs as [|x l IH]; intros m0 Hrun ap.
    - simpl in Hrun. injection Hrun as <-. split.
      + split; [intros [[]%elem_of_nil|]; done | by right].
      + intros sl Hsl. by right.
    - change (foldl f (BltSlices m0) (x :: l))
        with (foldl f (f (BltSlices m0) x) l) in Hrun.
      assert (Hfx : f (BltSlices m0) x
                = match blt_slice Nblts (antpair2ind x.1 x.2) with
                  | Some sl => BltSlices (<[x := sl]> m0)
                  | None =>
                      NotImplementedError
                        "UVData objects with non-regular spacing of baselines in its baseline-times are not supported."
                  end) by reflexivity.
      rewrite Hfx in Hrun. clear Hfx.
      destruct (blt_slice Nblts (antpair2ind x.1 x.2)) as [slx|] eqn:Hx.
      + destruct (IH _ Hrun ap) as [Hkeys Hval]. split.
        * rewrite <- Hkeys, elem_of_cons.
          destruct (decide (ap = x)) as [->|Hne].
          -- rewrite lookup_insert_eq. split; [intros _; right; by eexists|].
             intros _. left. by left.
          -- rewrite lookup_insert_ne by done. split.
             ++ intros [[?|?]|?]; [done|by left|by right].
             ++ intros [?|?]; [left; by right|by right].
        * intros sl Hsl. destruct (Hval sl Hsl) as [?|Hins]; [by left|].
          destruct (decide (ap = x)) as [->|Hne].
          -- rewrite lookup_insert_eq in Hins. injection Hins as <-. by left.
          -- rewrite lookup_insert_ne in Hins by done. by right.
      + rewrite (determine_blt_slicing_raised antpair2ind Nblts) in Hrun; [done|].
        done. }
  intros Hrun ap. destruct (Hgen ∅ Hrun ap) as [Hkeys Hval]. split.
  - rewrite <- Hkeys. split; [by left|]. intros [?|[? H]]; [done|].
    by rewrite lookup_empty in H.
  - intros sl Hsl. destruct (Hval sl Hsl) as [?|H]; [done|].
    by rewrite lookup_empty in H.
Qed.

(** X13.  Regularly spaced positions are never refused: for a first position, a
    positive spacing and a count of at least one, all within the blt axis,
    [_determine_blt_slicing]'s loop body stores a slice, and this slice
    selects these positions. *)
Theorem blt_slice_regular (Nblts i0 d n : nat) :
  (0 < d)%nat → (0 < n)%nat → (i0 + (n - 1) * d < Nblts)%nat →
  ∃ sl, blt_slice Nblts ((fun k => i0 + k * d)%nat <$> seq 0 n) = Some sl
        ∧ slice_indices sl Nblts = (fun k => i0 + k * d)%nat <$> seq 0 n.
Proof.
  intros Hd Hn Hlast.
  set (idx := (fun k => i0 + k * d)%nat <$> seq 0 n).
  assert (Hlook : ∀ k, (k < n)%nat → idx !! k = Some (i0 + k * d)%nat).
  { intros k Hk. unfold idx. rewrite list_lookup_fmap, lookup_seq_lt by done. done. }
  assert (Hlen : length idx = n) by (unfold idx; by rewrite length_fmap, length_seq).
  assert (Hsome : ∃ sl, blt_slice Nblts idx = Some sl).
  { unfold blt_slice. case_bool_decide as Hone.
    - rewrite Hlook by lia. simpl. by eexists.
    - assert (Hn2 : (2 ≤ n)%nat) by lia.
      assert (Hdiff : ∀ x, x ∈ ediff1d idx ↔ x = Z.of_nat d).
      { intros x. unfold ediff1d. rewrite elem_of_lookup_zip_with. split.
        - intros (k & a & b & -> & Ha & Hb).
          rewrite lookup_tail in Hb.
          assert (k < n)%nat by (apply lookup_lt_Some in Ha; lia).
          assert (S k < n)%nat by (apply lookup_lt_Some in Hb; lia).
          rewrite Hlook in Ha, Hb by done.
          injection Ha as <-. injection Hb as <-. lia.
        - intros ->. exists 0%nat, i0, (i0 + d)%nat.
          split; [lia|]. split.
          + rewrite Hlook by lia. f_equal. lia.
          + rewrite lookup_tail, Hlook by lia. f_equal. lia. }
      assert (Hset : (list_to_set (ediff1d idx) : gset Z) = {[ Z.of_nat d ]}).
      { apply set_eq. intros x. rewrite elem_of_list_to_set, Hdiff.
        by rewrite elem_of_singleton. }
      rewrite Hset, size_singleton. rewrite bool_decide_eq_true_2 by done. simpl.
      rewrite !Hlook by lia. simpl.
      destruct (last idx) as [il|] eqn:Hl; [by eexists|].
      apply last_None in Hl. rewrite Hl in Hlen. simpl in Hlen. lia. }
  destruct Hsome as [sl Hsl]. exists sl. split; [done|].
  apply (blt_slice_selects Nblts idx sl); [| |done].
  - intros k a b Ha Hb.
    assert (S k < n)%nat by (apply lookup_lt_Some in Hb; lia).
    rewrite Hlook in Ha, Hb by lia. injection Ha as <-. injection Hb as <-. lia.
  - apply Forall_forall. intros x Hx. apply list_elem_of_lookup in Hx as [k Hk].
    assert (k < n)%nat by (apply lookup_lt_Some in Hk; lia).
    rewrite Hlook in Hk by done. injection Hk as <-. nia.
Qed.

Lemma blt_slice_regular_witness :
  ∃ sl, blt_slice 10 ((fun k => 1 + k * 3)%nat <$> seq 0 3) = Some sl
        ∧ slice_indices sl 10 = (fun k => 1 + k * 3)%nat <$> seq 0 3.
Proof.
  apply (blt_slice_regular 10 1 3 3); lia.
Defined.

(** X14.  Reading through the tables.  With the tables that
    [_determine_blt_slicing] and [_determine_pol_indexing] build,
    [_get_slice] of a stored antenna pair and a polarization of the
    polarization array returns the waterfall whose rows are the blts of the
    pair, in their order, at that polarization: [data_array[indices, 0, :, p]]
    for the positions [indices] of the pair (increasing, as [np.where] gives
    them) and the position [p] of the polarization. *)
Theorem get_slice_reads_positions (polstr2num : string → result Z)
    (antpair2ind : Z → Z → list nat) (antpairs : list (Z * Z))
    (polarization_array : list Z)
    (data_array : list (list (list (list complex))))
    (slices : gmap (Z * Z) slice)
    (i j : Z) (pol : string) (n : Z) (p : nat) (w : waterfall complex) :
  _determine_blt_slicing antpair2ind (length data_array) antpairs
    = BltSlices slices →
  (i, j) ∈ antpairs →
  (∀ k a b, antpair2ind i j !! k = Some a → antpair2ind i j !! S k = Some b →
            (a < b)%nat) →
  Forall (fun b => (b < length data_array)%nat) (antpair2ind i j) →
  polstr2num pol = OK n →
  NoDup polarization_array → polarization_array !! p = Some n →
  index_list_pol data_array (antpair2ind i j) p = OK w →
  _get_slice polstr2num
    {| _blt_slices := slices;
       _polnum_indices := _determine_pol_indexing polarization_array |}
    data_array (i, j, pol) = OK w.
Proof.
  intros Hsl Hin Hinc Hlt Hn Hnd Hp Hw.
  destruct (determine_blt_slicing_lookup _ _ _ _ Hsl (i, j)) as [Hkeys Hval].
  apply Hkeys in Hin as [sl Hsome]. specialize (Hval sl Hsome). simpl in Hval.
  destruct (blt_slice_selects _ _ _ Hinc Hlt Hval) as (Hsel & Hstep & _).
  assert (Hpol : _determine_pol_indexing polarization_array !! n = Some p).
  { apply enumerate_dict_lookup. split; [done|]. intros q Hq.
    by rewrite (NoDup_lookup _ _ _ _ Hnd Hq Hp). }
  unfold _get_slice, get_slice_try, getitem. simpl.
  rewrite Hsome. simpl. rewrite Hn. simpl. rewrite Hpol. simpl.
  unfold index_blt_pol. rewrite bool_decide_eq_false_2 by done.
  rewrite Hsel. unfold index_list_pol in Hw. rewrite Hw. done.
Qed.

Definition two_blts : list (list (list (list complex))) :=
  [ [[ [ (1%R, 0%R); (2%R, 0%R) ] ]];
    [[ [ (3%R, 0%R); (4%R, 0%R) ] ]] ].

Lemma get_slice_reads_positions_witness :
  _get_slice Pyuvdata.polstr2num
    {| _blt_slices := {[ (0, 1) := Slice 0 2 1 ]};
       _polnum_indices := _determine_pol_indexing [-5; -6] |}
    two_blts (0, 1, "yy"%string)
  = OK [[ (2%R, 0%R) ]; [ (4%R, 0%R) ]].
Proof.
  apply (get_slice_reads_positions Pyuvdata.polstr2num
           (fun _ _ => [0; 1]%nat) [(0, 1)] [-5; -6] two_blts
           {[ (0, 1) := Slice 0 2 1 ]} 0 1 "yy" (-6) 1%nat).
  - reflexivity.
  - by left.
  - intros k a b Ha Hb. destruct k as [|[|k]]; simpl in *; [|done|done].
    injection Ha as <-. injection Hb as <-. lia.
  - repeat constructor.
  - reflexivity.
  - apply NoDup_cons. split; [|apply NoDup_singleton].
    by intros [=]%list_elem_of_singleton.
  - reflexivity.
  - reflexivity.
Defined.

(** X15.  The table of [_determine_blt_slicing] has exactly the antenna pairs as
    keys, and the slice of a pair selects the positions of the pair on the blt
    axis, in their order, with a step that is not zero. *)
Theorem determine_blt_slicing_selects (antpair2ind : Z → Z → list nat)
    (Nblts : nat) (antpairs : list (Z * Z)) (slices : gmap (Z * Z) slice) :
  (∀ ap, ap ∈ antpairs →
     (∀ k a b, antpair2ind ap.1 ap.2 !! k = Some a →
               antpair2ind ap.1 ap.2 !! S k = Some b → (a < b)%nat)
     ∧ Forall (fun b => (b < Nblts)%nat) (antpair2ind ap.1 ap.2)) →
  _determine_blt_slicing antpair2ind Nblts antpairs = BltSlices slices →
  ∀ ap, (ap ∈ antpairs ↔ is_Some (slices !! ap))
        ∧ ∀ sl, slices !! ap = Some sl →
                slice_indices sl Nblts = antpair2ind ap.1 ap.2
                ∧ sl_step sl ≠ 0%nat.
Proof.
  intros Hreg Hrun ap.
  destruct (determine_blt_slicing_lookup _ _ _ _ Hrun ap) as [Hkeys Hval].
  split; [done|]. intros sl Hsl.
  assert (Hin : ap ∈ antpairs) by (apply Hkeys; by eexists).
  destruct (Hreg ap Hin) as [Hinc Hlt].
  destruct (blt_slice_selects _ _ _ Hinc Hlt (Hval sl Hsl)) as (? & ? & _).
  done.
Qed.

(** Two antenna pairs whose blts interleave. *)
Definition interleaved (ant1 ant2 : Z) : list nat :=
  if bool_decide (ant1 = 0) then [0; 2; 4]%nat else [1; 3; 5]%nat.

Lemma determine_blt_slicing_selects_witness :
  ((1, 2) ∈ [(0, 1); (1, 2)]
   ↔ is_Some (({[ (0, 1) := Slice 0 5 2; (1, 2) := Slice 1 6 2 ]}
               : gmap (Z * Z) slice) !! (1, 2)))
  ∧ ∀ sl, ({[ (0, 1) := Slice 0 5 2; (1, 2) := Slice 1 6 2 ]}
           : gmap (Z * Z) slice) !! (1, 2) = Some sl →
          slice_indices sl 6 = [1; 3; 5]%nat ∧ sl_step sl ≠ 0%nat.
Proof.
  apply (determine_blt_slicing_selects interleaved 6 [(0, 1); (1, 2)]
           {[ (0, 1) := Slice 0 5 2; (1, 2) := Slice 1 6 2 ]}).
  - intros ap Hap.
    repeat (apply elem_of_cons in Hap as [->|Hap]);
      [| |by apply elem_of_nil in Hap]; (split; [|repeat constructor]);
      intros [|[|[|k]]] a b Ha Hb; simpl in *; try done;
      injection Ha as <-; injection Hb as <-; lia.
  - reflexivity.
Defined.

(** [np.broadcast_to] along one axis: a list of the wanted length is kept,
    a list of one element is repeated, any other length does not
    broadcast. *)
Definition broadcast_list {X} (n : nat) (l : list X) : option (list X) :=
  if bool_decide (length l = n) then Some l
  else match l with
       | [x] => Some (replicate n x)
       | _ => None
       end.

(** A 2D value broadcast to the shape of the waterfall [old]. *)
Definition broadcast_wf {X Y} (old : waterfall Y) (value : waterfall X)
  : option (waterfall X) :=
  rows ← broadcast_list (length old) value;
  mapM (fun ov => broadcast_list (length ov.1) ov.2) (zip old rows).

(** Writing the row [bv.2] into blt [bv.1] at polarization [p]. *)
Definition write_row {A} (p : nat) (data_array : list (list (list (list A))))
    (bv : nat * list A) : list (list (list (list A))) :=
  alter (alter (fun spw => zip_with (fun row v => <[p := v]> row) spw bv.2) 0%nat)
        bv.1 data_array.

(** [data_array[sl, 0, :, p] = value] on an array of shape
    (Nblts, 1, Nfreq, Npol): numpy checks the index as for reading, then
    broadcasts [value] to the shape of the selection, then writes. *)
Definition assign_blt_pol {A} (data_array : list (list (list (list A))))
    (sl : slice) (p : nat) (value : waterfall A)
  : result (list (list (list (list A)))) :=
  old ← index_blt_pol data_array sl p;
  match broadcast_wf old value with
  | None => Raise (ValueError "could not broadcast input array")
  | Some v =>
      OK (foldl (write_row p) data_array
            (zip (slice_indices sl (length data_array)) v))
  end.

Section SetSlice.
Variable polstr2num : string → result Z.

(** The body of the [try] of [_set_slice], lines 307-308. *)
Definition set_slice_try (hd : HERAData)
    (data_array : list (list (list (list complex))))
    (key : Z * Z * string) (value : waterfall complex)
  : result (list (list (list (list complex)))) :=
  let '(i, j, pol) := key in
  sl ← getitem (_blt_slices hd) (i, j);
  n ← polstr2num pol;
  p ← getitem (_polnum_indices hd) n;
  assign_blt_pol data_array sl p value.

(** [_set_slice] on a baseline-polarization key [(i, j, pol)], lines 305-311;
    returns the array after the assignment. *)
Definition _set_slice (hd : HERAData)
    (data_array : list (list (list (list complex))))
    (key : Z * Z * string) (value : waterfall complex)
  : result (list (list (list (list complex)))) :=
  match set_slice_try hd data_array key value with
  | Raise KeyError =>
      let '(i, j, pol) := key in
      sl ← getitem (_blt_slices hd) (j, i);
      cp ← conj_pol polstr2num pol;
      n ← polstr2num cp;
      p ← getitem (_polnum_indices hd) n;
      assign_blt_pol data_array sl p (wf_map Cconj value)
  | r => r
  end.
End SetSlice.

Lemma broadcast_list_same {X} (n : nat) (l : list X) :
  length l = n → broadcast_list n l = Some l.
Proof. intros H. unfold broadcast_list. by rewrite bool_decide_eq_true_2. Qed.

Lemma broadcast_wf_same {X Y} (old : waterfall Y) (value : waterfall X) :
  wf_shape value = wf_shape old → broadcast_wf old value = Some value.
Proof.
  intros Hsh. unfold broadcast_wf, wf_shape in *.
  rewrite broadcast_list_same by (by rewrite <- (length_fmap length value), Hsh,
                                    length_fmap).
  simpl. apply mapM_Some. revert value Hsh.
  induction old as [|o old IH]; intros [|v value] Hsh; simpl in *; try done.
  injection Hsh as Hlen Hsh. constructor; [|by apply IH].
  simpl. by apply broadcast_list_same.
Qed.

(** Reading one blt at polarization [p]. *)
Definition get_row {A} (data_array : list (list (list (list A)))) (p b : nat)
  : result (list A) :=
  blt ← index data_array b;
  spw ← index blt 0;
  mapM (fun row => index row p) spw.

Lemma mapM_index_insert {A} (p : nat) (spw : list (list A)) (orow vrow : list A) :
  mapM (fun row => index row p) spw = OK orow → length vrow = length orow →
  mapM (fun row => index row p) (zip_with (fun row v => <[p := v]> row) spw vrow)
  = OK vrow.
Proof.
  intros Hold Hlen. apply mapM_OK in Hold. apply mapM_OK.
  revert vrow Hlen. induction Hold as [|row o spw orow Hrow _ IH];
    intros [|v vrow] Hlen; simpl in *; try done.
  constructor; [|apply IH; lia].
  unfold index in *. destruct (row !! p) as [x|] eqn:Hx; [|done].
  rewrite list_lookup_insert_eq; [done|]. by apply lookup_lt_Some in Hx.
Qed.

Lemma mapM_index_insert_ne {A} (p p' : nat) (spw : list (list A)) (vrow : list A) :
  p' ≠ p → length vrow = length spw →
  mapM (fun row => index row p') (zip_with (fun row v => <[p := v]> row) spw vrow)
  = mapM (fun row => index row p') spw.
Proof.
  intros Hne. revert vrow. induction spw as [|row spw IH];
    intros [|v vrow] Hlen; simpl in *; try done.
  assert (Hrow : index (<[p := v]> row) p' = index row p')
    by (unfold index; by rewrite list_lookup_insert_ne).
  rewrite Hrow. destruct (index row p'); simpl; [|done]. rewrite IH by lia. done.
Qed.

Lemma get_row_write_same {A} (p b : nat) (arr : list (list (list (list A))))
    (orow vrow : list A) :
  get_row arr p b = OK orow → length vrow = length orow →
  get_row (write_row p arr (b, vrow)) p b = OK vrow.
Proof.
  unfold get_row, write_row, index. simpl. intros Hold Hlen.
  rewrite list_lookup_alter_eq.
  destruct (arr !! b) as [blt|]; [|done]. simpl in *.
  rewrite list_lookup_alter_eq.
  destruct (blt !! 0%nat) as [spw|]; [|done]. simpl in *.
  by apply (mapM_index_insert p spw orow).
Qed.

Lemma get_row_write_other {A} (p p' b b' : nat) (arr : list (list (list (list A))))
    (vrow : list A) :
  b ≠ b' → get_row (write_row p arr (b, vrow)) p' b' = get_row arr p' b'.
Proof.
  intros Hne. unfold get_row, write_row, index. simpl.
  by rewrite list_lookup_alter_ne.
Qed.

Lemma get_row_write_pol {A} (p p' b b' : nat) (arr : list (list (list (list A))))
    (orow vrow : list A) :
  get_row arr p b = OK orow → length vrow = length orow → p' ≠ p →
  get_row (write_row p arr (b, vrow)) p' b' = get_row arr p' b'.
Proof.
  intros Hold Hlen Hne. destruct (decide (b = b')) as [<-|Hb];
    [|by apply get_row_write_other].
  unfold get_row, write_row, index in *. simpl.
  rewrite list_lookup_alter_eq.
  destruct (arr !! b) as [blt|]; [|done]. simpl in *.
  rewrite list_lookup_alter_eq.
  destruct (blt !! 0%nat) as [spw|]; [|done]. simpl in *.
  apply mapM_index_insert_ne; [done|].
  apply mapM_OK, Forall2_length in Hold. lia.
Qed.

Lemma length_write_rows {A} (p : nat) (bvs : list (nat * list A))
    (arr : list (list (list (list A)))) :
  length (foldl (write_row p) arr bvs) = length arr.
Proof.
  revert arr. induction bvs as [|bv bvs IH]; intros arr; simpl; [done|].
  rewrite IH. unfold write_row. apply length_alter.
Qed.

Lemma get_row_write_rows_other {A} (p p' b : nat) (bvs : list (nat * list A))
    (arr : list (list (list (list A)))) :
  b ∉ bvs.*1 → get_row (foldl (write_row p) arr bvs) p' b = get_row arr p' b.
Proof.
  revert arr. induction bvs as [|[b' v] bvs IH]; intros arr Hb; simpl; [done|].
  rewrite fmap_cons, not_elem_of_cons in Hb. destruct Hb as [Hne Hb].
  rewrite IH by done. apply get_row_write_other. simpl in Hne. congruence.
Qed.

(** Reading the rows that were just written gives what was written. *)
Lemma get_rows_write_rows {A} (p : nat) (idx : list nat) (v old : waterfall A)
    (arr : list (list (list (list A)))) :
  NoDup idx → mapM (get_row arr p) idx = OK old →
  Forall2 (fun vr o => length vr = length o) v old →
  mapM (get_row (foldl (write_row p) arr (zip idx v)) p) idx = OK v.
Proof.
  intros Hnd Hold Hsh. apply mapM_OK in Hold. apply mapM_OK.
  revert arr idx Hnd Hold. induction Hsh as [|vr o v old Hlen _ IH];
    intros arr idx Hnd Hold.
  - apply Forall2_nil_inv_r in Hold as ->. constructor.
  - apply Forall2_cons_inv_r in Hold as (b & idx' & Hb & Hold & ->).
    apply NoDup_cons in Hnd as [Hnot Hnd]. simpl. constructor.
    + rewrite get_row_write_rows_other.
      * by apply (get_row_write_same p b arr o).
      * intros Hin. apply Hnot.
        apply list_elem_of_fmap in Hin as ([b' vr'] & -> & Hin).
        by apply elem_of_zip_l in Hin.
    + apply IH; [done|].
      assert (Hall : Forall (fun b' => b' ≠ b) idx').
      { apply Forall_forall. intros b' Hb' ->. done. }
      clear -Hold Hall. induction Hold as [|b' o' idx' old' Hb' _ IH']; [constructor|].
      apply Forall_cons in Hall as [Hne Hall].
      constructor; [|by apply IH'].
      rewrite get_row_write_other; [done|congruence].
Qed.

Lemma slice_indices_NoDup (sl : slice) (len : nat) :
  sl_step sl ≠ 0%nat → NoDup (slice_indices sl len).
Proof.
  intros Hstep. unfold slice_indices. apply NoDup_fmap_2; [|apply NoDup_seq].
  intros k k' Hk. nia.
Qed.

Lemma index_blt_pol_rows {A} (arr : list (list (list (list A)))) (sl : slice)
    (p : nat) :
  sl_step sl ≠ 0%nat →
  index_blt_pol arr sl p = mapM (get_row arr p) (slice_indices sl (length arr)).
Proof.
  intros Hstep. unfold index_blt_pol. by rewrite bool_decide_eq_false_2.
Qed.

Lemma index_blt_pol_step {A} (arr : list (list (list (list A)))) (sl : slice)
    (p : nat) (old : waterfall A) :
  index_blt_pol arr sl p = OK old → sl_step sl ≠ 0%nat.
Proof.
  unfold index_blt_pol. case_bool_decide; [done|]. done.
Qed.

Lemma index_blt_pol_not_KeyError {A} (arr : list (list (list (list A))))
    (sl : slice) (p : nat) :
  index_blt_pol arr sl p ≠ Raise KeyError.
Proof.
  unfold index_blt_pol. case_bool_decide as Hs; [done|]. intros Hm.
  apply mapM_Raise in Hm as (b & _ & Hb). unfold index in Hb.
  destruct (arr !! b) as [blt|]; [|done]. simpl in Hb.
  destruct (blt !! 0%nat) as [spw|]; [|done]. simpl in Hb.
  apply mapM_Raise in Hb as (row & _ & Hr). by destruct (row !! p).
Qed.

Lemma wf_shape_Forall2 {A B} (v : waterfall A) (old : waterfall B) :
  wf_shape v = wf_shape old → Forall2 (fun vr o => length vr = length o) v old.
Proof.
  unfold wf_shape. revert old. induction v as [|vr v IH]; intros [|o old] H;
    simpl in *; try done.
  injection H as Hlen H. constructor; [done | by apply IH].
Qed.

(** Assigning a value of the shape of the selection succeeds where reading
    does, and reading the selection afterwards gives the value. *)
Lemma assign_then_index {A} (arr : list (list (list (list A)))) (sl : slice)
    (p : nat) (old value : waterfall A) :
  index_blt_pol arr sl p = OK old → wf_shape value = wf_shape old →
  ∃ arr', assign_blt_pol arr sl p value = OK arr'
          ∧ index_blt_pol arr' sl p = OK value.
Proof.
  intros Hold Hsh. pose proof (index_blt_pol_step _ _ _ _ Hold) as Hstep.
  unfold assign_blt_pol. rewrite Hold. simpl.
  rewrite (broadcast_wf_same old value Hsh).
  eexists. split; [reflexivity|].
  rewrite index_blt_pol_rows in Hold |- * by done.
  rewrite length_write_rows.
  apply (get_rows_write_rows p _ value old arr); [|done|].
  - by apply slice_indices_NoDup.
  - by apply wf_shape_Forall2.
Qed.

Lemma Cconj_involutive (z : complex) : Cconj (Cconj z) = z.
Proof. destruct z as [a b]. unfold Cconj. simpl. f_equal. lra. Qed.

Lemma wf_map_Cconj_involutive (w : waterfall complex) :
  wf_map Cconj (wf_map Cconj w) = w.
Proof.
  unfold wf_map. rewrite <- list_fmap_compose.
  rewrite <- (list_fmap_id w) at 2. apply list_fmap_ext. intros _ row _. simpl.
  rewrite <- list_fmap_compose. rewrite <- (list_fmap_id row) at 2.
  apply list_fmap_ext. intros _ z _. apply Cconj_involutive.
Qed.


Lemma broadcast_list_length {X} (n : nat) (l l' : list X) :
  broadcast_list n l = Some l' → length l' = n.
Proof.
  unfold broadcast_list. case_bool_decide as Hl; [by intros [= <-]|].
  destruct l as [|x [|? ?]]; intros [= <-]. apply length_replicate.
Qed.

Lemma broadcast_wf_lengths {X Y} (old : waterfall Y) (value v : waterfall X) :
  broadcast_wf old value = Some v →
  Forall2 (fun vr o => length vr = length o) v old.
Proof.
  unfold broadcast_wf. intros H.
  destruct (broadcast_list (length old) value) as [rows|] eqn:Hrows; [|done].
  simpl in H. apply broadcast_list_length in Hrows.
  apply mapM_Some in H. clear value.
  revert rows v Hrows H. induction old as [|o old IH]; intros rows v Hrows H.
  - destruct rows; [|done]. simpl in H. apply Forall2_nil_inv_l in H as ->.
    constructor.
  - destruct rows as [|r rows]; [done|]. simpl in H.
    apply Forall2_cons_inv_l in H as (vr & v' & Hvr & H & ->).
    constructor.
    + simpl in Hvr. by apply broadcast_list_length in Hvr.
    + apply (IH rows); [simpl in Hrows; lia | done].
Qed.

Lemma get_row_write_rows_pol {A} (p p' b' : nat) (idx : list nat)
    (v old : waterfall A) (arr : list (list (list (list A)))) :
  NoDup idx → mapM (get_row arr p) idx = OK old →
  Forall2 (fun vr o => length vr = length o) v old → p' ≠ p →
  get_row (foldl (write_row p) arr (zip idx v)) p' b' = get_row arr p' b'.
Proof.
  intros Hnd Hold Hsh Hne. apply mapM_OK in Hold.
  revert arr idx Hnd Hold. induction Hsh as [|vr o v old Hlen _ IH];
    intros arr idx Hnd Hold.
  - apply Forall2_nil_inv_r in Hold as ->. done.
  - apply Forall2_cons_inv_r in Hold as (b & idx' & Hb & Hold & ->).
    apply NoDup_cons in Hnd as [Hnot Hnd]. simpl.
    assert (Hold' : Forall2 (fun x y => get_row (write_row p arr (b, vr)) p x = OK y)
                      idx' old).
    { assert (Hall : Forall (fun b0 => b0 ≠ b) idx').
      { apply Forall_forall. intros b0 Hb0 ->. done. }
      clear -Hold Hall.
      induction Hold as [|b0 o' idx' old' Hb0 _ IH']; [constructor|].
      apply Forall_cons in Hall as [Hne Hall].
      constructor; [|by apply IH'].
      rewrite get_row_write_other; [done|congruence]. }
    rewrite (IH (write_row p arr (b, vr)) idx' Hnd Hold').
    by apply (get_row_write_pol p p' b b' arr o).
Qed.

Lemma mapM_ext_in {A B} (f g : A → result B) (l : list A) :
  (∀ x, x ∈ l → f x = g x) → mapM f l = mapM g l.
Proof.
  induction l as [|x l IH]; intros Hfg; [done|].
  simpl. rewrite (Hfg x) by (by left).
  destruct (g x); simpl; [|done].
  rewrite IH; [done|]. intros y Hy. apply Hfg. by right.
Qed.

(** An assignment changes nothing at another polarization, and nothing at
    blts outside its slice. *)
Lemma assign_frame {A} (arr arr' : list (list (list (list A)))) (sl sl' : slice)
    (p p' : nat) (value : waterfall A) :
  assign_blt_pol arr sl p value = OK arr' →
  p' ≠ p ∨ (∀ b, b ∈ slice_indices sl (length arr) →
                 b ∉ slice_indices sl' (length arr)) →
  index_blt_pol arr' sl' p' = index_blt_pol arr sl' p'.
Proof.
  unfold assign_blt_pol. intros Ha Hsep.
  apply bind_OK in Ha as (old & Hold & Ha).
  destruct (broadcast_wf old value) as [v|] eqn:Hv; [|done].
  injection Ha as <-. apply broadcast_wf_lengths in Hv.
  pose proof (index_blt_pol_step _ _ _ _ Hold) as Hstep.
  rewrite index_blt_pol_rows in Hold by done.
  unfold index_blt_pol. case_bool_decide as Hs'; [done|].
  rewrite length_write_rows.
  change (mapM (get_row (foldl (write_row p) arr
                    (zip (slice_indices sl (length arr)) v)) p')
               (slice_indices sl' (length arr))
          = mapM (get_row arr p') (slice_indices sl' (length arr))).
  assert (Hrows : ∀ b', b' ∈ slice_indices sl' (length arr) →
            get_row (foldl (write_row p) arr
                       (zip (slice_indices sl (length arr)) v)) p' b'
            = get_row arr p' b').
  { intros b' Hb'. destruct Hsep as [Hne|Hdis].
    - apply (get_row_write_rows_pol p p' b' _ v old);
        [by apply slice_indices_NoDup|done|done|done].
    - apply get_row_write_rows_other. intros Hin.
      apply list_elem_of_fmap in Hin as ([b0 vr] & -> & Hin).
      apply elem_of_zip_l in Hin. by apply (Hdis b0). }
  by apply mapM_ext_in.
Qed.

Lemma assign_not_KeyError {A} (arr : list (list (list (list A)))) (sl : slice)
    (p : nat) (value : waterfall A) :
  assign_blt_pol arr sl p value ≠ Raise KeyError.
Proof.
  unfold assign_blt_pol.
  destruct (index_blt_pol arr sl p) as [old|e] eqn:Hold; simpl.
  - by destruct (broadcast_wf old value).
  - intros [= ->]. by apply index_blt_pol_not_KeyError in Hold.
Qed.

Section Resolve.
Variable polstr2num : string → result Z.

(** The lookups that [_get_slice] and [_set_slice] share, lines 279-283 and
    307-311: the slice and the polarization index that a key resolves to, and
    whether through the reversed antenna pair, where the data are
    conjugated. *)
Definition resolve (hd : HERAData) (key : Z * Z * string)
  : result (slice * nat * bool) :=
  let '(i, j, pol) := key in
  match (sl ← getitem (_blt_slices hd) (i, j);
         n ← polstr2num pol;
         p ← getitem (_polnum_indices hd) n;
         OK (sl, p)) : result (slice * nat) with
  | OK slp => OK (slp, false)
  | Raise KeyError =>
      sl ← getitem (_blt_slices hd) (j, i);
      cp ← conj_pol polstr2num pol;
      n ← polstr2num cp;
      p ← getitem (_polnum_indices hd) n;
      OK (sl, p, true)
  | Raise e => Raise e
  end.

Lemma get_slice_resolve (hd : HERAData)
    (data_array : list (list (list (list complex)))) (key : Z * Z * string) :
  _get_slice polstr2num hd data_array key
  = resolve hd key ≫= fun slpc : slice * nat * bool =>
      w ← index_blt_pol data_array slpc.1.1 slpc.1.2;
      OK (if slpc.2 then wf_map Cconj w else w).
Proof.
  destruct key as [[i j] pol]. unfold _get_slice, get_slice_try, resolve.
  destruct (getitem (_blt_slices hd) (i, j)) as [sl|e1]; simpl;
    [|destruct e1; try done].
  - destruct (polstr2num pol) as [n|e2]; simpl; [|destruct e2; try done].
    + destruct (getitem (_polnum_indices hd) n) as [p|e3]; simpl;
        [|destruct e3; try done].
      * destruct (index_blt_pol data_array sl p) as [w|e4] eqn:Hw; simpl; [done|].
        destruct e4; try done. by apply index_blt_pol_not_KeyError in Hw.
      * by (destruct (getitem (_blt_slices hd) (j, i)); simpl; [|done];
            destruct (conj_pol polstr2num pol) as [cp|]; simpl; [|done];
            destruct (polstr2num cp); simpl; [|done];
            destruct (getitem (_polnum_indices hd) _); simpl; done).
    + by (destruct (getitem (_blt_slices hd) (j, i)); simpl; [|done];
            destruct (conj_pol polstr2num pol) as [cp|]; simpl; [|done];
            destruct (polstr2num cp); simpl; [|done];
            destruct (getitem (_polnum_indices hd) _); simpl; done).
  - by (destruct (getitem (_blt_slices hd) (j, i)); simpl; [|done];
            destruct (conj_pol polstr2num pol) as [cp|]; simpl; [|done];
            destruct (polstr2num cp); simpl; [|done];
            destruct (getitem (_polnum_indices hd) _); simpl; done).
Qed.

Lemma set_slice_resolve (hd : HERAData)
    (data_array : list (list (list (list complex)))) (key : Z * Z * string)
    (value : waterfall complex) :
  _set_slice polstr2num hd data_array key value
  = resolve hd key ≫= fun slpc : slice * nat * bool =>
      assign_blt_pol data_array slpc.1.1 slpc.1.2
        (if slpc.2 then wf_map Cconj value else value).
Proof.
  destruct key as [[i j] pol]. unfold _set_slice, set_slice_try, resolve.
  destruct (getitem (_blt_slices hd) (i, j)) as [sl|e1]; simpl;
    [|destruct e1; try done].
  - destruct (polstr2num pol) as [n|e2]; simpl; [|destruct e2; try done].
    + destruct (getitem (_polnum_indices hd) n) as [p|e3]; simpl;
        [|destruct e3; try done].
      * destruct (assign_blt_pol data_array sl p value) as [w|e4] eqn:Hw; simpl;
          [done|].
        destruct e4; try done. by apply assign_not_KeyError in Hw.
      * by (destruct (getitem (_blt_slices hd) (j, i)); simpl; [|done];
            destruct (conj_pol polstr2num pol) as [cp|]; simpl; [|done];
            destruct (polstr2num cp); simpl; [|done];
            destruct (getitem (_polnum_indices hd) _); simpl; done).
    + by (destruct (getitem (_blt_slices hd) (j, i)); simpl; [|done];
            destruct (conj_pol polstr2num pol) as [cp|]; simpl; [|done];
            destruct (polstr2num cp); simpl; [|done];
            destruct (getitem (_polnum_indices hd) _); simpl; done).
  - by (destruct (getitem (_blt_slices hd) (j, i)); simpl; [|done];
            destruct (conj_pol polstr2num pol) as [cp|]; simpl; [|done];
            destruct (polstr2num cp); simpl; [|done];
            destruct (getitem (_polnum_indices hd) _); simpl; done).
Qed.
End Resolve.

Lemma set_then_get (polstr2num : string → result Z) (hd : HERAData)
    (arr : list (list (list (list complex)))) (key : Z * Z * string)
    (old value : waterfall complex) :
  _get_slice polstr2num hd arr key = OK old → wf_shape value = wf_shape old →
  ∃ arr', _set_slice polstr2num hd arr key value = OK arr'
          ∧ _get_slice polstr2num hd arr' key = OK value.
Proof.
  rewrite get_slice_resolve. intros Hget Hsh.
  apply bind_OK in Hget as ([[sl p] c] & Hkey & Hget). simpl in Hget.
  apply bind_OK in Hget as (w & Hw & [= <-]).
  destruct (assign_then_index _ _ _ _ (if c then wf_map Cconj value else value) Hw)
    as (arr' & Ha & Hr).
  { destruct c; by rewrite ?wf_shape_map in *. }
  exists arr'. rewrite set_slice_resolve, get_slice_resolve, Hkey. simpl.
  rewrite Ha, Hr. simpl. split; [done|].
  destruct c; [by rewrite wf_map_Cconj_involutive | done].
Qed.


(** X16.  Writing a waterfall and reading it back.  Where [_get_slice] of a key
    returns a waterfall, [_set_slice] of the key with a value of the same
    shape succeeds, and [_get_slice] of the key then returns this value,
    whether the baseline is stored under the key or under the reversed antenna
    pair (where the conjugate is what is stored). *)
Theorem set_slice_get_slice (polstr2num : string → result Z)
    (hd : HERAData) (data_array : list (list (list (list complex))))
    (key : Z * Z * string) (old value : waterfall complex) :
  _get_slice polstr2num hd data_array key = OK old →
  wf_shape value = wf_shape old →
  ∃ data_array',
    _set_slice polstr2num hd data_array key value = OK data_array'
    ∧ _get_slice polstr2num hd data_array' key = OK value.
Proof.
  apply set_then_get.
Qed.

Lemma set_slice_get_slice_witness :
  ∃ data_array',
    _set_slice Pyuvdata.polstr2num example_hd example_data_array
      (1, 0, "yx"%string) [[ (5%R, 6%R) ]] = OK data_array'
    ∧ _get_slice Pyuvdata.polstr2num example_hd data_array' (1, 0, "yx"%string)
      = OK [[ (5%R, 6%R) ]].
Proof.
  apply (set_slice_get_slice Pyuvdata.polstr2num example_hd example_data_array
           (1, 0, "yx"%string) [[ Cconj (1%R, 2%R) ]] [[ (5%R, 6%R) ]]);
    reflexivity.
Defined.

(** X17.  Writing the waterfall of one key leaves the waterfalls of the other keys
    alone: after [_set_slice] of a key, [_get_slice] of a key that resolves
    to another polarization index, or to a slice with no blt in common,
    returns (or raises) what it did before. *)
Theorem set_slice_frame (polstr2num : string → result Z)
    (hd : HERAData) (data_array data_array' : list (list (list (list complex))))
    (key key' : Z * Z * string) (value : waterfall complex)
    (sl sl' : slice) (p p' : nat) (c c' : bool) :
  _set_slice polstr2num hd data_array key value = OK data_array' →
  resolve polstr2num hd key = OK (sl, p, c) →
  resolve polstr2num hd key' = OK (sl', p', c') →
  p' ≠ p ∨ (∀ b, b ∈ slice_indices sl (length data_array) →
                 b ∉ slice_indices sl' (length data_array)) →
  _get_slice polstr2num hd data_array' key'
  = _get_slice polstr2num hd data_array key'.
Proof.
  intros Hset Hkey Hkey' Hsep.
  rewrite set_slice_resolve, Hkey in Hset. simpl in Hset.
  rewrite !get_slice_resolve, Hkey'. simpl.
  by rewrite (assign_frame _ _ _ _ _ _ _ Hset Hsep).
Qed.

Lemma set_slice_frame_witness :
  ∃ data_array',
    _set_slice Pyuvdata.polstr2num example_hd example_data_array
      (0, 1, "xy"%string) [[ (5%R, 6%R) ]] = OK data_array'
    ∧ _get_slice Pyuvdata.polstr2num example_hd data_array' (0, 1, "yx"%string)
      = _get_slice Pyuvdata.polstr2num example_hd example_data_array
          (0, 1, "yx"%string).
Proof.
  eexists. split; [reflexivity|].
  apply (set_slice_frame Pyuvdata.polstr2num example_hd example_data_array _
           (0, 1, "xy"%string) (0, 1, "yx"%string) [[ (5%R, 6%R) ]]
           (Slice 0 1 1) (Slice 0 1 1) 0%nat 1%nat false false);
    [reflexivity|reflexivity|reflexivity|].
  left. lia.
Defined.

(** ** [HERAData.update] *)

Section Update.
Variable polstr2num : string → result Z.

(** [update], lines 415-417: [for bl in data.keys():
    self._set_slice(self.data_array, bl, data[bl])], on the items of the
    container; returns the data array after the loop.  (The loops over the
    flags and the samples are the same on their arrays.) *)
Definition update (hd : HERAData)
    (data_array : list (list (list (list complex))))
    (data : list ((Z * Z * string) * waterfall complex))
  : result (list (list (list (list complex)))) :=
  foldM (fun arr it => _set_slice polstr2num hd arr it.1 it.2) data_array data.

(** Two keys are stored apart when they resolve to different polarization
    indices or to slices without a common blt. *)
Definition stored_apart (hd : HERAData) (Nblts : nat)
    (key key' : Z * Z * string) : Prop :=
  ∃ sl p c sl' p' c',
    resolve polstr2num hd key = OK (sl, p, c)
    ∧ resolve polstr2num hd key' = OK (sl', p', c')
    ∧ (p ≠ p' ∨ ∀ b, b ∈ slice_indices sl Nblts → b ∉ slice_indices sl' Nblts).

Lemma set_slice_length (hd : HERAData)
    (arr arr' : list (list (list (list complex)))) (key : Z * Z * string)
    (value : waterfall complex) :
  _set_slice polstr2num hd arr key value = OK arr' → length arr' = length arr.
Proof.
  rewrite set_slice_resolve. intros H.
  apply bind_OK in H as ([[sl p] c] & _ & H). simpl in H.
  unfold assign_blt_pol in H. apply bind_OK in H as (old & _ & H).
  destruct (broadcast_wf old _); [|done]. injection H as <-.
  apply length_write_rows.
Qed.

Lemma set_slice_apart (hd : HERAData)
    (arr arr' : list (list (list (list complex)))) (key key' : Z * Z * string)
    (value : waterfall complex) :
  _set_slice polstr2num hd arr key value = OK arr' →
  stored_apart hd (length arr) key key' ∨ stored_apart hd (length arr) key' key →
  _get_slice polstr2num hd arr' key' = _get_slice polstr2num hd arr key'.
Proof.
  intros Hset Hap.
  assert (Hsep : ∃ sl p c sl' p' c',
            resolve polstr2num hd key = OK (sl, p, c)
            ∧ resolve polstr2num hd key' = OK (sl', p', c')
            ∧ (p' ≠ p ∨ ∀ b, b ∈ slice_indices sl (length arr) →
                             b ∉ slice_indices sl' (length arr))).
  { destruct Hap as [(sl & p & c & sl' & p' & c' & H1 & H2 & [Hp|Hd])
                    |(sl' & p' & c' & sl & p & c & H2 & H1 & [Hp|Hd])];
      exists sl, p, c, sl', p', c'; (split; [done|]); (split; [done|]).
    - left. congruence.
    - by right.
    - by left.
    - right. intros b Hb Hb'. by apply (Hd b). }
  destruct Hsep as (sl & p & c & sl' & p' & c' & Hkey & Hkey' & Hsep).
  rewrite set_slice_resolve, Hkey in Hset. simpl in Hset.
  rewrite !get_slice_resolve, Hkey'. simpl.
  by rewrite (assign_frame _ _ _ _ _ _ _ Hset Hsep).
Qed.

Lemma update_apart (hd : HERAData)
    (data : list ((Z * Z * string) * waterfall complex))
    (arr arr' : list (list (list (list complex)))) (key : Z * Z * string) :
  update hd arr data = OK arr' →
  Forall (fun it => stored_apart hd (length arr) key it.1) data →
  length arr' = length arr
  ∧ _get_slice polstr2num hd arr' key = _get_slice polstr2num hd arr key.
Proof.
  unfold update. revert arr. induction data as [|it data IH]; intros arr Hrun Hap.
  - by injection Hrun as <-.
  - rewrite foldM_cons in Hrun. apply bind_OK in Hrun as (arr1 & Hset & Hrun).
    apply Forall_cons in Hap as [Hit Hap].
    pose proof (set_slice_length _ _ _ _ _ Hset) as Hlen.
    rewrite <- Hlen in Hap. destruct (IH arr1 Hrun Hap) as [Hlen' Hget].
    split; [congruence|]. rewrite Hget.
    apply (set_slice_apart hd arr arr1 it.1 key it.2 Hset). by right.
Qed.
End Update.

(** X18.  Updating and reading back.  When the keys of the container are stored
    apart from each other and each waterfall has the shape of the one that
    its key reads, [update] succeeds and [_get_slice] of every key then
    returns the waterfall given for it: the array holds what
    [build_datacontainers] turns back into the container. *)
Theorem update_reads_back (polstr2num : string → result Z) (hd : HERAData)
    (data_array : list (list (list (list complex))))
    (data : list ((Z * Z * string) * waterfall complex)) :
  ForallOrdPairs (fun it it' => stored_apart polstr2num hd (length data_array)
                                  it.1 it'.1) data →
  Forall (fun it => ∃ old, _get_slice polstr2num hd data_array it.1 = OK old
                           ∧ wf_shape it.2 = wf_shape old) data →
  ∃ data_array',
    update polstr2num hd data_array data = OK data_array'
    ∧ Forall (fun it => _get_slice polstr2num hd data_array' it.1 = OK it.2) data.
Proof.
  revert data_array. induction data as [|it data IH]; intros arr Hap Hold.
  - exists arr. split; [done | constructor].
  - inversion Hap as [|? ? Hit Hap']; subst.
    apply Forall_cons in Hold as [(old & Hget & Hsh) Hold].
    destruct (set_then_get polstr2num hd arr it.1 old it.2 Hget Hsh)
      as (arr1 & Hset & Hback).
    pose proof (set_slice_length _ _ _ _ _ _ Hset) as Hlen.
    destruct (IH arr1) as (arr' & Hrun & Hall).
    { by rewrite Hlen. }
    { apply Forall_forall. intros it' Hit'.
      destruct (proj1 (Forall_forall _ _) Hold it' Hit') as (old' & Hget' & Hsh').
      exists old'. split; [|done]. rewrite <- Hget'.
      apply (set_slice_apart polstr2num hd arr arr1 it.1 it'.1 it.2 Hset).
      left. by apply (proj1 (Forall_forall _ _) Hit it'). }
    exists arr'. split.
    + unfold update in *. rewrite foldM_cons, Hset. exact Hrun.
    + constructor; [|done].
      destruct (update_apart polstr2num hd data arr1 arr' it.1 Hrun) as [_ Heq].
      { by rewrite Hlen. }
      by rewrite Heq.
Qed.

Definition two_pols_hd : HERAData :=
  {| _blt_slices := {[ (0, 1) := Slice 0 2 1 ]};
     _polnum_indices := {[ -5 := 0%nat; -6 := 1%nat ]} |}.

Lemma update_reads_back_witness :
  ∃ data_array',
    update Pyuvdata.polstr2num two_pols_hd two_blts
      [ ((0, 1, "xx"%string), [[ (5%R, 0%R) ]; [ (6%R, 0%R) ]]);
        ((1, 0, "yy"%string), [[ (7%R, 0%R) ]; [ (8%R, 0%R) ]]) ] = OK data_array'
    ∧ Forall (fun it => _get_slice Pyuvdata.polstr2num two_pols_hd data_array' it.1
                        = OK it.2)
        [ ((0, 1, "xx"%string), [[ (5%R, 0%R) ]; [ (6%R, 0%R) ]]);
          ((1, 0, "yy"%string), [[ (7%R, 0%R) ]; [ (8%R, 0%R) ]]) ].
Proof.
  apply (update_reads_back Pyuvdata.polstr2num two_pols_hd two_blts).
  - constructor; [|constructor; [constructor | constructor]].
    constructor; [|constructor].
    exists (Slice 0 2 1), 0%nat, false, (Slice 0 2 1), 1%nat, true.
    split; [reflexivity|]. split; [reflexivity|]. left. lia.
  - constructor; [|constructor; [|constructor]].
    + exists [[ (1%R, 0%R) ]; [ (3%R, 0%R) ]]. split; reflexivity.
    + exists [[ Cconj (2%R, 0%R) ]; [ Cconj (4%R, 0%R) ]]. split; reflexivity.
Defined.

(** ** [HERAData.iterate_over_bls], [iterate_over_freqs], [iterate_over_times] *)

(** The loop the three iterators share, lines 490-491, 512-513 and 534-535:
    [for i in range(0, len(l), N): yield self.read(...=l[i:i + N])], as the
    list of the arguments [l[i:i + N]] of the successive reads.  [range]
    raises [ValueError] for a step of zero and is empty for a negative
    step. *)
Definition iterate_chunks {A} (N : Z) (l : list A) : result (list (list A)) :=
  if bool_decide (N = 0) then Raise (ValueError "range() step argument must not be zero")
  else if bool_decide (N < 0) then OK []
  else
    let n := Z.to_nat N in
    OK ((fun k => take n (drop (k * n) l))
          <$> seq 0 ((length l + n - 1) / n)).

Lemma iterate_chunks_cons {A} (n : nat) (l : list A) :
  (0 < n)%nat → l ≠ [] →
  (fun k => take n (drop (k * n) l)) <$> seq 0 ((length l + n - 1) / n)
  = take n l
    :: ((fun k => take n (drop (k * n) (drop n l)))
          <$> seq 0 ((length (drop n l) + n - 1) / n)).
Proof.
  intros Hn Hl.
  assert (Hlen : (0 < length l)%nat) by (destruct l; [done | simpl; lia]).
  assert (Hcount : ((length l + n - 1) / n
                    = S ((length (drop n l) + n - 1) / n))%nat).
  { rewrite length_drop. destruct (decide (n ≤ length l)%nat) as [Hle|Hgt].
    - replace (length l + n - 1)%nat with ((length l - n + n - 1) + 1 * n)%nat by lia.
      rewrite Nat.div_add by lia. lia.
    - replace (length l - n)%nat with 0%nat by lia. simpl.
      rewrite (Nat.div_small (n - 1) n) by lia.
      symmetry. apply (Nat.div_unique _ _ _ (length l - 1)); lia. }
  rewrite Hcount. rewrite <- cons_seq, fmap_cons. simpl. f_equal.
  rewrite <- fmap_S_seq, <- list_fmap_compose. apply list_fmap_ext.
  intros _ k _. simpl. rewrite drop_drop. do 2 f_equal; lia.
Qed.

Lemma iterate_chunks_props {A} (n : nat) (l : list A) :
  (0 < n)%nat →
  let chunks := (fun k => take n (drop (k * n) l))
                  <$> seq 0 ((length l + n - 1) / n) in
  concat chunks = l
  ∧ Forall (fun c => (0 < length c ≤ n)%nat) chunks
  ∧ ∀ k c, chunks !! k = Some c → (S k < length chunks)%nat → length c = n.
Proof.
  intros Hn. remember (length l) as m eqn:Hm.
  revert l Hm. induction (lt_wf m) as [m _ IH]. intros l Hm.
  destruct l as [|x l'].
  { simpl in Hm. subst m. simpl. rewrite (Nat.div_small (n - 1) n) by lia.
    simpl. split; [done|]. split; [constructor|]. intros k c Hk. done. }
  set (l := x :: l') in *.
  rewrite Hm. rewrite iterate_chunks_cons by done.
  destruct (IH (length (drop n l))
              ltac:(rewrite length_drop; simpl in *; lia) (drop n l) eq_refl)
    as (Hcat & Hall & Hfull).
  cbv zeta in *. split; [|split].
  - simpl. rewrite Hcat. apply take_drop.
  - constructor; [|done]. rewrite length_take. simpl. lia.
  - intros [|k] c Hk Hlast.
    + injection Hk as <-. simpl in Hlast.
      rewrite length_take. apply Nat.min_l.
      destruct (decide (n ≤ length l)%nat) as [|Hshort]; [done|].
      rewrite length_fmap, length_seq, length_drop in Hlast.
      replace (length l - n)%nat with 0%nat in Hlast by lia.
      simpl in Hlast. rewrite (Nat.div_small (n - 1) n) in Hlast by lia. lia.
    + simpl in Hk, Hlast. apply (Hfull k c Hk). lia.
Qed.

(** X19.  For a positive chunk size the reads cover the list in order, without
    overlap: the chunks concatenate to the list, none is empty, all but the
    last have exactly N elements, and the last has at most N. *)
Theorem iterate_chunks_partition {A} (N : Z) (l : list A) :
  0 < N →
  ∃ chunks,
    iterate_chunks N l = OK chunks
    ∧ concat chunks = l
    ∧ Forall (fun c => (0 < length c ≤ Z.to_nat N)%nat) chunks
    ∧ ∀ k c, chunks !! k = Some c → (S k < length chunks)%nat →
             length c = Z.to_nat N.
Proof.
  intros HN. unfold iterate_chunks.
  rewrite bool_decide_eq_false_2 by lia. rewrite bool_decide_eq_false_2 by lia.
  eexists. split; [reflexivity|].
  apply iterate_chunks_props. lia.
Qed.

Lemma iterate_chunks_partition_witness :
  ∃ chunks,
    iterate_chunks 2 [10; 11; 12; 13; 14] = OK chunks
    ∧ concat chunks = [10; 11; 12; 13; 14]
    ∧ Forall (fun c => (0 < length c ≤ Z.to_nat 2)%nat) chunks
    ∧ ∀ k c, chunks !! k = Some c → (S k < length chunks)%nat →
             length c = Z.to_nat 2.
Proof.
  apply (iterate_chunks_partition 2 [10; 11; 12; 13; 14]). lia.
Defined.

(** ** [AbsCal.make_gains]: modulus and antenna dependence *)

Lemma Cabs_Cmul (a b : complex) : Cabs (Cmul a b) = (Cabs a * Cabs b)%R.
Proof.
  destruct a as [a1 a2], b as [b1 b2]. unfold Cabs, Cmul. simpl.
  rewrite <- sqrt_mult by nra. f_equal. ring.
Qed.

Lemma Cabs_RtoC (r : R) : Cabs (RtoC r) = Rabs r.
Proof.
  unfold Cabs, RtoC. simpl.
  replace (r * r + 0 * 0)%R with (Rsqr r) by (unfold Rsqr; ring).
  apply sqrt_Rsqr_abs.
Qed.

Lemma Cabs_exp_neg_i (x : R) : Cabs (exp_neg_i x) = 1%R.
Proof.
  rewrite exp_neg_i_cos_sin. unfold Cabs. simpl.
  replace (cos x * cos x + - sin x * - sin x)%R with 1%R.
  - apply sqrt_1.
  - pose proof (sin2_cos2 x) as H. unfold Rsqr in H. lra.
Qed.

(** X20.  The phases only turn the gains (real arithmetic read as exact):
    every entry of the gain array that [make_gains] builds has the modulus of
    the amplitude at its time, frequency and polarization, or 1 when the
    amplitude was not solved, because exp(-ix) has modulus 1; in float64 this
    holds up to rounding.  Without a phase slope the gain is the same for all
    antennas. *)
Theorem make_gains_modulus (self : AbsCal) (g : nat → nat → nat → nat → complex) :
  make_gains self = OK g →
  (∀ h j k l,
     Cabs (g h j k l)
     = match gain_amp self with
       | Some amps => Rabs (amps j k l)
       | None => 1%R
       end)
  ∧ (gain_phi self = None → ∀ h h' j k l, g h j k l = g h' j k l).
Proof.
  destruct self as [amp psi phi pos]. unfold make_gains. simpl.
  destruct amp as [amp|], psi as [psi|], phi as [phi|], pos as [pos|]; simpl;
    intros [= <-]; (split; [|done]); intros h j k l;
    rewrite ?Cabs_Cmul, ?Cabs_exp_neg_i, ?Cabs_RtoC, ?Rabs_R1; lra.
Qed.

Definition amplitude_and_phase : AbsCal :=
  {| gain_amp := Some (fun _ _ _ => (-2)%R);
     gain_psi := Some (fun _ _ _ => 1%R);
     gain_phi := None;
     antpos := None |}.

Lemma make_gains_modulus_witness :
  ∃ g, make_gains amplitude_and_phase = OK g
       ∧ (∀ h j k l, Cabs (g h j k l) = Rabs (-2))
       ∧ ∀ h h' j k l, g h j k l = g h' j k l.
Proof.
  eexists. split; [reflexivity|].
  destruct (make_gains_modulus amplitude_and_phase _ eq_refl) as [Hmod Hsame].
  split; [exact Hmod | exact (Hsame eq_refl)].
Defined.

(** ** [eq2top_m] and [top2eq_m] *)

(** [eq2top_m(ha, dec)], lines 870-881, for a scalar hour angle and
    declination (for arrays the code returns this matrix for each pair). *)
Definition eq2top_m (ha dec : R) : list (list R) :=
  let sin_H := sin ha in let cos_H := cos ha in
  let sin_d := sin dec in let cos_d := cos dec in
  [ [ sin_H; cos_H; 0 ];
    [ - sin_d * cos_H; sin_d * sin_H; cos_d ];
    [ cos_d * cos_H; - cos_d * sin_H; sin_d ] ]%R.

(** [top2eq_m(ha, dec)], lines 884-896. *)
Definition top2eq_m (ha dec : R) : list (list R) :=
  let sin_H := sin ha in let cos_H := cos ha in
  let sin_d := sin dec in let cos_d := cos dec in
  [ [ sin_H; - cos_H * sin_d; cos_d * cos_H ];
    [ cos_H; sin_d * sin_H; - cos_d * sin_H ];
    [ 0; cos_d; sin_d ] ]%R.

(** The entry (i, j) of a matrix, 0 outside. *)
Definition entry (m : list (list R)) (i j : nat) : R := nth j (nth i m []) 0%R.

(** The transpose and the product of 3 by 3 matrices. *)
Definition transpose3 (m : list (list R)) : list (list R) :=
  (fun j => (fun i => entry m i j) <$> [0; 1; 2]%nat) <$> [0; 1; 2]%nat.
Definition matmul3 (a b : list (list R)) : list (list R) :=
  (fun i =>
     (fun j => (entry a i 0 * entry b 0 j + entry a i 1 * entry b 1 j
                + entry a i 2 * entry b 2 j)%R) <$> [0; 1; 2]%nat)
    <$> [0; 1; 2]%nat.
Definition identity3 : list (list R) :=
  [ [ 1; 0; 0 ]; [ 0; 1; 0 ]; [ 0; 0; 1 ] ]%R.

(** X21.  [top2eq_m], written out by hand in the code instead of inverting, is the
    inverse of [eq2top_m] at the same hour angle and declination, on both
    sides, and its transpose: the two are rotations (real arithmetic read as
    exact). *)
Theorem top2eq_m_inverts_eq2top_m (ha dec : R) :
  top2eq_m ha dec = transpose3 (eq2top_m ha dec)
  ∧ matmul3 (eq2top_m ha dec) (top2eq_m ha dec) = identity3
  ∧ matmul3 (top2eq_m ha dec) (eq2top_m ha dec) = identity3.
Proof.
  pose proof (sin2_cos2 ha) as HH. pose proof (sin2_cos2 dec) as Hd.
  unfold Rsqr in HH, Hd.
  unfold top2eq_m, eq2top_m, transpose3, matmul3, identity3, entry. simpl.
  set (sH := sin ha) in *. set (cH := cos ha) in *.
  set (sd := sin dec) in *. set (cd := cos dec) in *.
  assert (H1 : (sd * sd * (sH * sH + cH * cH) = sd * sd)%R) by (rewrite HH; ring).
  assert (H2 : (cd * cd * (sH * sH + cH * cH) = cd * cd)%R) by (rewrite HH; ring).
  assert (H3 : (sd * cd * (sH * sH + cH * cH) = sd * cd)%R) by (rewrite HH; ring).
  assert (H4 : (sH * sH * (sd * sd + cd * cd) = sH * sH)%R) by (rewrite Hd; ring).
  assert (H5 : (cH * cH * (sd * sd + cd * cd) = cH * cH)%R) by (rewrite Hd; ring).
  assert (H6 : (sH * cH * (sd * sd + cd * cd) = sH * cH)%R) by (rewrite Hd; ring).
  repeat split;
    repeat (match goal with
            | |- _ :: _ = _ :: _ => apply (f_equal2 cons)
            | |- [] = [] => reflexivity
            end);
    nra.
Qed.

(** ** [synthesize_ant_flags]: what a flag comes from *)




(** ** [chisq]: signs and counts *)

Lemma visit_contribution_bounds
    (polstr2num jstr2num : string → result Z) (jnum2str : Z → result string)
    (model : gmap (Z * Z * string) (waterfall complex))
    (data_wgts : gmap (Z * Z * string) (waterfall R))
    (gains : option (gmap (Z * string) (waterfall complex)))
    (gain_flags : option (gmap (Z * string) (waterfall bool)))
    (split_by_antpol : bool)
    (it : (Z * Z * string) * waterfall complex) (c : contribution) :
  (∀ bl w t f x, data_wgts !! bl = Some w → wf_get w t f = Some x → (0 <= x)%R) →
  visit polstr2num jstr2num jnum2str model data_wgts gains gain_flags
    split_by_antpol it = OK (Some c) →
  (∀ t f x, wf_get (c_chisq_here c) t f = Some x → (0 <= x)%R)
  ∧ (∀ t f n, wf_get (c_obs c) t f = Some n → 0 ≤ n ≤ 1).
Proof.
  intros Hpos Hv. unfold visit in Hv.
  apply bind_OK in Hv as ([ap1 ap2] & _ & Hv).
  destruct (has_key model it.1 && has_key data_wgts it.1
            && (negb split_by_antpol || String.eqb ap1 ap2)); [|done].
  apply bind_OK in Hv as (model_bl & _ & Hv).
  apply bind_OK in Hv as (model_here & _ & Hv).
  apply bind_OK in Hv as (wgts_bl & Hwb & Hv).
  apply bind_OK in Hv as (wgts & Hw & Hv).
  injection Hv as <-. simpl.
  assert (Hwb' : data_wgts !! it.1 = Some wgts_bl).
  { unfold getitem in Hwb. by destruct (data_wgts !! it.1) as [?|]; [injection Hwb as ->|]. }
  assert (Hwpos : ∀ t f x, wf_get wgts t f = Some x → (0 <= x)%R).
  { intros t f x Hx. destruct gain_flags as [gf|].
    - apply bind_OK in Hw as (f1 & _ & Hw). apply bind_OK in Hw as (f2 & _ & Hw).
      injection Hw as <-.
      repeat (rewrite ?wf_get_zip, ?wf_get_map in Hx).
      destruct (wf_get wgts_bl t f) as [w|] eqn:Hwq; [|simpl in Hx; done].
      destruct (wf_get f1 t f) as [b1|]; [|simpl in Hx; done].
      destruct (wf_get f2 t f) as [b2|]; [|simpl in Hx; done].
      simpl in Hx. injection Hx as <-.
      pose proof (Hpos _ _ _ _ _ Hwb' Hwq).
      destruct b1, b2; simpl; nra.
    - injection Hw as <-. by apply (Hpos _ _ _ _ _ Hwb' Hx). }
  split.
  - intros t f x Hx. rewrite wf_get_zip, wf_get_map in Hx.
    destruct (wf_get (wf_zip Csub model_here it.2) t f) as [d|]; [|simpl in Hx; done].
    destruct (wf_get wgts t f) as [w|] eqn:Hwq; [|simpl in Hx; done].
    simpl in Hx. injection Hx as <-.
    apply Rmult_le_pos; [apply sqrt_pos | by apply (Hwpos t f)].
  - intros t f n Hn. rewrite wf_get_map in Hn.
    destruct (wf_get wgts t f) as [w|]; [|done]. simpl in Hn. injection Hn as <-.
    unfold Rpos_Z. destruct (Rlt_dec 0 w); lia.
Qed.

(** X23.  Chi-square has no negative entry and a count never exceeds the
    number of baselines.  With weights that are not negative, a call without
    accumulators and without [split_by_antpol] returns a chi-square array
    whose entries are at least 0 and a count array whose entries lie between 0
    and the number of baselines of [data]. *)
Theorem chisq_nonnegative
    (polstr2num jstr2num : string → result Z) (jnum2str : Z → result string)
    (model : gmap (Z * Z * string) (waterfall complex))
    (data_wgts : gmap (Z * Z * string) (waterfall R))
    (gains : option (gmap (Z * string) (waterfall complex)))
    (gain_flags : option (gmap (Z * string) (waterfall bool)))
    (data : list ((Z * Z * string) * waterfall complex)) (out : chisq_out) :
  (∀ bl w t f x, data_wgts !! bl = Some w → wf_get w t f = Some x → (0 <= x)%R) →
  chisq polstr2num jstr2num jnum2str model data_wgts gains gain_flags false
    data None None None None = OK out →
  ∃ cw nw,
    out_chisq out = AccArr cw ∧ out_nObs out = AccArr nw
    ∧ (∀ t f x, wf_get cw t f = Some x → (0 <= x)%R)
    ∧ (∀ t f n, wf_get nw t f = Some n → 0 ≤ n ≤ Z.of_nat (length data)).
Proof.
  intros Hpos Hrun. unfold chisq in Hrun.
  apply bind_OK in Hrun as ([c n] & Hinit & Hrun). simpl in Hrun.
  unfold init_chisq_nObs in Hinit.
  apply bind_OK in Hinit as (d0 & _ & [= <- <-]).
  set (inv := fun (k : Z) (acc : chisq_out) =>
    acc_ok false acc
    ∧ ∃ cw nw, out_chisq acc = AccArr cw ∧ out_nObs acc = AccArr nw
        ∧ (∀ t f x, wf_get cw t f = Some x → (0 <= x)%R)
        ∧ (∀ t f m, wf_get nw t f = Some m → 0 ≤ m ≤ k)).
  assert (Hloop : ∀ l acc k out', inv k acc →
    foldM (chisq_step polstr2num jstr2num jnum2str model data_wgts gains
             gain_flags false) acc l = OK out' →
    inv (k + Z.of_nat (length l)) out').
  { induction l as [|it l IH]; intros acc k out' Hinv Hl.
    - injection Hl as <-. simpl. by rewrite Z.add_0_r.
    - rewrite foldM_cons in Hl. apply bind_OK in Hl as (acc1 & Hstep & Hl).
      replace (k + Z.of_nat (length (it :: l)))
        with ((k + 1) + Z.of_nat (length l)) by (simpl; lia).
      apply (IH acc1); [|done].
      destruct Hinv as (Hok & cw & nw & Hc & Hn & Hcpos & Hnb).
      destruct (chisq_step_OK _ _ _ _ _ _ _ _ _ _ _ Hok Hstep) as (oc & Hv & ->).
      split; [by apply step_pure_ok|].
      destruct oc as [c|]; simpl.
      + destruct (visit_contribution_bounds _ _ _ _ _ _ _ _ _ _ Hpos Hv)
          as [Hcc Hco].
        rewrite Hc, Hn. eexists _, _. split; [done|]. split; [done|]. split.
        * intros t f x Hx. rewrite wf_get_zip in Hx.
          destruct (wf_get cw t f) as [a|] eqn:Ha; [|done].
          destruct (wf_get (c_chisq_here c) t f) as [b|] eqn:Hb; [|done].
          simpl in Hx. injection Hx as <-.
          pose proof (Hcpos _ _ _ Ha). pose proof (Hcc _ _ _ Hb). lra.
        * intros t f m Hm. rewrite wf_get_zip in Hm.
          destruct (wf_get nw t f) as [a|] eqn:Ha; [|done].
          destruct (wf_get (c_obs c) t f) as [b|] eqn:Hb; [|done].
          simpl in Hm. injection Hm as <-.
          pose proof (Hnb _ _ _ Ha). pose proof (Hco _ _ _ Hb). lia.
      + exists cw, nw. split; [done|]. split; [done|]. split; [done|].
        intros t f m Hm. pose proof (Hnb _ _ _ Hm). lia. }
  destruct (Hloop data (ChisqOut (AccArr (wf_full 0%R d0.2))
                          (AccArr (wf_full 0 d0.2)) ∅ ∅) 0 out)
    as (_ & cw & nw & Hc & Hn & Hcpos & Hnb); [|exact Hrun|].
  - split; [split; [by eexists _, _ | done]|].
    eexists _, _. split; [done|]. split; [done|]. split.
    + intros t f x Hx. unfold wf_full in Hx. rewrite wf_get_map in Hx.
      destruct (wf_get d0.2 t f); [|done]. injection Hx as <-. lra.
    + intros t f m Hm. unfold wf_full in Hm. rewrite wf_get_map in Hm.
      destruct (wf_get d0.2 t f); [|done]. injection Hm as <-. lia.
  - exists cw, nw. split; [done|]. split; [done|]. split; [done|].
    intros t f m Hm. pose proof (Hnb _ _ _ Hm). lia.
Qed.

Lemma chisq_nonnegative_witness :
  match chisq Pyuvdata.polstr2num Pyuvdata.jstr2num Pyuvdata.jnum2str
          bug_model bug_wgts None None false bug_data None None None None with
  | OK out =>
      ∃ cw nw,
        out_chisq out = AccArr cw ∧ out_nObs out = AccArr nw
        ∧ (∀ t f x, wf_get cw t f = Some x → (0 <= x)%R)
        ∧ (∀ t f n, wf_get nw t f = Some n → 0 ≤ n ≤ Z.of_nat (length bug_data))
  | Raise _ => False
  end.
Proof.
  assert (Hret :
    match chisq Pyuvdata.polstr2num Pyuvdata.jstr2num Pyuvdata.jnum2str
            bug_model bug_wgts None None false bug_data None None None None with
    | OK _ => True
    | Raise _ => False
    end) by (vm_compute; exact I).
  remember (chisq Pyuvdata.polstr2num Pyuvdata.jstr2num Pyuvdata.jnum2str
              bug_model bug_wgts None None false bug_data None None None None)
    as full eqn:Hfull.
  symmetry in Hfull. destruct full as [out|e]; [clear Hret|destruct Hret].
  refine (chisq_nonnegative Pyuvdata.polstr2num Pyuvdata.jstr2num
            Pyuvdata.jnum2str bug_model bug_wgts None None bug_data out _ Hfull).
  intros bl w t f x Hw Hx. unfold bug_wgts in Hw.
  apply lookup_singleton_Some in Hw as [_ <-].
  destruct t as [|t]; [|done]. destruct f as [|f]; [|done].
  injection Hx as <-. lra.
Defined.
